(** * textbelt-whatsapp: a shallow embedding of [app.py]

    The development follows the source file top-down: Python string
    helpers, the news pipeline ([group_articles_by_source],
    [analyze_sentiment], [create_formatted_message_from_grouping]), the
    browser the script drives through Selenium (document tree, XPath
    selectors, polled waits), and finally [send_whatsapp_message] and
    [job] as programs in a state-and-exception monad over an arbitrary
    external world. *)

From Stdlib Require Import List String Ascii ZArith NArith Lia Bool Arith.
Import ListNotations.
Local Open Scope string_scope.

(** ** Python string helpers *)

Module Py.

(** The newline character, ["\n"]. *)
Definition nl : ascii := "010"%char.
(** The double quote, written by its code to keep literals simple. *)
Definition dq : ascii := "034"%char.
Definition dquote : string := String dq EmptyString.

(** [s.split(sep)] for a one-character separator: k occurrences of the
    separator give k+1 pieces, the empty string gives one empty piece. *)
Fixpoint split (sep : ascii) (s : string) : list string :=
  match s with
  | EmptyString => [EmptyString]
  | String c r =>
      if Ascii.eqb c sep then EmptyString :: split sep r
      else match split sep r with
           | [] => [String c EmptyString]
           | h :: t => String c h :: t
           end
  end.

(** [sep.join(parts)]. *)
Fixpoint join (sep : string) (parts : list string) : string :=
  match parts with
  | [] => EmptyString
  | [p] => p
  | p :: rest => p ++ sep ++ join sep rest
  end.

(** [str.isspace] on one character, for code points below 256:
    TAB..CR, FS..US, SPACE, NEL and NBSP. *)
Definition is_space (c : ascii) : bool :=
  let n := nat_of_ascii c in
  (((9 <=? n) && (n <=? 13)) || ((28 <=? n) && (n <=? 32))
   || (n =? 133) || (n =? 160))%nat.

Fixpoint lstrip (s : string) : string :=
  match s with
  | EmptyString => EmptyString
  | String c r => if is_space c then lstrip r else s
  end.

Fixpoint rstrip (s : string) : string :=
  match s with
  | EmptyString => EmptyString
  | String c r =>
      match rstrip r with
      | EmptyString => if is_space c then EmptyString else String c EmptyString
      | r' => String c r'
      end
  end.

(** [s.strip()]. *)
Definition strip (s : string) : string := rstrip (lstrip s).

(** Truthiness of a string: [not s] holds exactly for the empty string. *)
Definition truthy (s : string) : bool :=
  match s with EmptyString => false | _ => true end.

(** [s.endswith(c)] for a one-character suffix. *)
Fixpoint endswith (s : string) (c : ascii) : bool :=
  match s with
  | EmptyString => false
  | String a EmptyString => Ascii.eqb a c
  | String _ r => endswith r c
  end.

(** Number of occurrences of a character. *)
Fixpoint count_char (c : ascii) (s : string) : nat :=
  match s with
  | EmptyString => 0
  | String a r => (if Ascii.eqb a c then 1 else 0) + count_char c r
  end.

End Py.

(** ** The news pipeline *)

Module News.
Import Py.

(** An article of the NewsAPI reply that the loop can read, as far as
    the script reads it: the ["source"] object with its ["name"], and
    the ["title"]; each key may be absent, and a value that is present
    is a string (an object for ["source"]), as the API documents them.
    A ["source"] or ["title"] that is [null] makes the loop raise: see
    [App.read_article]. *)
Record source_obj := { src_name : option string }.
Record article := { art_source : option source_obj; art_title : option string }.

(** [article.get("source", {}).get("name", "Unknown Source")] *)
Definition source_of (a : article) : string :=
  match art_source a with
  | Some so => match src_name so with Some n => n | None => "Unknown Source" end
  | None => "Unknown Source"
  end.

(** [article.get("title", "").strip()] *)
Definition headline_of (a : article) : string :=
  strip (match art_title a with Some t => t | None => "" end).

(** A Python dict from source name to headline list; the association
    list keeps insertion order, which [items()] iterates in. *)
Definition dict := list (string * list string).

Fixpoint dict_get (k : string) (d : dict) : option (list string) :=
  match d with
  | [] => None
  | (k', v) :: r => if String.eqb k k' then Some v else dict_get k r
  end.

(** [d[k] = v]: overwrite in place, or append a new key at the end. *)
Fixpoint dict_set (k : string) (v : list string) (d : dict) : dict :=
  match d with
  | [] => [(k, v)]
  | (k', v') :: r =>
      if String.eqb k k' then (k', v) :: r else (k', v') :: dict_set k v r
  end.

Definition dict_mem (k : string) (d : dict) : bool :=
  match dict_get k d with Some _ => true | None => false end.

(** One iteration of the loop of [group_articles_by_source]. *)
Definition group_step (max_per_source : Z) (grouped : dict) (a : article) : dict :=
  let source := source_of a in
  let headline := headline_of a in
  if negb (truthy headline) then grouped
  else
    let grouped1 := if dict_mem source grouped then grouped
                    else dict_set source [] grouped in
    match dict_get source grouped1 with
    | Some hs =>
        if (Z.of_nat (List.length hs) <? max_per_source)%Z
        then dict_set source (hs ++ [headline])%list grouped1
        else grouped1
    | None => grouped1
    end.

Definition group_articles_by_source (articles : list article)
           (max_per_source : Z) : dict :=
  fold_left (group_step max_per_source) articles [].

(** The stripped, non-empty headlines of the articles of one source,
    in input order: what an unlimited grouping would hold for it. *)
Definition contributes (source : string) (a : article) : bool :=
  String.eqb (source_of a) source && truthy (headline_of a).

Definition headlines_for (source : string) (articles : list article) : list string :=
  map headline_of (filter (contributes source) articles).

(** What the dictionary holds after the loop has consumed [articles]. *)
Definition grouped_as (n : nat) (articles : list article) (d : dict) : Prop :=
  forall source,
    dict_get source d =
    if existsb (contributes source) articles
    then Some (firstn n (headlines_for source articles))
    else None.

(** [analyze_sentiment(text)].  The compound polarity score comes from
    the external VADER analyzer, passed here as [polarity_compound]; it
    is a value rounded to four decimals, kept in units of 1/10000, so
    that the thresholds [0.05] and [-0.05] are [500] and [-500]. *)
Definition analyze_sentiment (polarity_compound : string -> Z) (text : string) : string :=
  let compound := polarity_compound text in
  if (500 <=? compound)%Z then "Overall Positive"
  else if (compound <=? -500)%Z then "Overall Negative"
  else "Neutral".

Definition headline_line (headline : string) : string :=
  "* " ++ (if endswith headline "."%char then headline else headline ++ ".").

Definition source_block (entry : string * list string) : list string :=
  (fst entry ++ ":") :: (map headline_line (snd entry) ++ [""])%list.

Definition message_lines (grouped_articles : dict) (sentiment quote soccer_section : string)
  : list string :=
  (["Daily News Summary"; ""]
     ++ flat_map source_block grouped_articles
     ++ (if truthy soccer_section then [soccer_section; ""] else [])
     ++ [("Overall Sentiment: " ++ sentiment)%string]
     ++ (if truthy quote then [("Inspirational Quote: " ++ quote)%string] else [])
     ++ [""; "Have a great day!"])%list.

Definition create_formatted_message_from_grouping
           (grouped_articles : dict) (sentiment quote soccer_section : string) : string :=
  join (String nl EmptyString)
       (message_lines grouped_articles sentiment quote soccer_section).

(** [" ".join([" ".join(headlines) for headlines in grouped.values()])] *)
Definition flatten_headlines (grouped_articles : dict) : string :=
  join " " (map (fun e => join " " (snd e)) grouped_articles).

End News.

(** ** The page the browser renders *)

Module Dom.

(** An element as Selenium sees it: tag, attributes, and the two flags
    [is_displayed()] and [is_enabled()] read by [element_to_be_clickable]. *)
Record element := {
  el_tag : string;
  el_attrs : list (string * string);
  el_displayed : bool;
  el_enabled : bool
}.

#[warnings="-register-all"]
Inductive node := Node (e : element) (children : list node).

Fixpoint get_attr (name : string) (attrs : list (string * string)) : option string :=
  match attrs with
  | [] => None
  | (k, v) :: r => if String.eqb name k then Some v else get_attr name r
  end.

Definition title_of (e : element) : option string := get_attr "title" (el_attrs e).

(** All elements of a tree in document order. *)
Fixpoint elements (n : node) : list element :=
  match n with Node e kids => e :: flat_map elements kids end.

End Dom.

(** ** The XPath fragment of the script's selectors

    The selectors of [app.py] are location paths made of [//name] steps
    with an optional predicate over attributes, string literals, [=],
    [and] and [or].  The contact selector is built by interpolating the
    contact name, so the selector text is lexed and parsed here as the
    browser does.  What the browser answers for a text outside this
    fragment is not decided here: it is left to the world (see
    [Selenium.resolve]). *)

Module XPath.
Import Py Dom.

Inductive token :=
| TSlashes | TName (s : string) | TLBracket | TRBracket | TAt | TEq
| TLit (s : string).

Inductive lex_state :=
| LIdle
| LSlash
| LName (acc : string)
| LLit (q : ascii) (acc : string).

Definition in_range (lo hi : nat) (c : ascii) : bool :=
  let n := nat_of_ascii c in ((lo <=? n) && (n <=? hi))%nat.

Definition is_name_start (c : ascii) : bool :=
  in_range 65 90 c || in_range 97 122 c || Ascii.eqb c "_"%char.

Definition is_name_char (c : ascii) : bool :=
  is_name_start c || in_range 48 57 c || Ascii.eqb c "-"%char || Ascii.eqb c "."%char.

Definition is_blank (c : ascii) : bool :=
  let n := nat_of_ascii c in ((n =? 32) || (n =? 9) || (n =? 10) || (n =? 13))%nat.

Definition snoc (s : string) (c : ascii) : string := s ++ String c EmptyString.

(** Reading one character between tokens: the tokens it completes and
    the state it leaves. *)
Definition start (c : ascii) : option (list token * lex_state) :=
  if is_blank c then Some ([], LIdle)
  else if Ascii.eqb c "/"%char then Some ([], LSlash)
  else if Ascii.eqb c "["%char then Some ([TLBracket], LIdle)
  else if Ascii.eqb c "]"%char then Some ([TRBracket], LIdle)
  else if Ascii.eqb c "@"%char then Some ([TAt], LIdle)
  else if Ascii.eqb c "="%char then Some ([TEq], LIdle)
  else if Ascii.eqb c dq || Ascii.eqb c "'"%char then Some ([], LLit c EmptyString)
  else if is_name_start c then Some ([], LName (String c EmptyString))
  else None.

Definition emit (ts : list token) (rest : option (list token)) : option (list token) :=
  match rest with Some r => Some (ts ++ r)%list | None => None end.

Fixpoint lex (st : lex_state) (s : string) : option (list token) :=
  match s with
  | EmptyString =>
      match st with
      | LIdle => Some []
      | LName acc => Some [TName acc]
      | LSlash | LLit _ _ => None
      end
  | String c r =>
      match st with
      | LLit q acc =>
          if Ascii.eqb c q then emit [TLit acc] (lex LIdle r)
          else lex (LLit q (snoc acc c)) r
      | LSlash =>
          if Ascii.eqb c "/"%char then emit [TSlashes] (lex LIdle r) else None
      | LName acc =>
          if is_name_char c then lex (LName (snoc acc c)) r
          else match start c with
               | Some (ts, st') => emit (TName acc :: ts) (lex st' r)
               | None => None
               end
      | LIdle =>
          match start c with
          | Some (ts, st') => emit ts (lex st' r)
          | None => None
          end
      end
  end.

Inductive expr :=
| EAttr (name : string)
| ELit (s : string)
| EEq (a b : expr)
| EAnd (a b : expr)
| EOr (a b : expr).

Record step := { st_name : string; st_pred : option expr }.

Definition parse_prim (ts : list token) : option (expr * list token) :=
  match ts with
  | TAt :: TName n :: r => Some (EAttr n, r)
  | TLit s :: r => Some (ELit s, r)
  | _ => None
  end.

Fixpoint eq_tail (fuel : nat) (lhs : expr) (ts : list token) : option (expr * list token) :=
  match fuel with
  | O => None
  | S f =>
      match ts with
      | TEq :: r =>
          match parse_prim r with
          | Some (rhs, r') => eq_tail f (EEq lhs rhs) r'
          | None => None
          end
      | _ => Some (lhs, ts)
      end
  end.

Definition parse_eq (fuel : nat) (ts : list token) : option (expr * list token) :=
  match parse_prim ts with
  | Some (lhs, r) => eq_tail fuel lhs r
  | None => None
  end.

Fixpoint and_tail (fuel : nat) (lhs : expr) (ts : list token) : option (expr * list token) :=
  match fuel with
  | O => None
  | S f =>
      match ts with
      | TName "and" :: r =>
          match parse_eq fuel r with
          | Some (rhs, r') => and_tail f (EAnd lhs rhs) r'
          | None => None
          end
      | _ => Some (lhs, ts)
      end
  end.

Definition parse_and (fuel : nat) (ts : list token) : option (expr * list token) :=
  match parse_eq fuel ts with
  | Some (lhs, r) => and_tail fuel lhs r
  | None => None
  end.

Fixpoint or_tail (fuel : nat) (lhs : expr) (ts : list token) : option (expr * list token) :=
  match fuel with
  | O => None
  | S f =>
      match ts with
      | TName "or" :: r =>
          match parse_and fuel r with
          | Some (rhs, r') => or_tail f (EOr lhs rhs) r'
          | None => None
          end
      | _ => Some (lhs, ts)
      end
  end.

Definition parse_or (fuel : nat) (ts : list token) : option (expr * list token) :=
  match parse_and fuel ts with
  | Some (lhs, r) => or_tail fuel lhs r
  | None => None
  end.

Definition parse_step (fuel : nat) (ts : list token) : option (step * list token) :=
  match ts with
  | TSlashes :: TName n :: TLBracket :: r =>
      match parse_or fuel r with
      | Some (e, TRBracket :: r') => Some ({| st_name := n; st_pred := Some e |}, r')
      | _ => None
      end
  | TSlashes :: TName n :: r => Some ({| st_name := n; st_pred := None |}, r)
  | _ => None
  end.

Fixpoint parse_steps (fuel : nat) (ts : list token) : option (list step) :=
  match fuel with
  | O => None
  | S f =>
      match parse_step fuel ts with
      | Some (s, []) => Some [s]
      | Some (s, r) =>
          match parse_steps f r with
          | Some ss => Some (s :: ss)
          | None => None
          end
      | None => None
      end
  end.

Definition parse (s : string) : option (list step) :=
  match lex LIdle s with
  | Some ts => parse_steps (S (List.length ts)) ts
  | None => None
  end.

(** Values of the fragment: booleans, strings, and the node-set of one
    attribute step, which holds the attribute's value when present. *)
Inductive value := VBool (b : bool) | VStr (s : string) | VAttr (o : option string).

Definition to_bool (v : value) : bool :=
  match v with
  | VBool b => b
  | VStr s => truthy s
  | VAttr o => match o with Some _ => true | None => false end
  end.

(** The [=] of XPath 1.0: a node-set equals a string when one of its
    nodes has that string value; against a boolean both sides are
    converted to booleans; two strings are compared as strings. *)
Definition eq_value (a b : value) : bool :=
  match a, b with
  | VAttr (Some x), VAttr (Some y) => String.eqb x y
  | VAttr _, VAttr _ => false
  | VAttr (Some x), VStr s | VStr s, VAttr (Some x) => String.eqb x s
  | VAttr None, VStr _ | VStr _, VAttr None => false
  | VStr x, VStr y => String.eqb x y
  | VBool x, _ => Bool.eqb x (to_bool b)
  | _, VBool y => Bool.eqb (to_bool a) y
  end.

Fixpoint eval (e : expr) (el : element) : value :=
  match e with
  | EAttr n => VAttr (get_attr n (el_attrs el))
  | ELit s => VStr s
  | EEq a b => VBool (eq_value (eval a el) (eval b el))
  | EAnd a b => VBool (to_bool (eval a el) && to_bool (eval b el))
  | EOr a b => VBool (to_bool (eval a el) || to_bool (eval b el))
  end.

Definition matches (s : step) (el : element) : bool :=
  String.eqb (st_name s) (el_tag el)
  && match st_pred s with Some e => to_bool (eval e el) | None => true end.

(** Elements selected by [//s1//s2...//sk] below and including [n], in
    document order: an element is selected when it matches the last
    step and has ancestors matching the earlier steps in order. *)
Fixpoint select (s : step) (rest : list step) (n : node) {struct n} : list element :=
  match n with
  | Node e kids =>
      if matches s e then
        match rest with
        | [] => e :: flat_map (select s []) kids
        | s' :: rest' => flat_map (select s' rest') kids
        end
      else flat_map (select s rest) kids
  end.

Definition select_path (p : list step) (root : node) : list element :=
  match p with
  | [] => []
  | s :: rest => select s rest root
  end.

End XPath.

(** ** Selenium commands, the external world and the program monad *)

Module Selenium.
Import Py Dom.

(** The [Exception] subclasses the script can meet. *)
Inductive exn :=
| WebDriverException (msg : string)
| NoSuchElementException
| TimeoutException
| InvalidSelectorException
| StaleElementReferenceException
| ElementNotInteractableException
| RequestException (msg : string)
| ValueError (msg : string)
| IndexError
| AttributeError (attr : string)
| LookupError (msg : string).

Definition is_no_such_element (e : exn) : bool :=
  match e with NoSuchElementException => true | _ => false end.

Inductive locator := ByTagName (name : string) | ByXPath (path : string).

(** The three kinds of [send_keys] calls of the script. *)
Inductive keys :=
| KText (s : string)      (* send_keys(line) *)
| KShiftEnter             (* send_keys(Keys.SHIFT, Keys.ENTER) *)
| KEnter.                 (* send_keys(Keys.ENTER) *)

(** Commands sent to the browser, and [time.sleep]. *)
Inductive op :=
| OAttach (driver_path debugger_address : string)
| OGet (url : string)
| OFind (l : locator)
| OClick (target : element)
| OSendKeys (target : element) (k : keys)
| OSleep (ms : N)
| OQuit.

(** The steps of one contact's sequence, in program order. *)
Inductive stage :=
| SAttach | SNavigate | SAwaitReady | SLocateSearch | STypeQuery
| SSelectContact | SLocateInput | SComposeAndSend | SRelease.

(** Position of a step in the sequence, counted from 1. *)
Definition stage_index (s : stage) : nat :=
  match s with
  | SAttach => 1 | SNavigate => 2 | SAwaitReady => 3 | SLocateSearch => 4
  | STypeQuery => 5 | SSelectContact => 6 | SLocateInput => 7
  | SComposeAndSend => 8 | SRelease => 9
  end.

Definition all_stages : list stage :=
  [SAttach; SNavigate; SAwaitReady; SLocateSearch; STypeQuery;
   SSelectContact; SLocateInput; SComposeAndSend; SRelease].

Definition stage_eqb (a b : stage) : bool := (stage_index a =? stage_index b)%nat.

(** One executed command: the step it belongs to, the clock when it was
    issued (milliseconds), the command, and the exception it raised. *)
Record event := {
  ev_stage : stage;
  ev_at : N;
  ev_op : op;
  ev_raised : option exn
}.

(** The world outside the script, as a function of everything done so
    far: whether a command fails, which document a lookup sees, and how
    long a command takes.  [beyond] is the answer of the browser's own
    XPath engine for a selector text outside the fragment of [XPath]:
    the elements it selects in a document, or [None] when it rejects the
    text. *)
Record World := {
  fault : list event -> N -> op -> option exn;
  page : list event -> N -> node;
  latency : list event -> N -> op -> N;
  beyond : string -> node -> option (list element)
}.

Inductive entry :=
| LJobStarted                         (* INFO  "Job started." *)
| LFetching                           (* INFO  "Fetching news from NewsAPI" *)
| LFetched (n : nat)                  (* INFO  "Fetched {n} articles." *)
| LFetchStatus (status : Z)           (* ERROR "Failed to fetch news. Status code: ..." *)
| LFetchException (e : exn)           (* ERROR "Exception during news fetching: ..." *)
| LNoArticles                         (* WARNING "No articles fetched; skipping message sending." *)
| LQuoteStatus (status : Z)           (* WARNING "Could not fetch inspirational quote. ..." *)
| LQuoteException (e : exn)           (* ERROR "Error fetching inspirational quote: ..." *)
| LFormatted (message : string)       (* INFO  "Formatted message:\n" + message *)
| LSending (contact : string)         (* INFO  "Sending WhatsApp message to {contact}." *)
| LLoaded                             (* INFO  "WhatsApp Web loaded." *)
| LSent (contact : string)            (* INFO  "Message sent to {contact}." *)
| LSendError (contact : string) (e : exn) (* ERROR "Error sending message to {contact}: {e}" *)
| LJobCompleted.                      (* INFO  "Job completed." *)

Record state := {
  now : N;
  trace : list event;
  log : list entry
}.

Definition initial : state := {| now := 0; trace := []; log := [] |}.

(** A computation returns a value, raises, or runs out of the fuel that
    bounds the polling loop. *)
Inductive result (A : Type) :=
| Ok (a : A)
| Raise (e : exn)
| OutOfFuel.
Arguments Ok {A} a.
Arguments Raise {A} e.
Arguments OutOfFuel {A}.

Definition M (A : Type) : Type := state -> result A * state.

Definition ret {A} (a : A) : M A := fun st => (Ok a, st).

(** [raise e] *)
Definition throw {A} (e : exn) : M A := fun st => (Raise e, st).

Definition bind {A B} (m : M A) (k : A -> M B) : M B :=
  fun st =>
    match m st with
    | (Ok a, st1) => k a st1
    | (Raise e, st1) => (Raise e, st1)
    | (OutOfFuel, st1) => (OutOfFuel, st1)
    end.

(** [try: body except Exception as e: handler(e)] *)
Definition try_except {A} (body : M A) (handler : exn -> M A) : M A :=
  fun st =>
    match body st with
    | (Raise e, st1) => handler e st1
    | r => r
    end.

Declare Scope prog_scope.
Delimit Scope prog_scope with prog.
Notation "x <- m ;; k" := (bind m (fun x => k))
  (at level 61, m at next level, right associativity) : prog_scope.
Notation "m ;; k" := (bind m (fun _ => k))
  (at level 61, right associativity) : prog_scope.
Local Open Scope prog_scope.

(** [for x in xs: body(x)] *)
Fixpoint for_each {A} (xs : list A) (body : A -> M unit) : M unit :=
  match xs with
  | [] => ret tt
  | x :: rest => body x ;; for_each rest body
  end.

Definition logging (e : entry) : M unit :=
  fun st => (Ok tt, {| now := now st; trace := trace st; log := (log st ++ [e])%list |}).

Definition record (sg : stage) (o : op) (r : option exn) (dt : N) (st : state) : state :=
  {| now := now st + dt;
     trace := (trace st ++ [{| ev_stage := sg; ev_at := now st; ev_op := o; ev_raised := r |}])%list;
     log := log st |}.

(** [find_elements] for the selectors of the fragment; [None] stands for
    a selector text outside it. *)
Definition find_elements (l : locator) (root : node) : option (list element) :=
  match l with
  | ByTagName name => Some (filter (fun e => String.eqb name (el_tag e)) (elements root))
  | ByXPath path =>
      match XPath.parse path with
      | Some p => Some (XPath.select_path p root)
      | None => None
      end
  end.

Section Program.
Variable w : World.

(** A command that returns nothing. *)
Definition command (sg : stage) (o : op) : M unit :=
  fun st =>
    let r := fault w (trace st) (now st) o in
    let st1 := record sg o r (latency w (trace st) (now st) o) st in
    match r with
    | Some e => (Raise e, st1)
    | None => (Ok tt, st1)
    end.

(** [time.sleep(seconds)] *)
Definition sleep (sg : stage) (ms : N) : M unit :=
  fun st => (Ok tt, record sg (OSleep ms) None ms st).

(** The elements a locator selects: by the fragment when the selector
    is inside it, by the browser's engine otherwise; [None] when the
    browser rejects the selector. *)
Definition resolve (l : locator) (root : node) : option (list element) :=
  match find_elements l root with
  | Some es => Some es
  | None =>
      match l with
      | ByXPath path => beyond w path root
      | ByTagName _ => None
      end
  end.

Definition lookup (l : locator) (st : state) : result element :=
  match fault w (trace st) (now st) (OFind l) with
  | Some e => Raise e
  | None =>
      match resolve l (page w (trace st) (now st)) with
      | None => Raise InvalidSelectorException
      | Some [] => Raise NoSuchElementException
      | Some (e :: _) => Ok e
      end
  end.

Definition raised {A} (r : result A) : option exn :=
  match r with Raise e => Some e | _ => None end.

(** [driver.find_element(by, value)]: one immediate lookup. *)
Definition find_element (sg : stage) (l : locator) : M element :=
  fun st =>
    let r := lookup l st in
    (r, record sg (OFind l) (raised r) (latency w (trace st) (now st) (OFind l)) st).

(** [EC.presence_of_element_located(locator)] *)
Definition presence_of_element_located (sg : stage) (l : locator) : M (option element) :=
  e <- find_element sg l ;; ret (Some e).

(** [EC.element_to_be_clickable(locator)] *)
Definition element_to_be_clickable (sg : stage) (l : locator) : M (option element) :=
  e <- find_element sg l ;;
  ret (if el_displayed e && el_enabled e then Some e else None).

Definition poll : N := 500.

(** The loop of [WebDriverWait.until], as in current Selenium 4: call
    the condition, ignore [NoSuchElementException], give up once the
    clock has passed the end time, otherwise sleep for the poll interval
    (0.5 s by default) and try again.  The fuel only makes the recursion
    structural; [until] passes enough of it for the loop to end by the
    clock. *)
Fixpoint until_loop (fuel : nat) (sg : stage) (end_time : N)
         (method : M (option element)) : M element :=
  match fuel with
  | O => fun st => (OutOfFuel, st)
  | S f =>
      fun st =>
        let again st1 :=
          if (end_time <? now st1)%N then (Raise TimeoutException, st1)
          else (sleep sg poll ;; until_loop f sg end_time method) st1 in
        match method st with
        | (Ok (Some v), st1) => (Ok v, st1)
        | (Ok None, st1) => again st1
        | (Raise e, st1) =>
            if is_no_such_element e then again st1 else (Raise e, st1)
        | (OutOfFuel, st1) => (OutOfFuel, st1)
        end
  end.

(** [WebDriverWait(driver, timeout).until(method)] *)
Definition until (sg : stage) (timeout : N) (method : M (option element)) : M element :=
  fun st =>
    until_loop (N.to_nat (timeout / poll) + 2) sg (now st + timeout) method st.

End Program.

End Selenium.

(** ** The script: [send_whatsapp_message], [fetch_news], [job] *)

Module App.
Import Py Dom Selenium News.
Local Open Scope prog_scope.

(** The module-level constants read from [config.json], each of the
    type the script uses it at: an integer limit, strings, a list of
    contact names. *)
Record Config := {
  MAX_HEADLINES_PER_SOURCE : Z;
  CHROME_DRIVER_PATH : string;
  REMOTE_DEBUGGER_ADDRESS : string;
  CONTACTS : list string;
  WHATSAPP_URL : string
}.

(** An HTTP exchange of [requests.get]: the call raises, or a reply
    arrives with a status code and a body that decodes as JSON or not. *)
Inductive http_reply (A : Type) :=
| HttpRaise (e : exn)
| HttpReply (status : Z) (json : option A).
Arguments HttpRaise {A} e.
Arguments HttpReply {A} status json.

(** A key of a decoded JSON object: absent, present with the value
    [null], or present with a value. *)
Inductive field (A : Type) :=
| Absent
| Null
| Present (a : A).
Arguments Absent {A}.
Arguments Null {A}.
Arguments Present {A} a.

Definition field_value {A} (f : field A) : option A :=
  match f with Present a => Some a | _ => None end.

(** An article as [response.json()] delivers it: its ["source"] and
    its ["title"] may each be absent, [null], or an object, respectively
    a string.  The ["name"] of a source is absent or a string, as in
    [News.source_obj]: on a [null] name the loop does not raise. *)
Record fetched_article := {
  json_source : field source_obj;
  json_title : field string
}.

(** Lines 75-76 on one article: [.get("name", ...)] on a [null] source
    and [.strip()] on a [null] title raise [AttributeError]; the source
    is read first. *)
Definition read_article (a : fetched_article) : exn + article :=
  match json_source a with
  | Null => inl (AttributeError "get")
  | _ =>
      match json_title a with
      | Null => inl (AttributeError "strip")
      | _ => inr {| art_source := field_value (json_source a);
                    art_title := field_value (json_title a) |}
      end
  end.

(** The loop of [group_articles_by_source] over fetched articles: an
    article that cannot be read raises out of the loop, the others go
    through [group_step]. *)
Fixpoint group_loop (max_per_source : Z) (articles : list fetched_article)
         (grouped : dict) : exn + dict :=
  match articles with
  | [] => inr grouped
  | a :: rest =>
      match read_article a with
      | inl e => inl e
      | inr article => group_loop max_per_source rest (group_step max_per_source grouped article)
      end
  end.

(** An article with neither key [null], as it is fetched. *)
Definition as_fetched (a : article) : fetched_article :=
  {| json_source := match art_source a with Some s => Present s | None => Absent end;
     json_title := match art_title a with Some t => Present t | None => Absent end |}.

(** The services of the news pipeline: the NewsAPI reply (the decoded
    object with its optional ["articles"] key), the quote service reply
    (a list of objects with optional ["q"] and ["a"]), the exception
    [SentimentIntensityAnalyzer()] raises, if any ([LookupError] when
    the lexicon is not installed), and the compound score the analyzer
    gives a text. *)
Record Services := {
  news_reply : http_reply (option (list fetched_article));
  quote_reply : http_reply (list (option string * option string));
  analyzer_error : option exn;
  vader_compound : string -> Z
}.

Definition search_xpath : string :=
  "//div[@role='textbox' and @aria-label='Search input textbox']".

Definition message_xpath : string := "//footer//div[@contenteditable='true']".

(** [f'//span[@title="{contact_name}"]'] *)
Definition contact_xpath (contact_name : string) : string :=
  "//span[@title=" ++ dquote ++ contact_name ++ dquote ++ "]".

Section Script.
Variable cfg : Config.
Variable w : World.
Variable net : Services.

(** Lines 195-199: the keystrokes of one message. *)
Definition type_line (message_box : element) (line : string) : M unit :=
  command w SComposeAndSend (OSendKeys message_box (KText line)) ;;
  command w SComposeAndSend (OSendKeys message_box KShiftEnter).

(** The loop over the lines, then the final ENTER. *)
Definition compose_and_send (message_box : element) (message : string) : M unit :=
  for_each (split nl message) (type_line message_box) ;;
  command w SComposeAndSend (OSendKeys message_box KEnter).

(** Lines 164-203: the body of the [try] block. *)
Definition send_body (contact_name message : string) : M unit :=
  command w SAttach (OAttach (CHROME_DRIVER_PATH cfg) (REMOTE_DEBUGGER_ADDRESS cfg)) ;;
  command w SNavigate (OGet (WHATSAPP_URL cfg)) ;;
  _ <- until SAwaitReady 20000%N
         (presence_of_element_located w SAwaitReady (ByTagName "body")) ;;
  logging LLoaded ;;
  search_box <- until SLocateSearch 20000%N
         (presence_of_element_located w SLocateSearch (ByXPath search_xpath)) ;;
  command w SLocateSearch (OClick search_box) ;;
  command w STypeQuery (OSendKeys search_box (KText contact_name)) ;;
  sleep STypeQuery 2000%N ;;
  contact <- find_element w SSelectContact (ByXPath (contact_xpath contact_name)) ;;
  command w SSelectContact (OClick contact) ;;
  sleep SSelectContact 2000%N ;;
  message_box <- until SLocateInput 20000%N
         (element_to_be_clickable w SLocateInput (ByXPath message_xpath)) ;;
  compose_and_send message_box message ;;
  logging (LSent contact_name) ;;
  sleep SRelease 5000%N ;;
  command w SRelease OQuit.

Definition send_whatsapp_message (contact_name message : string) : M unit :=
  logging (LSending contact_name) ;;
  try_except (send_body contact_name message)
             (fun e => logging (LSendError contact_name e)).

Definition fetch_news : M (list fetched_article) :=
  logging LFetching ;;
  match news_reply net with
  | HttpRaise e => logging (LFetchException e) ;; ret []
  | HttpReply status json =>
      if (status =? 200)%Z then
        match json with
        | None => logging (LFetchException (ValueError "json")) ;; ret []
        | Some body =>
            let articles := match body with Some l => l | None => [] end in
            logging (LFetched (List.length articles)) ;; ret articles
        end
      else logging (LFetchStatus status) ;; ret []
  end.

Definition quote_text (data : option string * option string) : string :=
  let quote := match fst data with Some q => q | None => "" end in
  let author := match snd data with Some a => a | None => "" end in
  dquote ++ quote ++ dquote ++ " - " ++ author.

Definition fetch_inspirational_quote : M string :=
  match quote_reply net with
  | HttpRaise e => logging (LQuoteException e) ;; ret ""
  | HttpReply status json =>
      if (status =? 200)%Z then
        match json with
        | None => logging (LQuoteException (ValueError "json")) ;; ret ""
        | Some [] => logging (LQuoteException IndexError) ;; ret ""
        | Some (data :: _) => ret (quote_text data)
        end
      else logging (LQuoteStatus status) ;; ret ""
  end.

(** The call of [group_articles_by_source] in [job] (line 213): outside
    every [try], so an article that cannot be read ends the job. *)
Definition group_fetched (articles : list fetched_article) (max_per_source : Z) : M dict :=
  match group_loop max_per_source articles [] with
  | inl e => throw e
  | inr grouped => ret grouped
  end.

(** The call of [analyze_sentiment] in [job] (line 217): the analyzer is
    constructed first, outside every [try]. *)
Definition sentiment_of (text : string) : M string :=
  match analyzer_error net with
  | Some e => throw e
  | None => ret (analyze_sentiment (vader_compound net) text)
  end.

(** Lines 225-226: the loop over [CONTACTS]. *)
Definition dispatch (contacts : list string) (formatted_message : string) : M unit :=
  for_each contacts (fun contact => send_whatsapp_message contact formatted_message).

Definition job : M unit :=
  logging LJobStarted ;;
  articles <- fetch_news ;;
  match articles with
  | [] => logging LNoArticles
  | _ :: _ =>
      grouped_articles <- group_fetched articles (MAX_HEADLINES_PER_SOURCE cfg) ;;
      let flattened_text := flatten_headlines grouped_articles in
      sentiment <- sentiment_of flattened_text ;;
      quote <- fetch_inspirational_quote ;;
      let formatted_message :=
        create_formatted_message_from_grouping grouped_articles sentiment quote "" in
      logging (LFormatted formatted_message) ;;
      dispatch (CONTACTS cfg) formatted_message ;;
      logging LJobCompleted
  end.

Definition main : M unit := job.

End Script.

(** *** Reading a run *)

(** Contacts for which a sequence was started, in order. *)
Fixpoint attempted (l : list entry) : list string :=
  match l with
  | [] => []
  | LSending c :: r => c :: attempted r
  | _ :: r => attempted r
  end.

(** The per-contact outcomes a run recorded. *)
Inductive outcome := Delivered (contact : string) | Failed (contact : string) (cause : exn).

Fixpoint outcomes (l : list entry) : list outcome :=
  match l with
  | [] => []
  | LSent c :: r => Delivered c :: outcomes r
  | LSendError c e :: r => Failed c e :: outcomes r
  | _ :: r => outcomes r
  end.

(** The [send_keys] calls on the message box are the events of the
    compose step. *)
Fixpoint keystrokes (evs : list event) : list keys :=
  match evs with
  | [] => []
  | ev :: r =>
      match ev_stage ev, ev_op ev with
      | SComposeAndSend, OSendKeys _ k => k :: keystrokes r
      | _, _ => keystrokes r
      end
  end.

Definition is_text (k : keys) : bool := match k with KText _ => true | _ => false end.
Definition is_break (k : keys) : bool := match k with KShiftEnter => true | _ => false end.
Definition is_submit (k : keys) : bool := match k with KEnter => true | _ => false end.

Definition count (p : keys -> bool) (ks : list keys) : nat := List.length (filter p ks).

Definition is_op (p : op -> bool) (ev : event) : bool := p (ev_op ev).
Definition is_attach (o : op) : bool := match o with OAttach _ _ => true | _ => false end.
Definition is_quit (o : op) : bool := match o with OQuit => true | _ => false end.
Definition is_find (o : op) : bool := match o with OFind _ => true | _ => false end.

(** Steps entered by a run of events: consecutive events of one step
    count once. *)
Fixpoint entered (evs : list event) : list stage :=
  match evs with
  | [] => []
  | ev :: r =>
      match entered r with
      | s :: t => if stage_eqb (ev_stage ev) s then s :: t else ev_stage ev :: s :: t
      | [] => [ev_stage ev]
      end
  end.

(** The steps resolved through [WebDriverWait.until]. *)
Definition polled_stage (s : stage) : bool :=
  match s with
  | SAwaitReady | SLocateSearch | SLocateInput => true
  | _ => false
  end.

(** A lookup inside a polled wait that found no match: the wait
    swallows its [NoSuchElementException]. *)
Definition ignored (ev : event) : bool :=
  is_find (ev_op ev) && polled_stage (ev_stage ev)
  && match ev_raised ev with Some e => is_no_such_element e | None => false end.

(** A command whose exception leaves the [try] block. *)
Definition aborting (ev : event) : bool :=
  match ev_raised ev with
  | Some _ => negb (ignored ev)
  | None => false
  end.

(** Nothing is executed after a command that raised out of the block. *)
Fixpoint aborts_last (evs : list event) : Prop :=
  match evs with
  | [] => True
  | ev :: post => (aborting ev = true -> post = []) /\ aborts_last post
  end.

(** Every swallowed miss that is not the last event is followed by a
    sleep of one poll interval and a new lookup of the same target. *)
Fixpoint retried (evs : list event) : Prop :=
  match evs with
  | [] => True
  | ev :: post =>
      (ignored ev = true ->
       match post with
       | [] => True
       | sl :: ev2 :: _ =>
           ev_op sl = OSleep poll /\ ev_stage sl = ev_stage ev
           /\ ev_op ev2 = ev_op ev /\ ev_stage ev2 = ev_stage ev
       | _ => False
       end)
      /\ retried post
  end.

Fixpoint last_ignored (evs : list event) : bool :=
  match evs with
  | [] => false
  | [ev] => ignored ev
  | _ :: r => last_ignored r
  end.

(** [follows i evs j]: starting in step [i], each event stays in the
    current step or opens the next one, and the last one is in [j]. *)
Inductive follows : nat -> list event -> nat -> Prop :=
| follows_nil i : follows i [] i
| follows_stay i ev evs j :
    stage_index (ev_stage ev) = i -> follows i evs j -> follows i (ev :: evs) j
| follows_next i ev evs j :
    stage_index (ev_stage ev) = S i -> follows (S i) evs j -> follows i (ev :: evs) j.

(** How a sequence that raised [e] ended: its last command raised [e]
    out of the block, or a polled wait gave up with a timeout after the
    clock [t] had passed 20 s since an earlier lookup of that step. *)
Definition failure (e : exn) (evs : list event) (t : N) : Prop :=
  exists pre ev,
    evs = (pre ++ [ev])%list
    /\ ((ev_raised ev = Some e /\ aborting ev = true)
        \/ (e = TimeoutException /\ aborting ev = false
            /\ polled_stage (ev_stage ev) = true
            /\ exists ev0, In ev0 evs /\ ev_stage ev0 = ev_stage ev
                            /\ (ev_at ev0 + 20000 < t)%N)).

(** Log entries the [try] block itself writes. *)
Definition benign (x : entry) : Prop :=
  match x with LLoaded | LSent _ => True | _ => False end.

(** The keystrokes the loop of lines 195-199 sends for a message. *)
Definition key_plan (message : string) : list keys :=
  (flat_map (fun line => [KText line; KShiftEnter]) (split nl message) ++ [KEnter])%list.

End App.

(** ** Predicates on runs used by the statements below *)

Module Reading.
Import Py Dom Selenium News App.
Local Open Scope prog_scope.

Definition clean (evs : list event) : Prop := Forall (fun ev => aborting ev = false) evs.



(** The verdict on one action run from step [i] towards step [j]. *)
Definition verdict {A} (r : result A) (i j : nat) (evs : list event) (t : N) : Prop :=
  exists j', follows i evs j' /\
    match r with
    | Ok _ => j' = j /\ clean evs /\ last_ignored evs = false
    | Raise e => j' <= j /\ failure e evs t
    | OutOfFuel => False
    end.

(** [sound i j a]: from step [i], the action [a] always ends by itself,
    only adds to the trace and the log, never turns the clock back,
    keeps the trace well-formed and reaches step [j] when it returns
    normally. *)
Definition sound {A} (i j : nat) (a : M A) : Prop :=
  forall st, exists r st' evs l,
    a st = (r, st')
    /\ trace st' = (trace st ++ evs)%list
    /\ log st' = (log st ++ l)%list
    /\ Forall benign l
    /\ (now st <= now st')%N
    /\ aborts_last evs
    /\ retried evs
    /\ verdict r i j evs (now st').

(** One call of the condition of a polled wait: a lookup, then the
    test the condition applies to the element found. *)
Definition probe (w : World) (sg : stage) (l : locator) (usable : element -> bool)
  : M (option element) :=
  e <- find_element w sg l ;; ret (if usable e then Some e else None).

Definition probe_event (w : World) (sg : stage) (l : locator) (st : state) : event :=
  {| ev_stage := sg; ev_at := now st; ev_op := OFind l;
     ev_raised := raised (lookup w l st) |}.

Definition after_probe (w : World) (sg : stage) (l : locator) (st : state) : state :=
  record sg (OFind l) (raised (lookup w l st))
         (latency w (trace st) (now st) (OFind l)) st.

(** What a polled wait leaves behind. *)
Definition waited (sg : stage) (l : locator) (end_time : N)
           (st : state) (r : result element) (st' : state) : Prop :=
  exists ev0 rest,
    trace st' = (trace st ++ ev0 :: rest)%list
    /\ log st' = log st
    /\ (now st <= now st')%N
    /\ ev_at ev0 = now st /\ ev_op ev0 = OFind l
    /\ Forall (fun ev => ev_stage ev = sg) (ev0 :: rest)
    /\ aborts_last (ev0 :: rest) /\ retried (ev0 :: rest)
    /\ match r with
       | Ok _ => clean (ev0 :: rest) /\ last_ignored (ev0 :: rest) = false
       | Raise e =>
           exists pre ev, ev0 :: rest = (pre ++ [ev])%list
             /\ ((ev_raised ev = Some e /\ aborting ev = true)
                 \/ (e = TimeoutException /\ aborting ev = false
                     /\ (end_time < now st')%N))
       | OutOfFuel => False
       end.

Definition is_ok {A} (r : result A) : Prop :=
  match r with Ok _ => True | _ => False end.

(** [typed ks a]: the keystrokes [a] sends are an initial part of
    [ks], and all of [ks] when [a] returns normally. *)
Definition typed {A} (ks : list keys) (a : M A) : Prop :=
  forall st r st', a st = (r, st') ->
    exists evs, trace st' = (trace st ++ evs)%list
                /\ (exists n, keystrokes evs = firstn n ks)
                /\ (is_ok r -> keystrokes evs = ks).

(** The state in which the [try] block of a contact starts. *)
Definition started (contact_name : string) (st : state) : state :=
  snd (logging (LSending contact_name) st).

(** The log of one contact's sequence. *)
Definition segment (contact_name : string) (seg : list entry) : Prop :=
  exists lb tail,
    seg = (LSending contact_name :: lb ++ tail)%list
    /\ Forall benign lb
    /\ (tail = [] \/ exists e, tail = [LSendError contact_name e]).

(** A [span] whose title is exactly the given name. *)
Definition titled (name : string) (e : element) : bool :=
  String.eqb "span" (el_tag e)
  && match title_of e with Some t => String.eqb t name | None => false end.

(** The keystrokes of one line of the message. *)
Definition line_keys (line : string) : list keys := [KText line; KShiftEnter].

(** The attach command of a configuration (lines 164-167). *)
Definition attach_op (cfg : Config) : op :=
  OAttach (CHROME_DRIVER_PATH cfg) (REMOTE_DEBUGGER_ADDRESS cfg).

(** Log entries written by [fetch_news]. *)
Definition fetch_entry (x : entry) : Prop :=
  match x with
  | LFetching | LFetched _ | LFetchStatus _ | LFetchException _ => True
  | _ => False
  end.

(** Elements clicked, and lookups made, during one step. *)
Definition clicked_in (sg : stage) (evs : list event) : list element :=
  flat_map (fun ev => match ev_op ev with
                      | OClick target => if stage_eqb (ev_stage ev) sg then [target] else []
                      | _ => []
                      end) evs.

Definition lookups_in (sg : stage) (evs : list event) : list event :=
  filter (fun ev => stage_eqb (ev_stage ev) sg && is_find (ev_op ev)) evs.

(** New events and log entries of a run from the initial state. *)
Definition run_trace {A} (x : result A * state) : list event := trace (snd x).
Definition run_log {A} (x : result A * state) : list entry := log (snd x).

End Reading.

(** ** Concrete scenarios used to exercise the statements *)

Module Scenario.
Import Py Dom Selenium News App.

Definition cnn : option source_obj := Some {| src_name := Some "CNN" |}.

Definition sample_articles : list article :=
  [ {| art_source := cnn; art_title := Some "  Rates rise " |};
    {| art_source := None; art_title := Some "Local fair opens" |};
    {| art_source := cnn; art_title := Some "   " |};
    {| art_source := cnn; art_title := Some "Storm nears coast" |};
    {| art_source := cnn; art_title := Some "Markets close flat" |} ].

Definition el (tag : string) (attrs : list (string * string)) : element :=
  {| el_tag := tag; el_attrs := attrs; el_displayed := true; el_enabled := true |}.

Definition search_box : element :=
  el "div" [("role", "textbox"); ("aria-label", "Search input textbox")].

Definition chat_entry (title : string) : element := el "span" [("title", title)].

Definition message_box : element := el "div" [("contenteditable", "true")].

(** The chat application with its search box, one list entry per given
    title, and the compose footer. *)
Definition chat_page (titles : list string) : node :=
  Node (el "html" [])
    [Node (el "body" [])
       ([Node search_box []]
          ++ map (fun t => Node (chat_entry t) []) titles
          ++ [Node (el "footer" []) [Node message_box []]])%list].

(** A world in which no command fails or takes time and the page never
    changes; the scenarios run no selector that a browser accepts
    outside the fragment, so its engine rejects what the fragment does. *)
Definition calm (p : node) : World :=
  {| fault := fun _ _ _ => None; page := fun _ _ => p; latency := fun _ _ _ => 0%N;
     beyond := fun _ _ => None |}.

Definition cfg0 : Config :=
  {| MAX_HEADLINES_PER_SOURCE := 3;
     CHROME_DRIVER_PATH := "chromedriver";
     REMOTE_DEBUGGER_ADDRESS := "127.0.0.1:9222";
     CONTACTS := ["Alice"; "Bob"];
     WHATSAPP_URL := "https://web.whatsapp.com" |}.

Definition abc : string := "A" ++ String nl ("B" ++ String nl "C").

Definition hello_world : string := "Hello" ++ String nl "World".

(** The debugging endpoint cannot be reached: every attach fails. *)
Definition unreachable : World :=
  {| fault := fun _ _ o =>
                match o with
                | OAttach _ _ => Some (WebDriverException "cannot connect to chrome")
                | _ => None
                end;
     page := fun _ _ => chat_page [];
     latency := fun _ _ _ => 0%N;
     beyond := fun _ _ => None |}.

(** A page that renders step by step: the search box is there from
    1.2 s on, the entry of Alice from 4 s on. *)
Definition rendering (t : N) : node :=
  if (t <? 1200)%N then Node (el "html" []) [Node (el "body" []) []]
  else if (t <? 4000)%N then chat_page []
  else chat_page ["Alice"].

Definition slow : World :=
  {| fault := fun _ _ _ => None; page := fun _ t => rendering t;
     latency := fun _ _ _ => 0%N; beyond := fun _ _ => None |}.

(** A display name with a quoted nickname. *)
Definition nickname : string :=
  "Bob " ++ dquote ++ "Bobby" ++ dquote ++ " Smith".

(** A contact name that closes the quoted title and adds a clause. *)
Definition crafted_name : string :=
  "x" ++ dquote ++ " or " ++ dquote ++ "1" ++ dquote ++ "=" ++ dquote ++ "1".

(** NewsAPI answers with an error status. *)
Definition news_down : Services :=
  {| news_reply := HttpReply 500 None;
     quote_reply := HttpReply 200 (Some [(Some "Stay curious", Some "Anon")]);
     analyzer_error := None;
     vader_compound := fun _ => 0%Z |}.

End Scenario.

(** ** The soccer section (lines 111-139) *)

Module Sports.
Import Py Selenium App.

(** An event of the TheSportsDB reply, as far as the script reads it. *)
Record soccer_event := {
  strHomeTeam : option string;
  strAwayTeam : option string;
  dateEvent : option string;
  strTime : option string
}.

(** What [data.get("events", [])] finds in the decoded reply: no such
    key, the JSON value [null], or a list. *)
Inductive events_field :=
| EventsMissing
| EventsNull
| EventsList (l : list soccer_event).

(** The log lines of [fetch_soccer_matches]; [len(None)] raises the
    [TypeError] that the last one records. *)
Inductive soccer_entry :=
| SFetching (league_id : Z)     (* INFO  "Fetching soccer matches for league id: ..." *)
| SFetched (n : nat)            (* INFO  "Fetched {n} upcoming soccer matches." *)
| SFetchStatus (status : Z)     (* ERROR "Failed to fetch soccer matches. Status code: ..." *)
| SFetchException (e : exn)     (* ERROR "Exception during soccer matches fetching: ..." *)
| SFetchTypeError.              (* ERROR the same, for the TypeError of len(None) *)

(** [fetch_soccer_matches(league_id)]: the events returned and the lines
    logged, for a given answer of the service. *)
Definition fetch_soccer_matches (reply : http_reply events_field) (league_id : Z)
  : list soccer_event * list soccer_entry :=
  match reply with
  | HttpRaise e => ([], [SFetching league_id; SFetchException e])
  | HttpReply status json =>
      if (status =? 200)%Z then
        match json with
        | None => ([], [SFetching league_id; SFetchException (ValueError "json")])
        | Some EventsMissing => ([], [SFetching league_id; SFetched 0])
        | Some EventsNull => ([], [SFetching league_id; SFetchTypeError])
        | Some (EventsList events) =>
            (events, [SFetching league_id; SFetched (List.length events)])
        end
      else ([], [SFetching league_id; SFetchStatus status])
  end.

Definition or_default (o : option string) (d : string) : string :=
  match o with Some s => s | None => d end.

(** [f"* {home} vs {away} - {date} {time_event}"] *)
Definition soccer_line (event : soccer_event) : string :=
  "* " ++ or_default (strHomeTeam event) "N/A" ++ " vs "
       ++ or_default (strAwayTeam event) "N/A" ++ " - "
       ++ or_default (dateEvent event) "" ++ " " ++ or_default (strTime event) "".

Definition soccer_header : string := "Upcoming Soccer Matches:".

Definition no_matches_line : string := "* No upcoming soccer matches.".

Definition create_formatted_soccer_matches_message (events : list soccer_event) : string :=
  match events with
  | [] => soccer_header ++ String nl no_matches_line
  | _ :: _ => join (String nl EmptyString) (soccer_header :: map soccer_line events)
  end.

End Sports.

(** ** Further readings of strings, groupings and runs *)

Module Measures.
Import Py Dom Selenium News App Reading Scenario Sports.
Local Open Scope prog_scope.

(** A string without a newline is one line. *)
Definition one_line (s : string) : Prop := count_char nl s = 0.

(** [s.isspace()] or [s == ""]: nothing but whitespace. *)
Fixpoint blank (s : string) : bool :=
  match s with
  | EmptyString => true
  | String c r => is_space c && blank r
  end.

(** First and last character of a string. *)
Definition first_char (s : string) : option ascii :=
  match s with EmptyString => None | String c _ => Some c end.

Fixpoint last_char (s : string) : option ascii :=
  match s with
  | EmptyString => None
  | String c EmptyString => Some c
  | String _ r => last_char r
  end.

(** A non-empty string with no whitespace at either end. *)
Definition trimmed (s : string) : Prop :=
  match first_char s with Some c => is_space c = false | None => False end
  /\ match last_char s with Some c => is_space c = false | None => False end.

(** [article.get("title", "")], and whether it holds more than whitespace. *)
Definition raw_title (a : article) : string :=
  match art_title a with Some t => t | None => "" end.

Definition has_title (a : article) : bool := negb (blank (raw_title a)).

(** The distinct elements of a list in order of first appearance. *)
Fixpoint first_seen (seen : list string) (l : list string) : list string :=
  match l with
  | [] => []
  | x :: r =>
      if existsb (String.eqb x) seen then first_seen seen r
      else x :: first_seen (x :: seen) r
  end.

(** The keys of a dictionary in insertion order. *)
Definition dict_keys (d : dict) : list string := map fst d.

(** The sources that contribute a headline, in input order. *)
Definition contributing_sources (articles : list article) : list string :=
  map source_of (filter (fun a => truthy (headline_of a)) articles).

(** What a keystroke leaves in the input field: its text, a newline for
    SHIFT+ENTER, nothing for the submitting ENTER. *)
Definition key_text (k : keys) : string :=
  match k with
  | KText s => s
  | KShiftEnter => String nl EmptyString
  | KEnter => EmptyString
  end.

Fixpoint typed_text (ks : list keys) : string :=
  match ks with
  | [] => EmptyString
  | k :: r => key_text k ++ typed_text r
  end.

(** [only Q L a]: whatever [a] does and however it ends, it only adds to
    the trace and the log; every command it issues, with the step it is
    issued in, satisfies [Q], and every line it logs satisfies [L]. *)
Definition only {A} (Q : stage -> op -> Prop) (L : entry -> Prop) (a : M A) : Prop :=
  forall st r st', a st = (r, st') ->
    exists evs l, trace st' = (trace st ++ evs)%list
                  /\ log st' = (log st ++ l)%list
                  /\ Forall (fun ev => Q (ev_stage ev) (ev_op ev)) evs
                  /\ Forall L l.

(** The commands one contact's sequence may issue under a configuration,
    as far as they are fixed by the configuration and the contact. *)
Definition permitted (cfg : Config) (contact_name : string) (sg : stage) (o : op) : Prop :=
  match o with
  | OAttach path address =>
      sg = SAttach /\ path = CHROME_DRIVER_PATH cfg /\ address = REMOTE_DEBUGGER_ADDRESS cfg
  | OGet url => sg = SNavigate /\ url = WHATSAPP_URL cfg
  | OFind l =>
      (sg = SAwaitReady /\ l = ByTagName "body")
      \/ (sg = SLocateSearch /\ l = ByXPath search_xpath)
      \/ (sg = SSelectContact /\ l = ByXPath (contact_xpath contact_name))
      \/ (sg = SLocateInput /\ l = ByXPath message_xpath)
  | OClick _ => sg = SLocateSearch \/ sg = SSelectContact
  | OSendKeys _ (KText s) => (sg = STypeQuery /\ s = contact_name) \/ sg = SComposeAndSend
  | OSendKeys _ _ => sg = SComposeAndSend
  | OSleep ms => ms = 500%N \/ ms = 2000%N \/ ms = 5000%N
  | OQuit => sg = SRelease
  end.

(** Neither opening nor closing a driver session. *)
Definition session_neutral (sg : stage) (o : op) : Prop :=
  is_attach o = false /\ is_quit o = false.

(** Attach and quit commands issued, whether they raised or not. *)
Definition quits (evs : list event) : nat := List.length (filter (is_op is_quit) evs).
Definition attaches (evs : list event) : nat := List.length (filter (is_op is_attach) evs).

(** A command that returned normally. *)
Definition returned (ev : event) : bool :=
  match ev_raised ev with None => true | Some _ => false end.

(** Driver sessions opened: the attach commands that returned; an
    attach that raises leaves no driver object behind.  Sessions
    released: the quit commands that returned. *)
Definition opened (evs : list event) : nat :=
  List.length (filter (fun ev => is_op is_attach ev && returned ev) evs).
Definition released (evs : list event) : nat :=
  List.length (filter (fun ev => is_op is_quit ev && returned ev) evs).

Definition is_delivered (o : outcome) : bool :=
  match o with Delivered _ => true | Failed _ _ => false end.

Definition delivered (l : list entry) : nat := List.length (filter is_delivered (outcomes l)).

(** Commands take no time of their own: the clock moves with the sleeps only. *)
Definition instant (w : World) : Prop := forall h t o, latency w h t o = 0%N.

(** No command fails for a reason other than what a lookup finds. *)
Definition faultless (w : World) : Prop := forall h t o, fault w h t o = None.

(** [timed w lo hi a]: [a] never turns the clock back, takes at least
    [lo] ms when it returns normally, and at most [hi] ms in a world whose
    commands are instant. *)
Definition timed {A} (w : World) (lo hi : N) (a : M A) : Prop :=
  forall st r st', a st = (r, st') ->
    (now st <= now st')%N
    /\ (is_ok r -> now st + lo <= now st')%N
    /\ (instant w -> now st' <= now st + hi)%N.

(** [closing a]: [a] opens no session and quits as often as it logs a
    "Message sent" line, which is at most once. *)
Definition closing {A} (a : M A) : Prop :=
  forall st r st', a st = (r, st') ->
    exists evs l, trace st' = (trace st ++ evs)%list
                  /\ log st' = (log st ++ l)%list
                  /\ attaches evs = 0
                  /\ quits evs = delivered l
                  /\ delivered l <= 1
                  /\ attempted l = [].

(** The commands of a run with their steps, in order. *)
Definition steps (evs : list event) : list (stage * op) :=
  map (fun ev => (ev_stage ev, ev_op ev)) evs.

(** [yields a x s l]: from every state [a] returns [x] normally, having
    issued exactly the commands [s], none of which raised, and logged
    exactly the lines [l]. *)
Definition yields {A} (a : M A) (x : A) (s : list (stage * op)) (l : list entry) : Prop :=
  forall st, exists st' evs,
    a st = (Ok x, st')
    /\ trace st' = (trace st ++ evs)%list
    /\ steps evs = s
    /\ Forall (fun ev => ev_raised ev = None) evs
    /\ log st' = (log st ++ l)%list.

(** The page does not change during the run. *)
Definition static (w : World) (root : node) : Prop := forall h t, page w h t = root.

(** The first element of [root] a locator selects. *)
Definition first_match (l : locator) (root : node) : option element :=
  match find_elements l root with
  | Some (e :: _) => Some e
  | _ => None
  end.

(** The commands of a sequence in which every lookup succeeds at once:
    search box [sb], contact entry [ce], message box [mb]. *)
Definition happy_path (cfg : Config) (contact_name message : string)
           (sb ce mb : element) : list (stage * op) :=
  ([ (SAttach, attach_op cfg);
     (SNavigate, OGet (WHATSAPP_URL cfg));
     (SAwaitReady, OFind (ByTagName "body"));
     (SLocateSearch, OFind (ByXPath search_xpath));
     (SLocateSearch, OClick sb);
     (STypeQuery, OSendKeys sb (KText contact_name));
     (STypeQuery, OSleep 2000);
     (SSelectContact, OFind (ByXPath (contact_xpath contact_name)));
     (SSelectContact, OClick ce);
     (SSelectContact, OSleep 2000);
     (SLocateInput, OFind (ByXPath message_xpath)) ]
   ++ map (fun k => (SComposeAndSend, OSendKeys mb k)) (key_plan message)
   ++ [ (SRelease, OSleep 5000); (SRelease, OQuit) ])%list.

(** A text keystroke carries one of the given lines. *)
Definition line_of (lines : list string) (k : keys) : Prop :=
  match k with KText s => In s lines | _ => True end.

(** The message [job] formats from the fetched articles and the quote:
    no soccer section is passed. *)
Definition summary (cfg : Config) (net : Services) (articles : list article)
           (quote : string) : string :=
  let grouped_articles :=
    group_articles_by_source articles (MAX_HEADLINES_PER_SOURCE cfg) in
  create_formatted_message_from_grouping grouped_articles
    (analyze_sentiment (vader_compound net) (flatten_headlines grouped_articles))
    quote "".

(** A fetched article whose source or title is [null], and one that is
    read as a given article. *)
Definition unreadable (f : fetched_article) : Prop :=
  json_source f = Null \/ json_title f = Null.

Definition reads (f : fetched_article) (a : article) : Prop := read_article f = inr a.

(** NewsAPI answers with one article whose title is [null]. *)
Definition news_null : Services :=
  {| news_reply := HttpReply 200 (Some (Some [ {| json_source := Absent; json_title := Null |} ]));
     quote_reply := HttpReply 200 (Some [(Some "Stay curious", Some "Anon")]);
     analyzer_error := None;
     vader_compound := fun _ => 0%Z |}.

(** NewsAPI answers with the sample articles. *)
Definition news_up : Services :=
  {| news_reply := HttpReply 200 (Some (Some (map as_fetched sample_articles)));
     quote_reply := HttpReply 200 (Some [(Some "Stay curious", Some "Anon")]);
     analyzer_error := None;
     vader_compound := fun _ => 0%Z |}.

(** An event none of whose fields holds a newline. *)
Definition one_line_event (event : soccer_event) : Prop :=
  one_line (or_default (strHomeTeam event) "N/A")
  /\ one_line (or_default (strAwayTeam event) "N/A")
  /\ one_line (or_default (dateEvent event) "")
  /\ one_line (or_default (strTime event) "").

Definition derby : soccer_event :=
  {| strHomeTeam := Some "Arsenal"; strAwayTeam := None;
     dateEvent := Some "2025-03-01"; strTime := None |}.

End Measures.

(** * Properties *)

(** ** Strings *)

Module PyFacts.
Import Py.

Lemma split_nonempty sep s : split sep s <> [].
Proof.
  destruct s as [|c r]; simpl; [discriminate|].
  destruct (Ascii.eqb c sep); [discriminate|].
  destruct (split sep r); discriminate.
Qed.

Lemma split_length sep s : List.length (split sep s) = S (count_char sep s).
Proof.
  induction s as [|c r IH]; simpl; [reflexivity|].
  destruct (Ascii.eqb c sep); simpl.
  - now rewrite IH.
  - pose proof (split_nonempty sep r) as Hne.
    destruct (split sep r) as [|h t]; [contradiction|].
    simpl in *. exact IH.
Qed.

Lemma rstrip_unfold c r :
  rstrip (String c r) =
  match rstrip r with
  | EmptyString => if is_space c then EmptyString else String c EmptyString
  | r' => String c r'
  end.
Proof. reflexivity. Qed.

Lemma rstrip_keep c r : is_space c = false -> rstrip (String c r) = String c (rstrip r).
Proof.
  intros Hc. simpl. destruct (rstrip r); [now rewrite Hc | reflexivity].
Qed.

Lemma rstrip_idem s : rstrip (rstrip s) = rstrip s.
Proof.
  induction s as [|c r IH]; simpl; [reflexivity|].
  destruct (rstrip r) as [|a r'] eqn:E.
  - destruct (is_space c) eqn:Hc; simpl; [reflexivity | now rewrite Hc].
  - rewrite rstrip_unfold, IH. reflexivity.
Qed.

(** [lstrip] leaves a string that is empty or starts with a
    non-space character. *)
Lemma lstrip_head s :
  lstrip s = EmptyString \/ exists c r, lstrip s = String c r /\ is_space c = false.
Proof.
  induction s as [|c r IH]; simpl; [now left|].
  destruct (is_space c) eqn:Hc; [exact IH|].
  right. now exists c, r.
Qed.

Lemma strip_idem s : strip (strip s) = strip s.
Proof.
  unfold strip.
  destruct (lstrip_head s) as [E | (c & r & E & Hc)]; rewrite E.
  - reflexivity.
  - rewrite (rstrip_keep c r Hc). simpl lstrip. rewrite Hc.
    rewrite <- (rstrip_keep c r Hc). apply rstrip_idem.
Qed.

Lemma truthy_spec s : truthy s = true <-> s <> EmptyString.
Proof. destruct s; simpl; split; intros; congruence. Qed.

End PyFacts.

(** ** Grouping headlines by source *)

Module NewsFacts.
Import Py News PyFacts Scenario.

Lemma dict_get_set_same k v d : dict_get k (dict_set k v d) = Some v.
Proof.
  induction d as [|[k' v'] r IH]; simpl.
  - now rewrite String.eqb_refl.
  - destruct (String.eqb k k') eqn:E; simpl; rewrite E; [reflexivity | exact IH].
Qed.

Lemma dict_get_set_other k k' v d :
  String.eqb k' k = false -> dict_get k' (dict_set k v d) = dict_get k' d.
Proof.
  intros Hne. induction d as [|[k0 v0] r IH]; simpl.
  - now rewrite Hne.
  - destruct (String.eqb k k0) eqn:E; simpl.
    + apply String.eqb_eq in E. subst k0. now rewrite Hne.
    + destruct (String.eqb k' k0); [reflexivity | exact IH].
Qed.

Lemma no_contribution source articles :
  existsb (contributes source) articles = false -> headlines_for source articles = [].
Proof.
  unfold headlines_for. induction articles as [|a r IH]; simpl; [reflexivity|].
  destruct (contributes source a); simpl; [discriminate | exact IH].
Qed.

Lemma headlines_for_app source l1 l2 :
  headlines_for source (l1 ++ l2)
  = (headlines_for source l1 ++ headlines_for source l2)%list.
Proof. unfold headlines_for. now rewrite filter_app, map_app. Qed.

Lemma firstn_snoc_room {A} n (l : list A) x :
  List.length (firstn n l) < n -> firstn n (l ++ [x]) = (firstn n l ++ [x])%list.
Proof.
  intros H. rewrite length_firstn in H.
  assert (Hl : List.length l < n) by lia.
  rewrite (firstn_all2 l) by lia.
  apply firstn_all2. rewrite length_app. simpl. lia.
Qed.

Lemma firstn_snoc_full {A} n (l : list A) x :
  ~ List.length (firstn n l) < n -> firstn n (l ++ [x]) = firstn n l.
Proof.
  intros H. rewrite length_firstn in H.
  assert (Hl : n <= List.length l) by lia.
  rewrite firstn_app. replace (n - List.length l) with 0 by lia.
  simpl. apply app_nil_r.
Qed.

Lemma group_step_grouped max articles d a :
  grouped_as (Z.to_nat max) articles d ->
  grouped_as (Z.to_nat max) (articles ++ [a]) (group_step max d a).
Proof.
  intros Inv source. unfold group_step.
  rewrite existsb_app, headlines_for_app. simpl existsb. rewrite orb_false_r.
  unfold headlines_for at 2. simpl filter.
  assert (Hc : contributes source a
               = String.eqb (source_of a) source && truthy (headline_of a))
    by reflexivity.
  rewrite !Hc. clear Hc.
  destruct (truthy (headline_of a)) eqn:Ht; simpl negb; cbv iota.
  2:{ rewrite andb_false_r, orb_false_r. simpl. rewrite app_nil_r. apply Inv. }
  rewrite andb_true_r.
  set (src := source_of a).
  set (d1 := if dict_mem src d then d else dict_set src [] d).
  assert (Hsrc : dict_get src d1 = Some (firstn (Z.to_nat max) (headlines_for src articles))).
  { unfold d1, dict_mem. pose proof (Inv src) as I.
    destruct (existsb (contributes src) articles) eqn:Ex; rewrite I.
    - exact I.
    - rewrite dict_get_set_same, (no_contribution _ _ Ex). now rewrite firstn_nil. }
  assert (Hoth : forall s, String.eqb s src = false -> dict_get s d1 = dict_get s d).
  { intros s Hs. unfold d1. destruct (dict_mem src d); [reflexivity|].
    now apply dict_get_set_other. }
  rewrite Hsrc.
  destruct (String.eqb src source) eqn:Es.
  - apply String.eqb_eq in Es. subst source.
    rewrite orb_true_r. simpl map.
    destruct (Z.of_nat (List.length (firstn (Z.to_nat max) (headlines_for src articles))) <? max)%Z
      eqn:Hlt.
    + rewrite dict_get_set_same. f_equal. symmetry. apply firstn_snoc_room.
      apply Z.ltb_lt in Hlt. lia.
    + rewrite Hsrc. f_equal.
      destruct (existsb (contributes src) articles) eqn:Ex.
      * symmetry. apply firstn_snoc_full. apply Z.ltb_ge in Hlt. lia.
      * symmetry. apply firstn_snoc_full. apply Z.ltb_ge in Hlt. lia.
  - rewrite orb_false_r. simpl map. rewrite app_nil_r.
    assert (Es' : String.eqb source src = false) by (now rewrite String.eqb_sym).
    destruct (Z.of_nat (List.length (firstn (Z.to_nat max) (headlines_for src articles))) <? max)%Z.
    + rewrite dict_get_set_other by exact Es'. rewrite Hoth by exact Es'. apply Inv.
    + rewrite Hoth by exact Es'. apply Inv.
Qed.

Lemma fold_group_grouped max rest : forall done d,
  grouped_as (Z.to_nat max) done d ->
  grouped_as (Z.to_nat max) (done ++ rest) (fold_left (group_step max) rest d).
Proof.
  induction rest as [|a r IH]; intros done d Inv; simpl.
  - now rewrite app_nil_r.
  - replace (done ++ a :: r)%list with ((done ++ [a]) ++ r)%list
      by (now rewrite <- app_assoc).
    apply IH. now apply group_step_grouped.
Qed.

(** The grouping is determined source by source: a source is listed
    exactly when some article contributes a headline to it, and then it
    holds the first [max_per_source] of its headlines in input order. *)
Lemma group_articles_by_source_get articles max source :
  dict_get source (group_articles_by_source articles max) =
  if existsb (contributes source) articles
  then Some (firstn (Z.to_nat max) (headlines_for source articles))
  else None.
Proof.
  unfold group_articles_by_source.
  apply (fold_group_grouped max articles [] []).
  intros s. reflexivity.
Qed.

Lemma headlines_for_stripped source articles :
  Forall (fun h => h <> EmptyString /\ strip h = h) (headlines_for source articles).
Proof.
  unfold headlines_for. apply Forall_forall. intros h Hin.
  apply in_map_iff in Hin. destruct Hin as (a & <- & Ha).
  apply filter_In in Ha. destruct Ha as (_ & Hc).
  unfold contributes in Hc. apply andb_true_iff in Hc. destruct Hc as (_ & Ht).
  split; [now apply truthy_spec|]. unfold headline_of. apply strip_idem.
Qed.

(** C10, as amended: for every article list, every integer limit and
    every source listed in the grouping, the source holds at most
    [max(0, max_per_source)] headlines, each of them non-empty after
    stripping whitespace, and they are the first headlines of that
    source in input order (articles whose stripped title is empty or
    missing are skipped). *)
Theorem group_articles_by_source_bounded articles max source hs :
  dict_get source (group_articles_by_source articles max) = Some hs ->
  (Z.of_nat (List.length hs) <= Z.max 0 max)%Z
  /\ Forall (fun h => strip h <> EmptyString) hs
  /\ hs = firstn (Z.to_nat max) (headlines_for source articles).
Proof.
  rewrite group_articles_by_source_get.
  destruct (existsb (contributes source) articles); [|discriminate].
  intros [= <-]. split; [|split].
  - rewrite length_firstn. lia.
  - pose proof (headlines_for_stripped source articles) as Hs.
    rewrite Forall_forall in *. intros h Hin.
    assert (Hin' : In h (headlines_for source articles)).
    { rewrite <- (firstn_skipn (Z.to_nat max)). apply in_or_app. now left. }
    destruct (Hs h Hin') as (Hne & Hid). now rewrite Hid.
  - reflexivity.
Qed.

Lemma group_articles_by_source_bounded_witness :
  dict_get "CNN" (group_articles_by_source sample_articles 2)
    = Some ["Rates rise"; "Storm nears coast"]
  /\ (Z.of_nat (List.length ["Rates rise"; "Storm nears coast"]) <= Z.max 0 2)%Z
  /\ Forall (fun h => strip h <> EmptyString) ["Rates rise"; "Storm nears coast"]
  /\ ["Rates rise"; "Storm nears coast"]
     = firstn (Z.to_nat 2) (headlines_for "CNN" sample_articles).
Proof.
  split; [reflexivity|].
  apply (group_articles_by_source_bounded sample_articles 2 "CNN"
           ["Rates rise"; "Storm nears coast"]).
  reflexivity.
Defined.

(** C10 as stated fails for a negative limit: the source is still
    listed, with no headline, and 0 is not at most -1. *)
Lemma group_negative_limit_counterexample :
  dict_get "Unknown Source"
    (group_articles_by_source [ {| art_source := None; art_title := Some "x" |} ] (-1))
    = Some []
  /\ ~ (Z.of_nat (List.length (@nil string)) <= -1)%Z.
Proof. split; [reflexivity | simpl; lia]. Qed.

End NewsFacts.

(** ** Runs of one contact's sequence *)

Module RunFacts.
Import Py Dom Selenium News App Reading.
Local Open Scope prog_scope.

Lemma follows_app i e1 j e2 k :
  follows i e1 j -> follows j e2 k -> follows i (e1 ++ e2) k.
Proof.
  induction 1; intros H2; simpl; [exact H2 | |].
  - apply follows_stay; auto.
  - apply follows_next; auto.
Qed.


Lemma aborts_last_app e1 e2 :
  clean e1 -> aborts_last e2 -> aborts_last (e1 ++ e2).
Proof.
  intros Hc H2. induction Hc as [|ev r Hev Hr IH]; simpl; [exact H2|].
  split; [|exact IH]. intros Ha. congruence.
Qed.

Lemma clean_app e1 e2 : clean e1 -> clean e2 -> clean (e1 ++ e2).
Proof. intros. apply Forall_app. now split. Qed.

Lemma last_ignored_app e1 e2 :
  e2 <> [] -> last_ignored (e1 ++ e2) = last_ignored e2.
Proof.
  intros Hne. induction e1 as [|a r IH]; simpl; [reflexivity|].
  destruct (r ++ e2)%list eqn:E.
  - apply app_eq_nil in E. tauto.
  - exact IH.
Qed.

Lemma retried_app e1 e2 :
  retried e1 -> last_ignored e1 = false -> retried e2 -> retried (e1 ++ e2).
Proof.
  revert e2. induction e1 as [|a r IH]; intros e2 H1 Hl H2; simpl; [exact H2|].
  simpl in H1. destruct H1 as (Ha & Hr).
  split.
  - intros Hi. specialize (Ha Hi).
    destruct r as [|b [|c r']]; simpl in *; try contradiction; [congruence | exact Ha].
  - destruct r as [|b r'].
    + simpl. exact H2.
    + apply IH; auto.
Qed.

Lemma failure_app e pre evs t :
  failure e evs t -> failure e (pre ++ evs) t.
Proof.
  intros (p & ev & -> & H). exists (pre ++ p)%list, ev.
  split; [now rewrite app_assoc|].
  destruct H as [H | (He & Ha & Hp & ev0 & Hin & Hs & Ht)]; [now left|].
  right. repeat split; auto. exists ev0. repeat split; auto.
  apply in_or_app. now right.
Qed.

(** *** Reading the step sequence off a trace *)














Lemma aborts_last_split evs :
  aborts_last evs ->
  forall pre ev post, evs = (pre ++ ev :: post)%list -> aborting ev = true -> post = [].
Proof.
  intros H pre. revert evs H. induction pre as [|a p IH]; intros evs H ev post E Ha; subst evs.
  - simpl in H. now apply H.
  - simpl in H. eapply IH; [apply H | reflexivity | exact Ha].
Qed.

Lemma retried_split evs :
  retried evs ->
  forall pre ev post, evs = (pre ++ ev :: post)%list -> ignored ev = true ->
    post = [] \/
    exists sl ev2 post', post = sl :: ev2 :: post'
      /\ ev_op sl = OSleep poll /\ ev_stage sl = ev_stage ev
      /\ ev_op ev2 = ev_op ev /\ ev_stage ev2 = ev_stage ev.
Proof.
  intros H pre. revert evs H. induction pre as [|a p IH]; intros evs H ev post E Hi; subst evs.
  - simpl in H. destruct H as (H & _). specialize (H Hi).
    destruct post as [|sl [|ev2 post']]; [now left | contradiction |].
    right. now exists sl, ev2, post'.
  - simpl in H. eapply IH; [apply H | reflexivity | exact Hi].
Qed.

Lemma last_ignored_snoc pre ev : last_ignored (pre ++ [ev]) = ignored ev.
Proof. rewrite last_ignored_app by discriminate. reflexivity. Qed.

Lemma clean_split evs pre ev post :
  clean evs -> evs = (pre ++ ev :: post)%list -> aborting ev = false.
Proof.
  intros H ->. unfold clean in H. rewrite Forall_forall in H. apply H.
  apply in_or_app. right. now left.
Qed.

Section World.
Variable w : World.

Lemma sound_ret {A} i (x : A) : sound i i (ret x).
Proof.
  intros st. exists (Ok x), st, [], []. unfold ret.
  repeat split; try (now rewrite app_nil_r); simpl; auto; try lia.
  exists i. repeat split; constructor.
Qed.

Lemma sound_logging i x : benign x -> sound i i (logging x).
Proof.
  intros Hb st. eexists (Ok tt), _, [], [x]. unfold logging.
  repeat split; simpl; try (now rewrite app_nil_r); auto; try lia.
  exists i. repeat split; constructor.
Qed.

Lemma sound_bind {A B} i j k (a : M A) (f : A -> M B) :
  j <= k -> sound i j a -> (forall x, sound j k (f x)) -> sound i k (bind a f).
Proof.
  intros Hjk Ha Hf st.
  destruct (Ha st) as (r & st1 & evs1 & l1 & Ea & Et & El & Hb & Hn & Hal & Hre & (j1 & Hfo & Hv)).
  unfold bind. rewrite Ea.
  destruct r as [x | e |].
  - destruct Hv as (-> & Hc & Hli).
    destruct (Hf x st1) as (r2 & st2 & evs2 & l2 & Ef & Et2 & El2 & Hb2 & Hn2 & Hal2 & Hre2 & (j2 & Hfo2 & Hv2)).
    exists r2, st2, (evs1 ++ evs2)%list, (l1 ++ l2)%list.
    rewrite Et2, Et, El2, El, !app_assoc.
    repeat split; auto.
    + apply Forall_app. now split.
    + lia.
    + now apply aborts_last_app.
    + now apply retried_app.
    + exists j2. split; [eapply follows_app; eauto|].
      destruct r2 as [y | e |]; [| |contradiction].
      * destruct Hv2 as (-> & Hc2 & Hli2). repeat split; auto.
        -- now apply clean_app.
        -- destruct evs2 as [|ev2 r2'].
           ++ now rewrite app_nil_r.
           ++ rewrite last_ignored_app; [exact Hli2 | discriminate].
      * destruct Hv2 as (Hle & Hfa). split; [exact Hle|]. now apply failure_app.
  - exists (Raise e), st1, evs1, l1. repeat split; auto.
    exists j1. split; [exact Hfo|]. destruct Hv as (Hle & Hfa). split; [lia | exact Hfa].
  - contradiction.
Qed.

Lemma lookup_returns l st : lookup w l st <> OutOfFuel.
Proof.
  unfold lookup. destruct (fault w _ _ _); [discriminate|].
  destruct (resolve _ _ _) as [[|e r]|]; discriminate.
Qed.

Lemma follows_one i ev :
  stage_index (ev_stage ev) = i \/ stage_index (ev_stage ev) = S i ->
  follows i [ev] (stage_index (ev_stage ev)).
Proof.
  intros [H | H].
  - apply follows_stay; [exact H|]. rewrite H. constructor.
  - apply follows_next; [exact H|]. rewrite H. constructor.
Qed.

Lemma follows_block i sg evs :
  evs <> [] -> Forall (fun ev => ev_stage ev = sg) evs ->
  stage_index sg = i \/ stage_index sg = S i ->
  follows i evs (stage_index sg).
Proof.
  intros Hne Hall Hi.
  assert (Hstay : forall l, Forall (fun ev => ev_stage ev = sg) l ->
                            follows (stage_index sg) l (stage_index sg)).
  { induction 1 as [|ev r Hev Hr IH]; [constructor|].
    apply follows_stay; [now rewrite Hev | exact IH]. }
  destruct evs as [|ev r]; [contradiction|].
  inversion Hall as [|? ? Hev Hr]; subst.
  destruct Hi as [Hi | Hi].
  - rewrite <- Hi at 1. now apply Hstay.
  - apply follows_next; [exact Hi|]. rewrite <- Hi. now apply Hstay.
Qed.

Lemma sound_command i sg o :
  is_find o = false ->
  stage_index sg = i \/ stage_index sg = S i ->
  sound i (stage_index sg) (command w sg o).
Proof.
  intros Hop Hi st. unfold command.
  set (r := fault w (trace st) (now st) o).
  set (ev := {| ev_stage := sg; ev_at := now st; ev_op := o; ev_raised := r |}).
  assert (Hig : ignored ev = false) by (unfold ignored; simpl; now rewrite Hop).
  destruct r as [e|] eqn:Er.
  - exists (Raise e), (record sg o (Some e) (latency w (trace st) (now st) o) st), [ev], [].
    repeat split; simpl; auto; try (now rewrite app_nil_r); try lia.
    exists (stage_index sg). split; [now apply (follows_one i ev)|].
    split; [lia|]. exists [], ev. split; [reflexivity|]. left.
    split; [reflexivity|]. unfold aborting. simpl. now rewrite Hig.
  - exists (Ok tt), (record sg o None (latency w (trace st) (now st) o) st), [ev], [].
    repeat split; simpl; auto; try (now rewrite app_nil_r); try lia; try congruence.
    exists (stage_index sg). split; [now apply (follows_one i ev)|].
    repeat split; auto. constructor; [reflexivity | constructor].
Qed.

Lemma sound_sleep i sg ms :
  stage_index sg = i \/ stage_index sg = S i ->
  sound i (stage_index sg) (sleep sg ms).
Proof.
  intros Hi st. unfold sleep.
  set (ev := {| ev_stage := sg; ev_at := now st; ev_op := OSleep ms; ev_raised := None |}).
  exists (Ok tt), (record sg (OSleep ms) None ms st), [ev], [].
  repeat split; simpl; auto; try (now rewrite app_nil_r); try lia; try congruence.
  exists (stage_index sg). split; [now apply (follows_one i ev)|].
  repeat split; auto. constructor; [reflexivity | constructor].
Qed.

Lemma sound_find_element i sg l :
  polled_stage sg = false ->
  stage_index sg = i \/ stage_index sg = S i ->
  sound i (stage_index sg) (find_element w sg l).
Proof.
  intros Hp Hi st. unfold find_element.
  set (r := lookup w l st).
  set (ev := {| ev_stage := sg; ev_at := now st; ev_op := OFind l; ev_raised := raised r |}).
  assert (Hig : ignored ev = false)
    by (unfold ignored; simpl; now rewrite Hp).
  exists r, (record sg (OFind l) (raised r) (latency w (trace st) (now st) (OFind l)) st), [ev], [].
  repeat split; simpl; auto; try (now rewrite app_nil_r); try lia; try congruence.
  exists (stage_index sg). split; [now apply (follows_one i ev)|].
  pose proof (lookup_returns l st) as Hr. fold r in Hr.
  destruct r as [e | e |] eqn:Er; [| |contradiction].
  - repeat split; auto. constructor; [reflexivity | constructor].
  - split; [lia|]. exists [], ev. split; [reflexivity|]. left.
    split; [reflexivity|]. unfold aborting. simpl. now rewrite Hig.
Qed.

Lemma presence_is_probe sg l :
  presence_of_element_located w sg l = probe w sg l (fun _ => true).
Proof. reflexivity. Qed.

Lemma clickable_is_probe sg l :
  element_to_be_clickable w sg l
  = probe w sg l (fun e => el_displayed e && el_enabled e).
Proof. reflexivity. Qed.

Lemma probe_run sg l usable st :
  probe w sg l usable st =
  (match lookup w l st with
   | Ok e => Ok (if usable e then Some e else None)
   | Raise e => Raise e
   | OutOfFuel => OutOfFuel
   end, after_probe w sg l st).
Proof.
  unfold probe, bind, find_element, ret, after_probe.
  destruct (lookup w l st); reflexivity.
Qed.

Lemma waited_one sg l end_time st r :
  polled_stage sg = true ->
  match r with
  | Ok _ => aborting (probe_event w sg l st) = false
            /\ ignored (probe_event w sg l st) = false
  | Raise e =>
      (ev_raised (probe_event w sg l st) = Some e
       /\ aborting (probe_event w sg l st) = true)
      \/ (e = TimeoutException /\ aborting (probe_event w sg l st) = false
          /\ (end_time < now (after_probe w sg l st))%N)
  | OutOfFuel => False
  end ->
  waited sg l end_time st r (after_probe w sg l st).
Proof.
  intros Hp Hv. exists (probe_event w sg l st), [].
  refine (conj _ (conj _ (conj _ (conj _ (conj _ (conj _ (conj _ (conj _ _)))))))).
  - reflexivity.
  - reflexivity.
  - simpl. lia.
  - reflexivity.
  - reflexivity.
  - constructor; [reflexivity | constructor].
  - simpl. split; [reflexivity | exact I].
  - simpl. split; [intros _; exact I | exact I].
  - destruct r as [v | e |]; [| |contradiction].
    + destruct Hv as (Ha & Hi). split; [|exact Hi].
      constructor; [exact Ha | constructor].
    + exists [], (probe_event w sg l st). split; [reflexivity | exact Hv].
Qed.

Lemma waited_retry sg l end_time st r st' :
  aborting (probe_event w sg l st) = false ->
  waited sg l end_time (record sg (OSleep poll) None poll (after_probe w sg l st)) r st' ->
  waited sg l end_time st r st'.
Proof.
  intros Hna (ev1 & rest & Ht & Hl & Hn & Hat & Hop & Hall & Hal & Hre & Hv).
  set (st1 := after_probe w sg l st) in *.
  set (sl := {| ev_stage := sg; ev_at := now st1; ev_op := OSleep poll;
                ev_raised := None |}).
  exists (probe_event w sg l st), (sl :: ev1 :: rest).
  refine (conj _ (conj _ (conj _ (conj _ (conj _ (conj _ (conj _ (conj _ _)))))))).
  - rewrite Ht. simpl. now rewrite <- !app_assoc.
  - rewrite Hl. reflexivity.
  - simpl in Hn. lia.
  - reflexivity.
  - reflexivity.
  - constructor; [reflexivity|]. constructor; [reflexivity | exact Hall].
  - simpl. split; [congruence|]. split; [discriminate | exact Hal].
  - simpl. split.
    + intros _. inversion Hall; subst. repeat split; auto.
    + split; [discriminate | exact Hre].
  - destruct r as [v | e |]; [| |contradiction].
    + destruct Hv as (Hc & Hli). split; [|exact Hli].
      constructor; [exact Hna|]. constructor; [reflexivity | exact Hc].
    + destruct Hv as (pre & ev & Epre & Hv).
      exists (probe_event w sg l st :: sl :: pre), ev.
      split; [simpl; now rewrite Epre | exact Hv].
Qed.

Lemma probe_event_flags sg l st :
  polled_stage sg = true ->
  match lookup w l st with
  | Ok _ => aborting (probe_event w sg l st) = false
            /\ ignored (probe_event w sg l st) = false
  | Raise e =>
      ev_raised (probe_event w sg l st) = Some e
      /\ ignored (probe_event w sg l st) = is_no_such_element e
      /\ aborting (probe_event w sg l st) = negb (is_no_such_element e)
  | OutOfFuel => False
  end.
Proof.
  intros Hp. pose proof (lookup_returns l st) as Hret.
  unfold aborting, ignored, probe_event. simpl. rewrite Hp.
  destruct (lookup w l st) as [e | e |]; simpl; auto.
Qed.

(** One round of the loop, given what the remaining rounds do. *)
Lemma until_round sg l usable f end_time st :
  polled_stage sg = true ->
  ((end_time <? now (after_probe w sg l st))%N = false ->
   exists r st',
     until_loop f sg end_time (probe w sg l usable)
                (record sg (OSleep poll) None poll (after_probe w sg l st)) = (r, st')
     /\ waited sg l end_time
               (record sg (OSleep poll) None poll (after_probe w sg l st)) r st') ->
  exists r st',
    until_loop (S f) sg end_time (probe w sg l usable) st = (r, st')
    /\ waited sg l end_time st r st'.
Proof.
  intros Hp Hnext.
  pose proof (probe_event_flags sg l st Hp) as Hfl.
  assert (Hagain : aborting (probe_event w sg l st) = false ->
            exists r st',
              (if (end_time <? now (after_probe w sg l st))%N
               then (Raise TimeoutException, after_probe w sg l st)
               else (sleep sg poll ;; until_loop f sg end_time (probe w sg l usable))
                      (after_probe w sg l st))
              = (r, st') /\ waited sg l end_time st r st').
  { intros Hna. destruct (end_time <? now (after_probe w sg l st))%N eqn:Hto.
    - exists (Raise TimeoutException), (after_probe w sg l st).
      split; [reflexivity|]. apply waited_one; [exact Hp|].
      right. repeat split; auto. now apply N.ltb_lt.
    - destruct (Hnext eq_refl) as (r & st' & Erun & W).
      exists r, st'. split; [exact Erun|]. now apply waited_retry. }
  change (until_loop (S f) sg end_time (probe w sg l usable) st)
    with (match probe w sg l usable st with
          | (Ok (Some v), st1) => (Ok v, st1)
          | (Ok None, st1) =>
              if (end_time <? now st1)%N then (Raise TimeoutException, st1)
              else (sleep sg poll ;; until_loop f sg end_time (probe w sg l usable)) st1
          | (Raise e, st1) =>
              if is_no_such_element e
              then if (end_time <? now st1)%N then (Raise TimeoutException, st1)
                   else (sleep sg poll ;; until_loop f sg end_time (probe w sg l usable)) st1
              else (Raise e, st1)
          | (OutOfFuel, st1) => (OutOfFuel, st1)
          end).
  rewrite probe_run.
  destruct (lookup w l st) as [e | e |] eqn:El; [| |contradiction].
  - destruct Hfl as (Hna & Hni). destruct (usable e).
    + exists (Ok e), (after_probe w sg l st). split; [reflexivity|].
      apply waited_one; [exact Hp | now split].
    + apply Hagain. exact Hna.
  - destruct Hfl as (Hr & Hi & Ha). destruct (is_no_such_element e) eqn:He.
    + apply Hagain. exact Ha.
    + exists (Raise e), (after_probe w sg l st). split; [reflexivity|].
      apply waited_one; [exact Hp|]. left. now split.
Qed.

(** With one round more than the budget holds poll intervals, the
    loop always ends by itself. *)
Lemma until_loop_run sg l usable :
  polled_stage sg = true ->
  forall f end_time st,
    (end_time < now st + poll * N.of_nat f)%N ->
    exists r st',
      until_loop (S f) sg end_time (probe w sg l usable) st = (r, st')
      /\ waited sg l end_time st r st'.
Proof.
  intros Hp. induction f as [|f IH]; intros end_time st Hfuel.
  all: apply until_round; [exact Hp|]; intros Hto; apply N.ltb_ge in Hto.
  all: assert (Hnw1 : (now st <= now (after_probe w sg l st))%N) by (simpl; lia).
  - simpl in Hfuel. lia.
  - apply IH.
    change (now (record sg (OSleep poll) None poll (after_probe w sg l st)))
      with (now (after_probe w sg l st) + poll)%N.
    rewrite Nat2N.inj_succ in Hfuel. lia.
Qed.

Lemma until_fuel : N.to_nat (20000 / poll) + 2 = 42.
Proof. reflexivity. Qed.

Lemma sound_until i sg l usable :
  polled_stage sg = true ->
  stage_index sg = i \/ stage_index sg = S i ->
  sound i (stage_index sg) (until sg 20000 (probe w sg l usable)).
Proof.
  intros Hp Hi st. unfold until.
  destruct (until_loop_run sg l usable Hp 41 (now st + 20000)%N st)
    as (r & st' & Erun & W).
  { change (poll * N.of_nat 41)%N with 20500%N. lia. }
  rewrite until_fuel.
  destruct W as (ev0 & rest & Ht & Hl & Hn & Hat & Hop & Hall & Hal & Hre & Hv).
  exists r, st', (ev0 :: rest), [].
  refine (conj Erun (conj Ht (conj _ (conj _ (conj Hn (conj Hal (conj Hre _))))))).
  - now rewrite app_nil_r.
  - constructor.
  - exists (stage_index sg). split; [apply follows_block; auto; discriminate|].
    destruct r as [v | e |]; [exact (conj eq_refl Hv) | | contradiction].
    split; [lia|]. destruct Hv as (pre & ev & Epre & Hv).
    exists pre, ev. split; [exact Epre|].
    destruct Hv as [Hv | (He & Ha & Hlate)]; [now left|]. right.
    assert (Hsg : ev_stage ev = sg).
    { rewrite Forall_forall in Hall. apply Hall. rewrite Epre.
      apply in_or_app. right. now left. }
    repeat split; auto; [now rewrite Hsg|].
    exists ev0. repeat split.
    + now left.
    + rewrite Hsg. now inversion Hall.
    + rewrite Hat. exact Hlate.
Qed.

Lemma sound_for_each {A} i (xs : list A) (body : A -> M unit) :
  (forall x, sound i i (body x)) -> sound i i (for_each xs body).
Proof.
  intros Hb. induction xs as [|x r IH]; simpl.
  - apply sound_ret.
  - eapply sound_bind; [apply Nat.le_refl | apply Hb | intros _; exact IH].
Qed.

Lemma sound_for_each_entering {A} i j (xs : list A) (body : A -> M unit) :
  xs <> [] -> i <= j ->
  (forall x, sound i j (body x)) -> (forall x, sound j j (body x)) ->
  sound i j (for_each xs body).
Proof.
  intros Hne Hij Hfirst Hb. destruct xs as [|x r]; [contradiction|]. simpl.
  eapply sound_bind; [apply Nat.le_refl | apply Hfirst |].
  intros _. now apply sound_for_each.
Qed.

Variable cfg : Config.

Ltac here := first [left; reflexivity | right; reflexivity].

Lemma sound_type_line i box line :
  i = 7 \/ i = 8 -> sound i 8 (type_line w box line).
Proof.
  intros Hi. unfold type_line.
  eapply (sound_bind _ 8); [apply Nat.le_refl | | intros _].
  - apply (sound_command i SComposeAndSend); [reflexivity|]. destruct Hi; subst; here.
  - apply (sound_command 8 SComposeAndSend); [reflexivity | here].
Qed.

Lemma sound_compose_and_send box message :
  sound 7 8 (compose_and_send w box message).
Proof.
  unfold compose_and_send.
  eapply (sound_bind _ 8); [apply Nat.le_refl | | intros _].
  - apply sound_for_each_entering.
    + apply PyFacts.split_nonempty.
    + lia.
    + intros x. apply sound_type_line. now left.
    + intros x. apply sound_type_line. now right.
  - apply (sound_command 8 SComposeAndSend); [reflexivity | here].
Qed.

Ltac seq n := eapply (sound_bind _ n); [simpl; lia | | intros ?].

(** The whole [try] block walks the nine steps in order. *)
Lemma sound_send_body contact_name message :
  sound 0 9 (send_body cfg w contact_name message).
Proof.
  unfold send_body.
  seq 1. { apply (sound_command 0 SAttach); [reflexivity | here]. }
  seq 2. { apply (sound_command 1 SNavigate); [reflexivity | here]. }
  seq 3. { rewrite presence_is_probe. apply (sound_until 2 SAwaitReady); [reflexivity | here]. }
  seq 3. { apply sound_logging. exact I. }
  seq 4. { rewrite presence_is_probe. apply (sound_until 3 SLocateSearch); [reflexivity | here]. }
  seq 4. { apply (sound_command 4 SLocateSearch); [reflexivity | here]. }
  seq 5. { apply (sound_command 4 STypeQuery); [reflexivity | here]. }
  seq 5. { apply (sound_sleep 5 STypeQuery); here. }
  seq 6. { apply (sound_find_element 5 SSelectContact); [reflexivity | here]. }
  seq 6. { apply (sound_command 6 SSelectContact); [reflexivity | here]. }
  seq 6. { apply (sound_sleep 6 SSelectContact); here. }
  seq 7. { rewrite clickable_is_probe. apply (sound_until 6 SLocateInput); [reflexivity | here]. }
  seq 8. { apply sound_compose_and_send. }
  seq 8. { apply sound_logging. exact I. }
  seq 9. { apply (sound_sleep 8 SRelease); here. }
  apply (sound_command 9 SRelease); [reflexivity | here].
Qed.

(** *** Keystrokes of a run *)

Lemma keystrokes_app e1 e2 :
  keystrokes (e1 ++ e2) = (keystrokes e1 ++ keystrokes e2)%list.
Proof.
  induction e1 as [|ev r IH]; simpl; [reflexivity|].
  destruct (ev_stage ev), (ev_op ev); simpl; rewrite IH; reflexivity.
Qed.

Lemma keystrokes_elsewhere sg evs :
  sg <> SComposeAndSend -> Forall (fun ev => ev_stage ev = sg) evs ->
  keystrokes evs = [].
Proof.
  intros Hsg. induction 1 as [|ev r Hev Hr IH]; simpl; [reflexivity|].
  rewrite Hev. destruct sg; try exact IH. contradiction.
Qed.

Lemma typed_silent {A} (a : M A) :
  (forall st r st', a st = (r, st') -> trace st' = trace st) -> typed [] a.
Proof.
  intros H st r st' E. exists []. rewrite app_nil_r.
  split; [eapply H; eauto|]. split; [now exists 0 | reflexivity].
Qed.

Lemma typed_ret {A} (x : A) : typed [] (ret x).
Proof. apply typed_silent. intros st r st' [= <- <-]. reflexivity. Qed.

Lemma typed_logging x : typed [] (logging x).
Proof. apply typed_silent. intros st r st' [= <- <-]. reflexivity. Qed.

Lemma typed_event {A} (a : M A) sg o :
  (forall st r st', a st = (r, st') ->
     exists ev, trace st' = (trace st ++ [ev])%list
                /\ ev_stage ev = sg /\ ev_op ev = o) ->
  typed (match sg, o with SComposeAndSend, OSendKeys _ k => [k] | _, _ => [] end) a.
Proof.
  intros H st r st' E. destruct (H st r st' E) as (ev & Ht & Hs & Ho).
  exists [ev]. split; [exact Ht|].
  assert (Hk : keystrokes [ev]
               = match sg, o with SComposeAndSend, OSendKeys _ k => [k] | _, _ => [] end).
  { simpl. rewrite Hs, Ho. destruct sg, o; reflexivity. }
  rewrite Hk. split; [|reflexivity].
  exists 1. destruct sg, o; reflexivity.
Qed.

Lemma typed_command sg o :
  typed (match sg, o with SComposeAndSend, OSendKeys _ k => [k] | _, _ => [] end)
        (command w sg o).
Proof.
  apply typed_event. intros st r st' E. unfold command in E.
  exists {| ev_stage := sg; ev_at := now st; ev_op := o;
            ev_raised := fault w (trace st) (now st) o |}.
  split; [|split; reflexivity].
  destruct (fault w (trace st) (now st) o); injection E as <- <-; reflexivity.
Qed.

Lemma typed_sleep sg ms : sg <> SComposeAndSend -> typed [] (sleep sg ms).
Proof.
  intros Hsg. pose proof (typed_event (sleep sg ms) sg (OSleep ms)) as H.
  destruct sg; try contradiction; apply H; intros st r st' [= <- <-];
    (eexists; split; [reflexivity | split; reflexivity]).
Qed.

Lemma typed_find_element sg l : typed [] (find_element w sg l).
Proof.
  pose proof (typed_event (find_element w sg l) sg (OFind l)) as H.
  destruct sg; apply H; intros st r st' [= <- <-];
    (eexists; split; [reflexivity | split; reflexivity]).
Qed.

Lemma typed_until sg l usable :
  polled_stage sg = true -> typed [] (until sg 20000 (probe w sg l usable)).
Proof.
  intros Hp st r st' E. unfold until in E.
  destruct (until_loop_run sg l usable Hp 41 (now st + 20000)%N st)
    as (r0 & st0 & Erun & W).
  { change (poll * N.of_nat 41)%N with 20500%N. lia. }
  rewrite until_fuel, Erun in E. injection E as -> ->.
  destruct W as (ev0 & rest & Ht & _ & _ & _ & _ & Hall & _).
  exists (ev0 :: rest). split; [exact Ht|].
  rewrite (keystrokes_elsewhere sg); auto.
  - split; [now exists 0 | reflexivity].
  - intros ->. discriminate.
Qed.

Lemma firstn_within {A} n (k1 k2 : list A) :
  exists n', firstn n k1 = firstn n' (k1 ++ k2).
Proof.
  exists (Nat.min n (List.length k1)).
  rewrite firstn_app.
  replace (Nat.min n (List.length k1) - List.length k1) with 0 by lia.
  simpl. rewrite app_nil_r.
  destruct (Nat.le_ge_cases n (List.length k1)).
  - now rewrite Nat.min_l.
  - rewrite Nat.min_r by lia. now rewrite !firstn_all2 by lia.
Qed.

Lemma typed_bind {A B} k1 k2 (a : M A) (f : A -> M B) :
  typed k1 a -> (forall x, typed k2 (f x)) -> typed (k1 ++ k2) (bind a f).
Proof.
  intros Ha Hf st r st' E. unfold bind in E.
  destruct (a st) as [ra st1] eqn:Ea.
  destruct (Ha st ra st1 Ea) as (evs1 & Ht1 & (n1 & Hn1) & Hok1).
  destruct ra as [x | e |].
  - destruct (Hf x st1 r st' E) as (evs2 & Ht2 & (n2 & Hn2) & Hok2).
    exists (evs1 ++ evs2)%list. rewrite Ht2, Ht1, app_assoc.
    split; [reflexivity|]. rewrite keystrokes_app, (Hok1 I).
    split.
    + exists (List.length k1 + n2). rewrite firstn_app_2. now rewrite Hn2.
    + intros Hr. now rewrite (Hok2 Hr).
  - injection E as <- <-. exists evs1. split; [exact Ht1|].
    split; [|intros []]. rewrite Hn1. apply firstn_within.
  - injection E as <- <-. exists evs1. split; [exact Ht1|].
    split; [|intros []]. rewrite Hn1. apply firstn_within.
Qed.

Lemma typed_then {A B} ks (a : M A) (f : A -> M B) :
  typed [] a -> (forall x, typed ks (f x)) -> typed ks (bind a f).
Proof. intros Ha Hf. exact (typed_bind [] ks a f Ha Hf). Qed.

Lemma typed_for_each {A} (g : A -> list keys) (xs : list A) (body : A -> M unit) :
  (forall x, typed (g x) (body x)) -> typed (flat_map g xs) (for_each xs body).
Proof.
  intros Hb. induction xs as [|x r IH]; simpl.
  - apply typed_ret.
  - apply typed_bind; [apply Hb | intros _; exact IH].
Qed.

Lemma typed_compose_and_send box message :
  typed (key_plan message) (compose_and_send w box message).
Proof.
  unfold compose_and_send, key_plan.
  apply typed_bind.
  - apply typed_for_each. intros line. unfold type_line.
    apply (typed_bind [KText line] [KShiftEnter]).
    + apply (typed_command SComposeAndSend (OSendKeys box (KText line))).
    + intros _. apply (typed_command SComposeAndSend (OSendKeys box KShiftEnter)).
  - intros _. apply (typed_command SComposeAndSend (OSendKeys box KEnter)).
Qed.

(** In every run the keystrokes sent are an initial part of the plan
    of the message; a sequence that ran to its end sent all of it. *)
Lemma typed_send_body contact_name message :
  typed (key_plan message) (send_body cfg w contact_name message).
Proof.
  unfold send_body.
  apply typed_then; [apply (typed_command SAttach)|]; intros _.
  apply typed_then; [apply (typed_command SNavigate)|]; intros _.
  apply typed_then; [rewrite presence_is_probe; now apply typed_until|]; intros _.
  apply typed_then; [apply typed_logging|]; intros _.
  apply typed_then; [rewrite presence_is_probe; now apply typed_until|]; intros search.
  apply typed_then; [apply (typed_command SLocateSearch)|]; intros _.
  apply typed_then; [apply (typed_command STypeQuery)|]; intros _.
  apply typed_then; [apply typed_sleep; discriminate|]; intros _.
  apply typed_then; [apply typed_find_element|]; intros entry.
  apply typed_then; [apply (typed_command SSelectContact)|]; intros _.
  apply typed_then; [apply typed_sleep; discriminate|]; intros _.
  apply typed_then; [rewrite clickable_is_probe; now apply typed_until|]; intros box.
  rewrite <- (app_nil_r (key_plan message)).
  apply typed_bind; [apply typed_compose_and_send|]; intros _.
  apply typed_then; [apply typed_logging|]; intros _.
  apply typed_then; [apply typed_sleep; discriminate|]; intros _.
  apply (typed_command SRelease).
Qed.

(** One call of [send_whatsapp_message]: it always returns normally;
    the block either ran through all nine steps, or raised and the
    handler logged the contact and the cause as the last entry. *)
Lemma send_run contact_name message st :
  exists st' evs lb tail,
    send_whatsapp_message cfg w contact_name message st = (Ok tt, st')
    /\ trace st' = (trace st ++ evs)%list
    /\ log st' = (log st ++ LSending contact_name :: lb ++ tail)%list
    /\ Forall benign lb
    /\ aborts_last evs /\ retried evs
    /\ exists j, follows 0 evs j /\
         ((tail = [] /\ j = 9 /\ clean evs /\ last_ignored evs = false
           /\ fst (send_body cfg w contact_name message (started contact_name st)) = Ok tt)
          \/ (exists e, tail = [LSendError contact_name e] /\ j <= 9
                        /\ failure e evs (now st')
                        /\ fst (send_body cfg w contact_name message
                                          (started contact_name st)) = Raise e)).
Proof.
  destruct (sound_send_body contact_name message (started contact_name st))
    as (r & st1 & evs & lb & Erun & Ht & Hl & Hb & Hn & Hal & Hre & (j & Hfo & Hv)).
  unfold send_whatsapp_message, bind, try_except.
  change (logging (LSending contact_name) st)
    with (Ok tt, started contact_name st).
  cbv iota. rewrite Erun.
  destruct r as [[] | e |]; [| |contradiction].
  - exists st1, evs, lb, [].
    refine (conj eq_refl (conj Ht (conj _ (conj Hb (conj Hal (conj Hre _)))))).
    + rewrite Hl. simpl. now rewrite app_nil_r, <- app_assoc.
    + exists j. split; [exact Hfo|]. left. destruct Hv as (-> & Hc & Hli).
      now repeat split.
  - exists (snd (logging (LSendError contact_name e) st1)), evs, lb,
           [LSendError contact_name e].
    refine (conj eq_refl (conj Ht (conj _ (conj Hb (conj Hal (conj Hre _)))))).
    + simpl. rewrite Hl. simpl. now rewrite <- !app_assoc.
    + exists j. split; [exact Hfo|]. right. exists e. destruct Hv as (Hle & Hfa).
      now repeat split.
Qed.

Lemma attempted_app l1 l2 : attempted (l1 ++ l2) = (attempted l1 ++ attempted l2)%list.
Proof.
  induction l1 as [|x r IH]; simpl; [reflexivity|].
  destruct x; simpl; rewrite IH; reflexivity.
Qed.



Lemma dispatch_run message contacts :
  forall st, exists st' evs segs,
    dispatch cfg w contacts message st = (Ok tt, st')
    /\ trace st' = (trace st ++ evs)%list
    /\ log st' = (log st ++ List.concat segs)%list
    /\ Forall2 segment contacts segs.
Proof.
  induction contacts as [|c rest IH]; intros st.
  - exists st, [], []. simpl. unfold ret. rewrite !app_nil_r. repeat split. constructor.
  - destruct (send_run c message st)
      as (st1 & evs1 & lb & tail & Erun & Ht & Hl & Hb & _ & _ & (j & _ & Hv)).
    destruct (IH st1) as (st2 & evs2 & segs & Erun2 & Ht2 & Hl2 & Hsegs).
    exists st2, (evs1 ++ evs2)%list, ((LSending c :: lb ++ tail) :: segs)%list.
    unfold dispatch in *. simpl for_each. unfold bind at 1. rewrite Erun.
    refine (conj Erun2 (conj _ (conj _ _))).
    + rewrite Ht2, Ht. now rewrite app_assoc.
    + rewrite Hl2, Hl, <- app_assoc. reflexivity.
    + constructor; [|exact Hsegs]. exists lb, tail. repeat split; auto.
      destruct Hv as [(-> & _) | (e & -> & _)]; [now left | right; now exists e].
Qed.


End World.




(** C8, as amended: the page body, the search box and the message input
    are resolved by polling: a lookup of theirs that finds no match is
    followed by a sleep of one poll interval and a new lookup of the
    same target, unless it is the last command, and then the sequence
    has failed with [TimeoutException] more than 20 s after an earlier
    lookup of that step.  The contact entry is resolved by one
    immediate lookup: when it finds no match the sequence fails at once
    with [NoSuchElementException]. *)
Theorem lookups_polled_except_contact cfg w contact message st :
  exists st' evs l,
    send_whatsapp_message cfg w contact message st = (Ok tt, st')
    /\ trace st' = (trace st ++ evs)%list
    /\ log st' = (log st ++ l)%list
    /\ (forall pre ev post,
          evs = (pre ++ ev :: post)%list -> ignored ev = true ->
          (exists sl ev2 post', post = sl :: ev2 :: post'
             /\ ev_op sl = OSleep poll /\ ev_stage sl = ev_stage ev
             /\ ev_op ev2 = ev_op ev /\ ev_stage ev2 = ev_stage ev)
          \/ (post = []
              /\ (exists l0, l = (l0 ++ [LSendError contact TimeoutException])%list)
              /\ exists ev0, In ev0 evs /\ ev_stage ev0 = ev_stage ev
                             /\ (ev_at ev0 + 20000 < now st')%N))
    /\ (forall pre ev post,
          evs = (pre ++ ev :: post)%list ->
          ev_stage ev = SSelectContact -> is_find (ev_op ev) = true ->
          ev_raised ev = Some NoSuchElementException ->
          post = []
          /\ exists l0, l = (l0 ++ [LSendError contact NoSuchElementException])%list).
Proof.
  destruct (send_run w cfg contact message st)
    as (st' & evs & lb & tail & Erun & Ht & Hl & Hb & Hal & Hre & (j & Hfo & Hv)).
  exists st', evs, (LSending contact :: lb ++ tail)%list.
  refine (conj Erun (conj Ht (conj Hl (conj _ _)))).
  - intros pre ev post E Hig.
    destruct (retried_split evs Hre pre ev post E Hig) as [-> | Hnext]; [|now left].
    right. split; [reflexivity|].
    assert (Hna : aborting ev = false).
    { unfold aborting. rewrite Hig. now destruct (ev_raised ev). }
    destruct Hv as [(_ & _ & _ & Hli & _) | (e & -> & _ & Hfa & _)].
    + rewrite E, last_ignored_snoc in Hli. congruence.
    + destruct Hfa as (pre' & ev' & E' & Hcase). rewrite E in E'.
      apply app_inj_tail in E'. destruct E' as (<- & <-).
      destruct Hcase as [(_ & Ha) | (-> & _ & _ & ev0 & Hin & Hs & Hlate)]; [congruence|].
      split; [now exists (LSending contact :: lb)%list|].
      exists ev0. now repeat split.
  - intros pre ev post E Hs Hf Hr.
    assert (Ha : aborting ev = true).
    { unfold aborting, ignored. rewrite Hr, Hs, Hf. reflexivity. }
    pose proof (aborts_last_split evs Hal pre ev post E Ha) as ->.
    split; [reflexivity|].
    destruct Hv as [(_ & _ & Hc & _) | (e & -> & _ & Hfa & _)].
    + pose proof (clean_split evs pre ev [] Hc E). congruence.
    + destruct Hfa as (pre' & ev' & E' & Hcase). rewrite E in E'.
      apply app_inj_tail in E'. destruct E' as (<- & <-).
      destruct Hcase as [(Hr' & _) | (_ & Ha' & _)]; [|congruence].
      rewrite Hr in Hr'. injection Hr' as <-.
      now exists (LSending contact :: lb)%list.
Qed.

End RunFacts.

(** ** The contact selector *)

Module XPathFacts.
Import Py Dom XPath Selenium App Reading.

Lemma append_snoc acc c r : (snoc acc c ++ r)%string = (acc ++ String c r)%string.
Proof. unfold snoc. induction acc as [|a acc IH]; simpl; [reflexivity | now rewrite IH]. Qed.

(** Inside a quoted literal the lexer copies every character up to the
    closing quote. *)
Lemma lex_literal name : forall acc rest,
  count_char dq name = 0 ->
  lex (LLit dq acc) (name ++ String dq rest)
  = emit [TLit (acc ++ name)] (lex LIdle rest).
Proof.
  induction name as [|c r IH]; intros acc rest Hq; simpl.
  - assert (E : (acc ++ "")%string = acc)
      by (clear; induction acc as [|a acc IH]; simpl; [reflexivity | now rewrite IH]).
    now rewrite E.
  - simpl in Hq. destruct (Ascii.eqb c dq) eqn:Ec; [discriminate|].
    rewrite IH by exact Hq. now rewrite append_snoc.
Qed.

(** For a name without a double quote the interpolated selector is the
    exact title comparison the comment of the script announces. *)
Lemma contact_xpath_parses name :
  count_char dq name = 0 ->
  parse (contact_xpath name)
  = Some [{| st_name := "span";
             st_pred := Some (EEq (EAttr "title") (ELit name)) |}].
Proof.
  intros Hq. unfold parse, contact_xpath, dquote.
  simpl.
  rewrite (lex_literal name "" "]" Hq). reflexivity.
Qed.

Lemma select_single s : forall n, select s [] n = filter (matches s) (elements n).
Proof.
  fix IH 1. intros [e kids]. simpl.
  assert (Hk : flat_map (select s []) kids = filter (matches s) (flat_map elements kids)).
  { induction kids as [|k r IHk]; simpl; [reflexivity|].
    now rewrite filter_app, IH, IHk. }
  destruct (matches s e); now rewrite Hk.
Qed.

(** Away from double quotes the contact lookup selects exactly the
    [span] elements whose title equals the contact name. *)
Lemma contact_selector_exact name root :
  count_char dq name = 0 ->
  find_elements (ByXPath (contact_xpath name)) root
  = Some (filter (titled name) (elements root)).
Proof.
  intros Hq. unfold find_elements. rewrite (contact_xpath_parses name Hq).
  unfold select_path. rewrite select_single. reflexivity.
Qed.

Lemma resolve_inside w l root es :
  find_elements l root = Some es -> resolve w l root = Some es.
Proof. intros H. unfold resolve. now rewrite H. Qed.

(** So, for such a name and a lookup command that goes through, the
    element returned is an entry titled exactly with the name, and the
    lookup fails with [NoSuchElementException] exactly when the page
    shows no such entry. *)
Lemma contact_lookup_exact w name st :
  count_char dq name = 0 ->
  fault w (trace st) (now st) (OFind (ByXPath (contact_xpath name))) = None ->
  match lookup w (ByXPath (contact_xpath name)) st with
  | Ok e => titled name e = true /\ In e (elements (page w (trace st) (now st)))
  | Raise e =>
      e = NoSuchElementException
      /\ forall x, In x (elements (page w (trace st) (now st))) -> titled name x = false
  | OutOfFuel => False
  end.
Proof.
  intros Hq Hf. unfold lookup.
  rewrite Hf, (resolve_inside w _ _ _ (contact_selector_exact name _ Hq)).
  destruct (filter (titled name) (elements (page w (trace st) (now st))))
    as [|e r] eqn:E.
  - split; [reflexivity|]. intros x Hin.
    destruct (titled name x) eqn:Hx; [|reflexivity].
    assert (Hfx : In x (filter (titled name) (elements (page w (trace st) (now st)))))
      by (apply filter_In; now split).
    rewrite E in Hfx. contradiction.
  - assert (He : In e (filter (titled name) (elements (page w (trace st) (now st)))))
      by (rewrite E; now left).
    apply filter_In in He. tauto.
Qed.

End XPathFacts.

(** ** The keystroke composer *)

Module ComposerFacts.
Import Py Dom Selenium News App Reading Scenario RunFacts.

Lemma count_app p l1 l2 : count p (l1 ++ l2) = count p l1 + count p l2.
Proof. unfold count. now rewrite filter_app, length_app. Qed.

Lemma line_keys_counts (ls : list string) :
  count is_text (flat_map line_keys ls) = List.length ls
  /\ count is_break (flat_map line_keys ls) = List.length ls
  /\ count is_submit (flat_map line_keys ls) = 0
  /\ filter is_text (flat_map line_keys ls) = map KText ls.
Proof.
  induction ls as [|x r (Ht & Hb & Hs & Hf)]; [now repeat split|].
  unfold count in *. simpl. rewrite Ht, Hb, Hs, Hf. now repeat split.
Qed.

(** C1, as amended: when the composer has sent a message of N lines
    (N >= 1, the pieces between newlines), it has made exactly N
    text-insertion calls, one per line in order, exactly N line-break
    key combinations (one after every line, the last included) and
    exactly one submit, which is the final keystroke: nothing is
    submitted before the whole message is typed.  The keystrokes are,
    for each line in order, the text of the line followed by its line
    break, and then the submit: every break directly follows the text
    of its line. *)
Theorem composer_keystrokes w box message st st' :
  compose_and_send w box message st = (Ok tt, st') ->
  exists evs typed_part,
    trace st' = (trace st ++ evs)%list
    /\ 1 <= List.length (split nl message)
    /\ count is_text (keystrokes evs) = List.length (split nl message)
    /\ count is_break (keystrokes evs) = List.length (split nl message)
    /\ count is_submit (keystrokes evs) = 1
    /\ keystrokes evs = (typed_part ++ [KEnter])%list
    /\ count is_submit typed_part = 0
    /\ filter is_text (keystrokes evs) = map KText (split nl message)
    /\ typed_part = flat_map (fun line => [KText line; KShiftEnter]) (split nl message)
    /\ keystrokes evs = key_plan message.
Proof.
  intros Hrun.
  destruct (typed_compose_and_send w box message st (Ok tt) st' Hrun)
    as (evs & Ht & _ & Hks).
  specialize (Hks I).
  destruct (line_keys_counts (split nl message)) as (Hc1 & Hc2 & Hc3 & Hc4).
  exists evs, (flat_map line_keys (split nl message)).
  rewrite Hks. unfold key_plan. fold line_keys.
  rewrite !count_app, filter_app, Hc1, Hc2, Hc3, Hc4.
  change (count is_text [KEnter]) with 0.
  change (count is_break [KEnter]) with 0.
  change (count is_submit [KEnter]) with 1.
  change (filter is_text [KEnter]) with (@nil keys).
  rewrite app_nil_r, !Nat.add_0_r.
  refine (conj Ht (conj _ (conj eq_refl (conj eq_refl (conj eq_refl
           (conj eq_refl (conj eq_refl (conj eq_refl (conj eq_refl eq_refl))))))))).
  rewrite PyFacts.split_length. lia.
Qed.

Lemma composer_keystrokes_witness :
  exists st',
    compose_and_send (calm (chat_page [])) message_box abc initial = (Ok tt, st')
    /\ exists evs typed_part,
        trace st' = (trace initial ++ evs)%list
        /\ 1 <= List.length (split nl abc)
        /\ count is_text (keystrokes evs) = List.length (split nl abc)
        /\ count is_break (keystrokes evs) = List.length (split nl abc)
        /\ count is_submit (keystrokes evs) = 1
        /\ keystrokes evs = (typed_part ++ [KEnter])%list
        /\ count is_submit typed_part = 0
        /\ filter is_text (keystrokes evs) = map KText (split nl abc)
        /\ typed_part = flat_map (fun line => [KText line; KShiftEnter]) (split nl abc)
        /\ keystrokes evs = key_plan abc.
Proof.
  eexists. split.
  - vm_compute. reflexivity.
  - apply (composer_keystrokes (calm (chat_page [])) message_box abc initial).
    vm_compute. reflexivity.
Defined.

(** C1 as stated fails on the three-line message: the composer sends
    three line breaks before the submit, not two. *)
Lemma composer_line_breaks_counterexample :
  let ks := keystrokes
              (run_trace (compose_and_send (calm (chat_page [])) message_box abc initial)) in
  List.length (split nl abc) = 3
  /\ ks = [KText "A"; KShiftEnter; KText "B"; KShiftEnter; KText "C"; KShiftEnter; KEnter]
  /\ count is_break ks = 3
  /\ count is_break ks <> 3 - 1.
Proof. vm_compute. repeat split; discriminate. Qed.

Lemma message_never_empty grouped sentiment quote soccer :
  create_formatted_message_from_grouping grouped sentiment quote soccer <> EmptyString.
Proof.
  unfold create_formatted_message_from_grouping, message_lines. simpl. discriminate.
Qed.

(** C5, as amended: nothing guards against the empty message.  A
    sequence that runs to its end with the empty string has made one
    text-insertion call carrying no character, one line break and one
    submit, so an empty bubble is submitted.  The only protection is
    upstream: the message [job] formats is never the empty string. *)
Theorem empty_message_is_submitted cfg w contact st st' :
  send_body cfg w contact EmptyString st = (Ok tt, st') ->
  (exists evs,
      trace st' = (trace st ++ evs)%list
      /\ keystrokes evs = [KText EmptyString; KShiftEnter; KEnter]
      /\ count is_submit (keystrokes evs) = 1)
  /\ forall grouped sentiment quote soccer,
      create_formatted_message_from_grouping grouped sentiment quote soccer <> EmptyString.
Proof.
  intros Hrun. split; [|apply message_never_empty].
  destruct (typed_send_body w cfg contact EmptyString st (Ok tt) st' Hrun)
    as (evs & Ht & _ & Hks).
  exists evs. rewrite (Hks I). now repeat split.
Qed.

Lemma empty_message_is_submitted_witness :
  exists st',
    send_body cfg0 (calm (chat_page ["Alice"])) "Alice" EmptyString initial = (Ok tt, st')
    /\ (exists evs,
           trace st' = (trace initial ++ evs)%list
           /\ keystrokes evs = [KText EmptyString; KShiftEnter; KEnter]
           /\ count is_submit (keystrokes evs) = 1)
    /\ forall grouped sentiment quote soccer,
        create_formatted_message_from_grouping grouped sentiment quote soccer <> EmptyString.
Proof.
  eexists. split.
  - vm_compute. reflexivity.
  - apply (empty_message_is_submitted cfg0 (calm (chat_page ["Alice"])) "Alice" initial).
    vm_compute. reflexivity.
Defined.

(** C5 as stated fails: with the empty message the sequence for Alice
    is delivered, after one text-insertion call and one submit. *)
Lemma empty_message_counterexample :
  let run := send_whatsapp_message cfg0 (calm (chat_page ["Alice"])) "Alice"
                                   EmptyString initial in
  outcomes (run_log run) = [Delivered "Alice"]
  /\ keystrokes (run_trace run) = [KText EmptyString; KShiftEnter; KEnter]
  /\ count is_text (keystrokes (run_trace run)) <> 0
  /\ count is_submit (keystrokes (run_trace run)) <> 0.
Proof. vm_compute. repeat split; discriminate. Qed.

End ComposerFacts.

(** ** The outer loop and the job *)

Module DispatcherFacts.
Import Py Dom Selenium News App Reading Scenario RunFacts.

Lemma outcomes_app l1 l2 : outcomes (l1 ++ l2) = (outcomes l1 ++ outcomes l2)%list.
Proof.
  induction l1 as [|x r IH]; simpl; [reflexivity|].
  destruct x; simpl; rewrite IH; reflexivity.
Qed.

(** A failed attach ends the contact's sequence on its first command. *)
Lemma send_attach_fails cfg w contact message st e :
  fault w (trace st) (now st) (attach_op cfg) = Some e ->
  send_whatsapp_message cfg w contact message st
  = (Ok tt,
     {| now := now st + latency w (trace st) (now st) (attach_op cfg);
        trace := (trace st
                  ++ [{| ev_stage := SAttach; ev_at := now st; ev_op := attach_op cfg;
                         ev_raised := Some e |}])%list;
        log := ((log st ++ [LSending contact]) ++ [LSendError contact e])%list |}).
Proof.
  intros Hf.
  unfold send_whatsapp_message, send_body, bind, try_except, logging, command, record.
  cbn [now trace log]. unfold attach_op in Hf. rewrite Hf. reflexivity.
Qed.

(** C3, as amended: the attach is made at the start of every contact's
    sequence, inside its [try] block, not once before the loop.  When
    it fails for every attempt, every contact is still attempted in
    order, each sequence consists of the failed attach alone (no
    navigation, no page interaction), each contact records one Failed
    outcome whose cause is the attach error, none is Delivered, and the
    run returns normally. *)
Theorem attach_failure_fails_each_contact cfg w message contacts :
  (forall h t, fault w h t (attach_op cfg) <> None) ->
  forall st, exists st' evs l,
    dispatch cfg w contacts message st = (Ok tt, st')
    /\ trace st' = (trace st ++ evs)%list
    /\ log st' = (log st ++ l)%list
    /\ attempted l = contacts
    /\ List.length evs = List.length contacts
    /\ Forall (fun ev => ev_op ev = attach_op cfg /\ ev_raised ev <> None) evs
    /\ Forall2 (fun c o => exists e, o = Failed c e /\ In (Some e) (map ev_raised evs))
               contacts (outcomes l).
Proof.
  intros Hdown. induction contacts as [|c rest IH]; intros st.
  - exists st, [], []. simpl. unfold ret. rewrite !app_nil_r.
    repeat split; constructor.
  - destruct (fault w (trace st) (now st) (attach_op cfg)) as [e|] eqn:Hf;
      [|now apply Hdown in Hf].
    pose proof (send_attach_fails cfg w c message st e Hf) as Hsend.
    set (st1 := {| now := now st + latency w (trace st) (now st) (attach_op cfg);
                   trace := (trace st ++ [{| ev_stage := SAttach; ev_at := now st;
                                             ev_op := attach_op cfg;
                                             ev_raised := Some e |}])%list;
                   log := ((log st ++ [LSending c]) ++ [LSendError c e])%list |}) in *.
    destruct (IH st1) as (st2 & evs & l & Erun & Ht & Hl & Ha & Hlen & Hall & Hout).
    exists st2,
      ({| ev_stage := SAttach; ev_at := now st; ev_op := attach_op cfg;
          ev_raised := Some e |} :: evs),
      (LSending c :: LSendError c e :: l).
    unfold dispatch in *. simpl for_each. unfold bind at 1. rewrite Hsend.
    refine (conj Erun (conj _ (conj _ (conj _ (conj _ (conj _ _)))))).
    + rewrite Ht. unfold st1. simpl. now rewrite <- app_assoc.
    + rewrite Hl. unfold st1. simpl. now rewrite <- !app_assoc.
    + simpl. now rewrite Ha.
    + simpl. now rewrite Hlen.
    + constructor; [|exact Hall]. split; [reflexivity | discriminate].
    + simpl. constructor.
      * exists e. split; [reflexivity | now left].
      * eapply Forall2_impl; [|exact Hout].
        intros c' o (e' & -> & Hin). exists e'. split; [reflexivity | now right].
Qed.

Lemma attach_failure_fails_each_contact_witness :
  (forall h t, fault unreachable h t (attach_op cfg0) <> None)
  /\ exists st' evs l,
      dispatch cfg0 unreachable ["Alice"; "Bob"] hello_world initial = (Ok tt, st')
      /\ trace st' = (trace initial ++ evs)%list
      /\ log st' = (log initial ++ l)%list
      /\ attempted l = ["Alice"; "Bob"]
      /\ List.length evs = List.length ["Alice"; "Bob"]
      /\ Forall (fun ev => ev_op ev = attach_op cfg0 /\ ev_raised ev <> None) evs
      /\ Forall2 (fun c o => exists e, o = Failed c e /\ In (Some e) (map ev_raised evs))
                 ["Alice"; "Bob"] (outcomes l).
Proof.
  assert (Hdown : forall h t, fault unreachable h t (attach_op cfg0) <> None)
    by (intros h t; simpl; discriminate).
  split; [exact Hdown|].
  exact (attach_failure_fails_each_contact cfg0 unreachable hello_world
           ["Alice"; "Bob"] Hdown initial).
Defined.

(** C3 as stated fails: with the endpoint unreachable the run does not
    abort; both contacts are attempted, the attach is tried once per
    contact, and two Failed outcomes are recorded. *)
Lemma attach_failure_counterexample :
  let run := dispatch cfg0 unreachable ["Alice"; "Bob"] hello_world initial in
  fst run = Ok tt
  /\ attempted (run_log run) = ["Alice"; "Bob"]
  /\ List.length (filter (is_op is_attach) (run_trace run)) = 2
  /\ outcomes (run_log run)
     = [Failed "Alice" (WebDriverException "cannot connect to chrome");
        Failed "Bob" (WebDriverException "cannot connect to chrome")]
  /\ outcomes (run_log run) <> [].
Proof. vm_compute. repeat split; discriminate. Qed.

Lemma fetch_news_quiet net st :
  exists r l,
    fetch_news net st = (r, {| now := now st; trace := trace st; log := (log st ++ l)%list |})
    /\ Forall fetch_entry l.
Proof.
  unfold fetch_news, bind, logging, ret. cbn [now trace log].
  destruct (news_reply net) as [e | status json].
  - eexists _, [LFetching; LFetchException e]. simpl. rewrite <- app_assoc.
    split; [reflexivity | repeat constructor].
  - destruct (status =? 200)%Z.
    + destruct json as [body|].
      * eexists _, [LFetching; LFetched _]. simpl. rewrite <- app_assoc.
        split; [reflexivity | repeat constructor].
      * eexists _, [LFetching; LFetchException _]. simpl. rewrite <- app_assoc.
        split; [reflexivity | repeat constructor].
    + eexists _, [LFetching; LFetchStatus status]. simpl. rewrite <- app_assoc.
      split; [reflexivity | repeat constructor].
Qed.

(** C9: when the news-fetching step yields no article, [job] logs the
    warning and returns: no message is formatted, no contact's sequence
    is started, no browser command is issued. *)
Theorem job_skips_dispatch_without_articles cfg w net st :
  (forall s, fst (fetch_news net s) = Ok []) ->
  exists st' l,
    job cfg w net st = (Ok tt, st')
    /\ trace st' = trace st
    /\ log st' = (log st ++ l)%list
    /\ attempted l = []
    /\ outcomes l = []
    /\ (forall m, ~ In (LFormatted m) l)
    /\ In LNoArticles l.
Proof.
  intros Hnone. unfold job, bind.
  set (st0 := snd (logging LJobStarted st)).
  change (logging LJobStarted st) with (Ok tt, st0). cbv iota.
  destruct (fetch_news_quiet net st0) as (r & l & Ef & Hl).
  pose proof (Hnone st0) as Hr. rewrite Ef in Hr. simpl in Hr. subst r.
  rewrite Ef. cbv iota. unfold logging. cbn [now trace log].
  eexists _, (LJobStarted :: l ++ [LNoArticles])%list.
  split; [reflexivity|]. cbn [now trace log].
  assert (Hquiet : attempted l = [] /\ outcomes l = []
                   /\ forall m, ~ In (LFormatted m) l).
  { clear Ef. induction Hl as [|x r Hx Hr IH]; [now repeat split|].
    destruct IH as (Ha & Ho & Hm).
    destruct x; simpl in Hx; try contradiction; simpl;
      (repeat split; auto; intros m [Hin | Hin]; [discriminate | now apply (Hm m)]). }
  destruct Hquiet as (Ha & Ho & Hm).
  refine (conj eq_refl (conj _ (conj _ (conj _ (conj _ _))))).
  - unfold st0. simpl. now rewrite <- !app_assoc.
  - simpl. rewrite attempted_app, Ha. reflexivity.
  - simpl. rewrite outcomes_app, Ho. reflexivity.
  - intros m [Hin | Hin]; [discriminate|].
    apply in_app_or in Hin. destruct Hin as [Hin | [Hin | []]]; [|discriminate].
    now apply (Hm m).
  - right. apply in_or_app. right. now left.
Qed.

Lemma job_skips_dispatch_without_articles_witness :
  (forall s, fst (fetch_news news_down s) = Ok [])
  /\ exists st' l,
      job cfg0 (calm (chat_page ["Alice"; "Bob"])) news_down initial = (Ok tt, st')
      /\ trace st' = trace initial
      /\ log st' = (log initial ++ l)%list
      /\ attempted l = []
      /\ outcomes l = []
      /\ (forall m, ~ In (LFormatted m) l)
      /\ In LNoArticles l.
Proof.
  assert (Hnone : forall s, fst (fetch_news news_down s) = Ok [])
    by (intros s; reflexivity).
  split; [exact Hnone|].
  exact (job_skips_dispatch_without_articles cfg0 (calm (chat_page ["Alice"; "Bob"]))
           news_down initial Hnone).
Defined.

(** The scenario of two contacts of which the second has no entry: the
    first is delivered through all nine steps, the second fails at the
    contact lookup, and the loop completes. *)
Example alice_delivered_bob_failed :
  let run := dispatch cfg0 (calm (chat_page ["Alice"])) ["Alice"; "Bob"]
                      hello_world initial in
  fst run = Ok tt
  /\ outcomes (run_log run) = [Delivered "Alice"; Failed "Bob" NoSuchElementException]
  /\ entered (run_trace (send_whatsapp_message cfg0 (calm (chat_page ["Alice"])) "Alice"
                                               hello_world initial)) = all_stages
  /\ keystrokes (run_trace run)
     = [KText "Hello"; KShiftEnter; KText "World"; KShiftEnter; KEnter].
Proof. vm_compute. repeat split. Qed.

(** C6, on the code: the automation connection is released only at the
    end of a sequence that succeeded.  For Bob, who has no entry on the
    page, the attach succeeds, the sequence fails at the contact
    lookup, and no quit command is ever issued. *)
Theorem session_not_released_on_failure :
  let run := send_whatsapp_message cfg0 (calm (chat_page ["Alice"])) "Bob"
                                   hello_world initial in
  outcomes (run_log run) = [Failed "Bob" NoSuchElementException]
  /\ map ev_raised (filter (is_op is_attach) (run_trace run)) = [None]
  /\ filter (is_op is_quit) (run_trace run) = [].
Proof. vm_compute. repeat split. Qed.

(** The same sequence for Alice, who is on the page, does release it. *)
Lemma session_released_on_success :
  let run := send_whatsapp_message cfg0 (calm (chat_page ["Alice"])) "Alice"
                                   hello_world initial in
  outcomes (run_log run) = [Delivered "Alice"]
  /\ List.length (filter (is_op is_quit) (run_trace run)) = 1.
Proof. vm_compute. repeat split. Qed.

(** C7, on the code: the contact name is pasted into the selector
    unescaped.  For a name containing a double quote the selector is no
    longer an exact title match: here the only entry on the page,
    titled Mallory, is clicked and the message is delivered to it. *)
Theorem crafted_name_selects_other_entry :
  let run := send_whatsapp_message cfg0 (calm (chat_page ["Mallory"])) crafted_name
                                   hello_world initial in
  outcomes (run_log run) = [Delivered crafted_name]
  /\ clicked_in SSelectContact (run_trace run) = [chat_entry "Mallory"]
  /\ title_of (chat_entry "Mallory") <> Some crafted_name.
Proof. vm_compute. repeat split. discriminate. Qed.

(** A name with a quoted nickname makes the selector text ill-formed:
    the lookup is rejected although an entry with exactly that title is
    on the page. *)
Lemma quoted_name_rejected :
  let run := send_whatsapp_message cfg0 (calm (chat_page [nickname])) nickname
                                   hello_world initial in
  outcomes (run_log run) = [Failed nickname InvalidSelectorException]
  /\ In (chat_entry nickname) (elements (chat_page [nickname])).
Proof. vm_compute. split; [reflexivity | tauto]. Qed.

(** C8 as stated fails for the contact entry: on a page that shows
    Alice's entry 4 s after the start, the search box is found by
    polling (on the fourth lookup), but the single lookup of the entry
    at 3.5 s finds nothing and the sequence fails at once, although the
    entry is there half a second later, well within 20 s. *)
Lemma contact_lookup_counterexample :
  let run := send_whatsapp_message cfg0 slow "Alice" hello_world initial in
  outcomes (run_log run) = [Failed "Alice" NoSuchElementException]
  /\ List.length (lookups_in SLocateSearch (run_trace run)) = 4
  /\ map ev_at (lookups_in SSelectContact (run_trace run)) = [3500%N]
  /\ now (snd run) = 3500%N
  /\ find_elements (ByXPath (contact_xpath "Alice")) (page slow (run_trace run) 4000%N)
     = Some [chat_entry "Alice"]
  /\ (4000 < 3500 + 20000)%N.
Proof. vm_compute. repeat split. Qed.

End DispatcherFacts.

(** ** Lines, joins and stripped titles *)

Module LineFacts.
Import Py News Measures PyFacts.

Lemma split_cons sep s : exists h t, split sep s = h :: t.
Proof.
pose proof (split_nonempty sep s) as H.
destruct (split sep s) as [|h t]; [contradiction | now exists h, t].
Qed.

Lemma join_cons2 c p q r :
  join (String c EmptyString) (p :: q :: r)
  = (p ++ String c (join (String c EmptyString) (q :: r)))%string.
Proof. reflexivity. Qed.

Lemma join_head sep c h t :
  join sep (String c h :: t) = String c (join sep (h :: t)).
Proof. destruct t; reflexivity. Qed.

(** X1: joining the pieces of [s.split("\n")] with newlines gives [s]
    back, for every string. *)
Theorem join_split_lines s : join (String nl EmptyString) (split nl s) = s.
Proof.
induction s as [|c r IH]; [reflexivity|].
simpl split. destruct (split_cons nl r) as (h & t & E). rewrite E in *.
destruct (Ascii.eqb c nl) eqn:Ec.
- apply Ascii.eqb_eq in Ec. subst c. rewrite join_cons2, IH. reflexivity.
- rewrite join_head, IH. reflexivity.
Qed.

Lemma split_one_line sep s : count_char sep s = 0 -> split sep s = [s].
Proof.
induction s as [|c r IH]; simpl; [reflexivity|].
destruct (Ascii.eqb c sep); [discriminate|]. simpl. intros H. now rewrite IH.
Qed.

Lemma split_app_sep sep p r :
  split sep (p ++ String sep r) = (split sep p ++ split sep r)%list.
Proof.
induction p as [|c p IH]; simpl.
- now rewrite Ascii.eqb_refl.
- rewrite IH. destruct (Ascii.eqb c sep); [reflexivity|].
  destruct (split_cons sep p) as (h & t & E). rewrite E. reflexivity.
Qed.

Lemma flat_map_one_line ls :
  Forall one_line ls -> flat_map (split nl) ls = ls.
Proof.
induction 1 as [|p r Hp Hr IH]; simpl; [reflexivity|].
rewrite (split_one_line nl p Hp), IH. reflexivity.
Qed.

Lemma split_join_flat ls :
  ls <> [] ->
  split nl (join (String nl EmptyString) ls) = flat_map (split nl) ls.
Proof.
intros Hne. induction ls as [|p r IH]; [contradiction|].
destruct r as [|q r'].
- simpl. now rewrite app_nil_r.
- rewrite join_cons2, split_app_sep.
  rewrite IH by discriminate. reflexivity.
Qed.

(** X2: splitting a newline-join of at least one piece gives the lines
    of the pieces, one after the other; when no piece holds a newline
    these are the pieces themselves. *)
Theorem split_join_lines ls :
  ls <> [] ->
  split nl (join (String nl EmptyString) ls) = flat_map (split nl) ls
  /\ (Forall one_line ls -> split nl (join (String nl EmptyString) ls) = ls).
Proof.
intros Hne. pose proof (split_join_flat ls Hne) as H.
split; [exact H|]. intros Hall. rewrite H. now apply flat_map_one_line.
Qed.

Lemma split_join_lines_witness :
  ["Daily News Summary"; ""; "Have a great day!"] <> []
  /\ split nl (join (String nl EmptyString) ["Daily News Summary"; ""; "Have a great day!"])
     = flat_map (split nl) ["Daily News Summary"; ""; "Have a great day!"]
  /\ (Forall one_line ["Daily News Summary"; ""; "Have a great day!"] ->
      split nl (join (String nl EmptyString) ["Daily News Summary"; ""; "Have a great day!"])
      = ["Daily News Summary"; ""; "Have a great day!"]).
Proof.
assert (Hne : ["Daily News Summary"; ""; "Have a great day!"] <> []) by discriminate.
exact (conj Hne (split_join_lines _ Hne)).
Defined.

Lemma rstrip_empty s : rstrip s = EmptyString <-> blank s = true.
Proof.
induction s as [|c r IH]; simpl; [tauto|].
destruct (rstrip r) eqn:E.
- destruct (is_space c); simpl; [|split; discriminate].
  split; intros _; [now apply IH | reflexivity].
- split; [discriminate|]. intros H. apply andb_true_iff in H.
  destruct H as (_ & H). apply IH in H. discriminate.
Qed.

Lemma blank_lstrip s : blank (lstrip s) = blank s.
Proof.
induction s as [|c r IH]; simpl; [reflexivity|].
destruct (is_space c) eqn:Ec; simpl; [exact IH | now rewrite Ec].
Qed.

Lemma rstrip_last s :
  match last_char (rstrip s) with Some c => is_space c = false | None => True end.
Proof.
induction s as [|c r IH]; simpl; [exact I|].
destruct (rstrip r) as [|a r'] eqn:E.
- destruct (is_space c) eqn:Ec; simpl; [exact I | exact Ec].
- exact IH.
Qed.

Lemma rstrip_first c r :
  is_space c = false -> first_char (rstrip (String c r)) = Some c.
Proof. intros H. now rewrite rstrip_keep. Qed.

(** [strip] leaves no whitespace at either end, and the stripped string
    is empty exactly when the string holds nothing but whitespace. *)
Lemma strip_ends s :
  match first_char (strip s) with Some c => is_space c = false | None => True end
  /\ match last_char (strip s) with Some c => is_space c = false | None => True end
  /\ truthy (strip s) = negb (blank s).
Proof.
unfold strip. split; [|split].
- destruct (lstrip_head s) as [E | (c & r & E & Hc)]; rewrite E; [exact I|].
  now rewrite (rstrip_first c r Hc).
- apply rstrip_last.
- destruct (blank s) eqn:Hb.
  + rewrite <- blank_lstrip in Hb. apply rstrip_empty in Hb. now rewrite Hb.
  + destruct (rstrip (lstrip s)) eqn:E; [|reflexivity].
    apply rstrip_empty in E. rewrite blank_lstrip in E. congruence.
Qed.

End LineFacts.

(** ** Which sources are listed, and in what order *)

Module GroupingFacts.
Import Py News Measures Scenario PyFacts NewsFacts LineFacts.

Lemma dict_mem_keys k d : dict_mem k d = existsb (String.eqb k) (dict_keys d).
Proof.
unfold dict_mem, dict_keys. induction d as [|[k' v] r IH]; simpl; [reflexivity|].
destruct (String.eqb k k'); [reflexivity | exact IH].
Qed.

Lemma dict_keys_set k v d :
  dict_keys (dict_set k v d)
  = if dict_mem k d then dict_keys d else (dict_keys d ++ [k])%list.
Proof.
unfold dict_mem, dict_keys. induction d as [|[k' v'] r IH]; simpl; [reflexivity|].
destruct (String.eqb k k') eqn:E; simpl; [reflexivity|].
rewrite IH. destruct (dict_get k r); reflexivity.
Qed.

Lemma dict_mem_set k v d : dict_mem k (dict_set k v d) = true.
Proof. unfold dict_mem. now rewrite dict_get_set_same. Qed.

(** The keys after one iteration of the loop. *)
Lemma group_step_keys max d a :
  dict_keys (group_step max d a)
  = if truthy (headline_of a)
    then if dict_mem (source_of a) d then dict_keys d
         else (dict_keys d ++ [source_of a])%list
    else dict_keys d.
Proof.
unfold group_step.
destruct (truthy (headline_of a)); simpl negb; cbv iota; [|reflexivity].
set (src := source_of a).
set (d1 := if dict_mem src d then d else dict_set src [] d).
assert (Hm1 : dict_mem src d1 = true).
{ unfold d1. destruct (dict_mem src d) eqn:E; [exact E | apply dict_mem_set]. }
assert (Hk1 : dict_keys d1 = if dict_mem src d then dict_keys d
                             else (dict_keys d ++ [src])%list).
{ unfold d1. destruct (dict_mem src d) eqn:E; [reflexivity|].
  rewrite dict_keys_set, E. reflexivity. }
destruct (dict_get src d1) as [hs|]; [|exact Hk1].
destruct (Z.of_nat (List.length hs) <? max)%Z; [|exact Hk1].
rewrite dict_keys_set, Hm1. exact Hk1.
Qed.

Lemma first_seen_snoc l : forall seen x,
  first_seen seen (l ++ [x])
  = (first_seen seen l
     ++ (if existsb (String.eqb x) seen || existsb (String.eqb x) l then [] else [x]))%list.
Proof.
induction l as [|y r IH]; intros seen x; simpl.
- rewrite orb_false_r. destruct (existsb (String.eqb x) seen); reflexivity.
- destruct (existsb (String.eqb y) seen) eqn:Ey.
  + rewrite IH. f_equal.
    destruct (String.eqb x y) eqn:Exy; [|reflexivity].
    apply String.eqb_eq in Exy. subst y. rewrite Ey. reflexivity.
  + simpl. rewrite IH. simpl. f_equal.
    destruct (String.eqb x y); simpl; [now rewrite orb_true_r | reflexivity].
Qed.

Lemma first_seen_mem x l : forall seen,
  existsb (String.eqb x) seen || existsb (String.eqb x) (first_seen seen l)
  = existsb (String.eqb x) seen || existsb (String.eqb x) l.
Proof.
induction l as [|y r IH]; intros seen; simpl; [reflexivity|].
destruct (existsb (String.eqb y) seen) eqn:Ey.
- rewrite IH. destruct (String.eqb x y) eqn:Exy; [|reflexivity].
  apply String.eqb_eq in Exy. subst y. now rewrite Ey.
- simpl. specialize (IH (y :: seen)). simpl in IH.
  destruct (String.eqb x y); simpl in *; [now rewrite !orb_true_r|].
  exact IH.
Qed.

Lemma first_seen_fresh l : forall seen,
  NoDup (first_seen seen l)
  /\ forall x, In x (first_seen seen l) -> existsb (String.eqb x) seen = false.
Proof.
induction l as [|y r IH]; intros seen; simpl.
- split; [constructor | intros x []].
- destruct (existsb (String.eqb y) seen) eqn:Ey; [apply IH|].
  destruct (IH (y :: seen)) as (Hnd & Hfresh). split.
  + constructor; [|exact Hnd]. intros Hin. apply Hfresh in Hin.
    simpl in Hin. now rewrite String.eqb_refl in Hin.
  + intros x [<- | Hin]; [exact Ey|].
    apply Hfresh in Hin. simpl in Hin. apply orb_false_iff in Hin. tauto.
Qed.

Lemma contributing_sources_snoc articles a :
  contributing_sources (articles ++ [a])
  = (contributing_sources articles
     ++ (if truthy (headline_of a) then [source_of a] else []))%list.
Proof.
unfold contributing_sources. rewrite filter_app, map_app. simpl.
destruct (truthy (headline_of a)); reflexivity.
Qed.

Lemma fold_group_keys max rest : forall done d,
  dict_keys d = first_seen [] (contributing_sources done) ->
  dict_keys (fold_left (group_step max) rest d)
  = first_seen [] (contributing_sources (done ++ rest)).
Proof.
induction rest as [|a r IH]; intros done d Inv; simpl.
- now rewrite app_nil_r.
- replace (done ++ a :: r)%list with ((done ++ [a]) ++ r)%list
    by (now rewrite <- app_assoc).
  apply IH. rewrite group_step_keys, contributing_sources_snoc.
  destruct (truthy (headline_of a)); [|now rewrite app_nil_r].
  rewrite first_seen_snoc. simpl. rewrite dict_mem_keys, Inv.
  pose proof (first_seen_mem (source_of a) (contributing_sources done) []) as Hm.
  simpl in Hm. rewrite Hm.
  destruct (existsb (String.eqb (source_of a)) (contributing_sources done));
    [now rewrite app_nil_r | reflexivity].
Qed.

Lemma contributes_in_sources source articles :
  existsb (contributes source) articles
  = existsb (String.eqb source) (contributing_sources articles).
Proof.
unfold contributing_sources, contributes.
induction articles as [|a r IH]; simpl; [reflexivity|].
destruct (truthy (headline_of a)); simpl.
- rewrite andb_true_r, IH, (String.eqb_sym (source_of a) source). reflexivity.
- rewrite andb_false_r. exact IH.
Qed.

(** X4: the sources listed by the grouping are the sources of the
    articles with a non-blank title, each once, in the order in which
    they first appear in the input; the limit has no say in which sources
    are listed.  A source is listed exactly when some article contributes
    a headline to it. *)
Theorem grouped_sources_in_first_appearance_order articles max :
  dict_keys (group_articles_by_source articles max)
  = first_seen [] (contributing_sources articles)
  /\ NoDup (dict_keys (group_articles_by_source articles max))
  /\ forall source,
      dict_mem source (group_articles_by_source articles max)
      = existsb (contributes source) articles.
Proof.
assert (Hk : dict_keys (group_articles_by_source articles max)
             = first_seen [] (contributing_sources articles)).
{ unfold group_articles_by_source.
  apply (fold_group_keys max articles [] []). reflexivity. }
split; [exact Hk|]. split.
- rewrite Hk. apply first_seen_fresh.
- intros source. rewrite dict_mem_keys, Hk, contributes_in_sources.
  pose proof (first_seen_mem source (contributing_sources articles) []) as Hm.
  exact Hm.
Qed.

Lemma endswith_snoc s c : endswith (s ++ String c EmptyString) c = true.
Proof.
induction s as [|a r IH]; simpl; [apply Ascii.eqb_refl|].
destruct (r ++ String c EmptyString)%string eqn:E; [|exact IH].
destruct r; discriminate.
Qed.

(** X5: every headline bullet of the message ends with a period: one is
    appended unless the headline already ends with one, so a period is
    never doubled. *)
Theorem headline_line_ends_with_period headline :
  endswith (headline_line headline) "."%char = true
  /\ headline_line headline
     = ("* " ++ headline ++ (if endswith headline "."%char then "" else "."))%string.
Proof.
unfold headline_line. destruct (endswith headline "."%char) eqn:E.
- split.
  + simpl. destruct headline as [|c r]; [discriminate|].
    exact E.
  + assert (H : (headline ++ "")%string = headline)
      by (clear; induction headline as [|a r IH]; simpl; [reflexivity | now rewrite IH]).
    now rewrite H.
- split; [|reflexivity]. simpl.
  destruct (headline ++ ".")%string eqn:Eh; [destruct headline; discriminate|].
  rewrite <- Eh. apply endswith_snoc.
Qed.

Lemma message_lines_frame grouped sentiment quote soccer :
  exists middle,
    message_lines grouped sentiment quote soccer
    = (["Daily News Summary"; ""] ++ middle ++ [""; "Have a great day!"])%list.
Proof.
unfold message_lines.
exists (flat_map source_block grouped
        ++ (if truthy soccer then [soccer; ""] else [])
        ++ [("Overall Sentiment: " ++ sentiment)%string]
        ++ (if truthy quote then [("Inspirational Quote: " ++ quote)%string] else []))%list.
now rewrite <- !app_assoc.
Qed.

(** X6: whatever the grouping, sentiment, quote and soccer section, the
    formatted message read line by line opens with "Daily News Summary"
    and an empty line and closes with an empty line and "Have a great
    day!"; its lines are the lines of the pieces the function collects,
    in order. *)
Theorem message_opens_and_closes grouped sentiment quote soccer :
  split nl (create_formatted_message_from_grouping grouped sentiment quote soccer)
  = flat_map (split nl) (message_lines grouped sentiment quote soccer)
  /\ exists middle,
      split nl (create_formatted_message_from_grouping grouped sentiment quote soccer)
      = (["Daily News Summary"; ""] ++ middle ++ [""; "Have a great day!"])%list.
Proof.
unfold create_formatted_message_from_grouping.
assert (Hne : message_lines grouped sentiment quote soccer <> []).
{ destruct (message_lines_frame grouped sentiment quote soccer) as (m & ->). discriminate. }
pose proof (split_join_flat _ Hne) as Hs.
split; [exact Hs|]. rewrite Hs.
destruct (message_lines_frame grouped sentiment quote soccer) as (m & ->).
exists (flat_map (split nl) m). rewrite !flat_map_app. reflexivity.
Qed.

Lemma last_char_some c r : exists x, last_char (String c r) = Some x.
Proof.
revert c. induction r as [|a r IH]; intros c; simpl; [now exists c | apply IH].
Qed.

Lemma headline_trimmed a : has_title a = true -> trimmed (headline_of a).
Proof.
unfold has_title, headline_of. fold (raw_title a). intros Hb.
destruct (strip_ends (raw_title a)) as (Hf & Hl & Ht).
rewrite Hb in Ht. destruct (strip (raw_title a)) as [|c r] eqn:E; [discriminate|].
split; [exact Hf|].
destruct (last_char_some c r) as (x & Hx). rewrite Hx in *. exact Hl.
Qed.

Lemma contributes_has_title source a :
  contributes source a = true <-> source_of a = source /\ has_title a = true.
Proof.
unfold contributes, has_title, headline_of. fold (raw_title a).
destruct (strip_ends (raw_title a)) as (_ & _ & ->).
rewrite andb_true_iff, String.eqb_eq. tauto.
Qed.

Lemma group_step_untitled max d a : has_title a = false -> group_step max d a = d.
Proof.
unfold has_title, group_step, headline_of. fold (raw_title a). intros Hb.
destruct (strip_ends (raw_title a)) as (_ & _ & ->). now rewrite Hb.
Qed.

(** X3: every headline the grouping stores is the stripped title of an
    article of that source whose title holds more than whitespace; it is
    not empty and has no whitespace at either end. *)
Theorem stored_headlines_are_trimmed articles max source hs :
  dict_get source (group_articles_by_source articles max) = Some hs ->
  Forall (fun h => trimmed h
                   /\ exists a, In a articles /\ source_of a = source
                                /\ has_title a = true /\ h = strip (raw_title a)) hs.
Proof.
rewrite group_articles_by_source_get.
destruct (existsb (contributes source) articles); [|discriminate].
intros [= <-]. apply Forall_forall. intros h Hin.
assert (Hin' : In h (headlines_for source articles)).
{ rewrite <- (firstn_skipn (Z.to_nat max)). apply in_or_app. now left. }
unfold headlines_for in Hin'. apply in_map_iff in Hin'.
destruct Hin' as (a & <- & Ha). apply filter_In in Ha. destruct Ha as (Ha & Hc).
apply contributes_has_title in Hc. destruct Hc as (Hs & Ht).
split; [now apply headline_trimmed|]. now exists a.
Qed.

Lemma stored_headlines_are_trimmed_witness :
  dict_get "CNN" (group_articles_by_source sample_articles 2)
  = Some ["Rates rise"; "Storm nears coast"]
  /\ Forall (fun h => trimmed h
                      /\ exists a, In a sample_articles /\ source_of a = "CNN"
                                   /\ has_title a = true /\ h = strip (raw_title a))
            ["Rates rise"; "Storm nears coast"].
Proof.
assert (H : dict_get "CNN" (group_articles_by_source sample_articles 2)
            = Some ["Rates rise"; "Storm nears coast"]) by reflexivity.
exact (conj H (stored_headlines_are_trimmed sample_articles 2 "CNN" _ H)).
Defined.

(** X19: articles whose title is missing or holds nothing but whitespace
    have no effect on the grouping: dropping them from the input gives
    the same dictionary, for every limit. *)
Theorem untitled_articles_are_ignored articles max :
  group_articles_by_source (filter has_title articles) max
  = group_articles_by_source articles max.
Proof.
unfold group_articles_by_source. generalize (@nil (string * list string)) as d.
induction articles as [|a r IH]; intros d; simpl; [reflexivity|].
destruct (has_title a) eqn:Ht; simpl.
- apply IH.
- rewrite (group_step_untitled max d a Ht). apply IH.
Qed.

End GroupingFacts.

(** ** The fetchers and the soccer section *)

Module FetchFacts.
Import Py Dom Selenium News App Reading Sports Measures Scenario PyFacts LineFacts.

(** X7: [fetch_soccer_matches] never raises and logs two lines, the
    first announcing the league.  It returns a non-empty list only when
    the service answers 200 with a list of events; for every other
    answer (exception, other status, undecodable body, missing or null
    ["events"]) it returns the empty list, and the section formatted
    from it then reads "No upcoming soccer matches", so a failed fetch
    cannot be told from an empty fixture list in the message. *)
Theorem soccer_fetch_failures_read_as_no_matches reply league_id :
  (exists x, snd (fetch_soccer_matches reply league_id) = [SFetching league_id; x])
  /\ ((exists events,
         events <> [] /\ reply = HttpReply 200 (Some (EventsList events))
         /\ fetch_soccer_matches reply league_id
            = (events, [SFetching league_id; SFetched (List.length events)]))
      \/ (fst (fetch_soccer_matches reply league_id) = []
          /\ create_formatted_soccer_matches_message
               (fst (fetch_soccer_matches reply league_id))
             = (soccer_header ++ String nl no_matches_line)%string)).
Proof.
unfold fetch_soccer_matches.
destruct reply as [e | status [[| | events]|]].
- split; [eexists; reflexivity | right; now split].
- destruct (status =? 200)%Z; (split; [eexists; reflexivity | right; now split]).
- destruct (status =? 200)%Z; (split; [eexists; reflexivity | right; now split]).
- destruct (status =? 200)%Z eqn:Es; [|split; [eexists; reflexivity | right; now split]].
  apply Z.eqb_eq in Es. subst status.
  split; [eexists; reflexivity|].
  destruct events as [|ev r]; [right; now split|].
  left. exists (ev :: r). repeat split. discriminate.
- destruct (status =? 200)%Z; (split; [eexists; reflexivity | right; now split]).
Qed.

Lemma count_char_app c a b :
  count_char c (a ++ b) = count_char c a + count_char c b.
Proof.
induction a as [|x r IH]; simpl; [reflexivity|]. rewrite IH. lia.
Qed.

Lemma soccer_line_one_line event : one_line_event event -> one_line (soccer_line event).
Proof.
intros (H1 & H2 & H3 & H4). unfold one_line, soccer_line in *.
rewrite !count_char_app, H1, H2, H3, H4. reflexivity.
Qed.

(** X8: the soccer section always opens with its header line.  When no
    field of an event holds a newline, the section has one line per
    event after the header, in input order, with "N/A" for a missing
    team and nothing for a missing date or time; for no event it has the
    single line "No upcoming soccer matches". *)
Theorem soccer_section_lines events :
  Forall one_line_event events ->
  split nl (create_formatted_soccer_matches_message events)
  = soccer_header :: match events with
                     | [] => [no_matches_line]
                     | _ :: _ => map soccer_line events
                     end.
Proof.
intros Hall. destruct events as [|ev r]; [reflexivity|].
unfold create_formatted_soccer_matches_message.
assert (Hne : soccer_header :: map soccer_line (ev :: r) <> []) by discriminate.
rewrite (split_join_flat _ Hne). apply flat_map_one_line.
constructor; [reflexivity|].
apply Forall_map. eapply Forall_impl; [|exact Hall].
intros e He. now apply soccer_line_one_line.
Qed.

Lemma soccer_section_lines_witness :
  Forall one_line_event [derby]
  /\ split nl (create_formatted_soccer_matches_message [derby])
     = [soccer_header; "* Arsenal vs N/A - 2025-03-01 "].
Proof.
assert (H : Forall one_line_event [derby]) by (repeat constructor).
exact (conj H (soccer_section_lines [derby] H)).
Defined.

(** X9: [fetch_news] never raises, issues no browser command and logs
    two lines, the first announcing the fetch.  It returns a non-empty
    list only when NewsAPI answers 200 with a decodable body holding that
    list under ["articles"]; for an exception, another status, an
    undecodable body or a missing key it returns the empty list. *)
Theorem fetch_news_outcomes net st :
  exists articles x,
    fetch_news net st
    = (Ok articles,
       {| now := now st; trace := trace st;
          log := (log st ++ [LFetching; x])%list |})
    /\ ((news_reply net = HttpReply 200 (Some (Some articles))
         /\ x = LFetched (List.length articles))
        \/ (articles = []
            /\ (forall l, l <> [] -> news_reply net <> HttpReply 200 (Some (Some l))))).
Proof.
unfold fetch_news, bind, logging, ret. cbn [now trace log].
destruct (news_reply net) as [e | status json] eqn:Er.
- eexists [], _. simpl. rewrite <- app_assoc. split; [reflexivity|].
  right. split; [reflexivity | discriminate].
- destruct (status =? 200)%Z eqn:Es.
  + apply Z.eqb_eq in Es. subst status. destruct json as [[l|]|].
    * exists l, (LFetched (List.length l)). simpl. rewrite <- app_assoc.
      split; [reflexivity | now left].
    * eexists [], _. simpl. rewrite <- app_assoc. split; [reflexivity|].
      right. split; [reflexivity | discriminate].
    * eexists [], _. simpl. rewrite <- app_assoc. split; [reflexivity|].
      right. split; [reflexivity | discriminate].
  + eexists [], _. simpl. rewrite <- app_assoc. split; [reflexivity|].
    right. split; [reflexivity|]. intros l _ [= E]. subst status. discriminate.
Qed.

(** X10: [fetch_inspirational_quote] never raises and issues no browser
    command.  For every failure (exception, other status, undecodable
    body, empty list) it logs one line and returns the empty string, so
    the message carries no quote line.  For a 200 answer with at least
    one object it logs nothing and returns a non-empty string that starts
    with a double quote, even when the object has neither ["q"] nor
    ["a"]: the quote line is then present with an empty quotation. *)
Theorem fetch_quote_outcomes net st :
  exists quote l,
    fetch_inspirational_quote net st
    = (Ok quote, {| now := now st; trace := trace st; log := (log st ++ l)%list |})
    /\ ((exists data rest,
           quote_reply net = HttpReply 200 (Some (data :: rest))
           /\ quote = quote_text data /\ l = []
           /\ first_char quote = Some dq /\ truthy quote = true)
        \/ (quote = EmptyString /\ exists x, l = [x])).
Proof.
unfold fetch_inspirational_quote, bind, logging, ret. cbn [now trace log].
destruct (quote_reply net) as [e | status json] eqn:Er.
- eexists _, _. split; [reflexivity|]. right. split; [reflexivity | now eexists].
- destruct (status =? 200)%Z eqn:Es.
  + apply Z.eqb_eq in Es. subst status. destruct json as [[|data rest]|].
    * eexists _, _. split; [reflexivity|]. right. split; [reflexivity | now eexists].
    * exists (quote_text data), []. rewrite app_nil_r. destruct st. split; [reflexivity|].
      left. exists data, rest. now repeat split.
    * eexists _, _. split; [reflexivity|]. right. split; [reflexivity | now eexists].
  + eexists _, _. split; [reflexivity|]. right. split; [reflexivity | now eexists].
Qed.

End FetchFacts.

(** ** More about runs: what is issued, sessions, pace *)

Module CommandFacts.
Import Py Dom Selenium News App Reading Measures Scenario RunFacts.
Local Open Scope prog_scope.

Section Browser.
Variable w : World.

(** What the loop of a polled wait leaves behind, whatever the fuel and
    however it ends. *)
Lemma until_loop_shape sg l usable : forall fuel end_time st r st',
  until_loop fuel sg end_time (probe w sg l usable) st = (r, st') ->
  exists evs,
    trace st' = (trace st ++ evs)%list
    /\ log st' = log st
    /\ (now st <= now st')%N
    /\ Forall (fun ev => ev_stage ev = sg /\ (ev_op ev = OFind l \/ ev_op ev = OSleep poll)) evs
    /\ (instant w -> now st' <= N.max (now st) (end_time + poll))%N.
Proof.
induction fuel as [|f IH]; intros end_time st r st' E.
- simpl in E. injection E as <- <-. exists []. rewrite app_nil_r.
  refine (conj eq_refl (conj eq_refl (conj (N.le_refl _) (conj (Forall_nil _) _)))).
  intros _. lia.
- change (until_loop (S f) sg end_time (probe w sg l usable) st)
    with (match probe w sg l usable st with
          | (Ok (Some v), st1) => (Ok v, st1)
          | (Ok None, st1) =>
              if (end_time <? now st1)%N then (Raise TimeoutException, st1)
              else (sleep sg poll ;; until_loop f sg end_time (probe w sg l usable)) st1
          | (Raise e, st1) =>
              if is_no_such_element e
              then if (end_time <? now st1)%N then (Raise TimeoutException, st1)
                   else (sleep sg poll ;; until_loop f sg end_time (probe w sg l usable)) st1
              else (Raise e, st1)
          | (OutOfFuel, st1) => (OutOfFuel, st1)
          end) in E.
  rewrite probe_run in E.
  set (st1 := after_probe w sg l st) in *.
  assert (Hone : forall r0, (r0, st1) = (r, st') ->
            exists evs,
              trace st' = (trace st ++ evs)%list /\ log st' = log st
              /\ (now st <= now st')%N
              /\ Forall (fun ev => ev_stage ev = sg
                                   /\ (ev_op ev = OFind l \/ ev_op ev = OSleep poll)) evs
              /\ (instant w -> now st' <= N.max (now st) (end_time + poll))%N).
  { intros r0 [= _ <-]. exists [probe_event w sg l st].
    refine (conj eq_refl (conj eq_refl (conj _ (conj _ _)))).
    - simpl. lia.
    - constructor; [split; [reflexivity | now left] | constructor].
    - intros Hi. simpl. rewrite Hi. lia. }
  assert (Hagain :
            (if (end_time <? now st1)%N then (Raise TimeoutException, st1)
             else (sleep sg poll ;; until_loop f sg end_time (probe w sg l usable)) st1)
            = (r, st') ->
            exists evs,
              trace st' = (trace st ++ evs)%list /\ log st' = log st
              /\ (now st <= now st')%N
              /\ Forall (fun ev => ev_stage ev = sg
                                   /\ (ev_op ev = OFind l \/ ev_op ev = OSleep poll)) evs
              /\ (instant w -> now st' <= N.max (now st) (end_time + poll))%N).
  { destruct (end_time <? now st1)%N eqn:Hto; [apply Hone|].
    apply N.ltb_ge in Hto. unfold bind, sleep. intros E2.
    destruct (IH _ _ _ _ E2) as (evs2 & Ht & Hl & Hn & Hall & Hi).
    exists (probe_event w sg l st
            :: {| ev_stage := sg; ev_at := now st1; ev_op := OSleep poll; ev_raised := None |}
            :: evs2).
    refine (conj _ (conj _ (conj _ (conj _ _)))).
    - rewrite Ht. simpl. now rewrite <- !app_assoc.
    - rewrite Hl. reflexivity.
    - simpl in Hn. simpl. lia.
    - constructor; [split; [reflexivity | now left]|].
      constructor; [split; [reflexivity | now right] | exact Hall].
    - intros Hin. specialize (Hi Hin). simpl in Hi. simpl in Hto.
      rewrite Hin in *. lia. }
  destruct (lookup w l st) as [e | e |].
  + destruct (usable e); [now apply (Hone (Ok e)) | now apply Hagain].
  + destruct (is_no_such_element e); [now apply Hagain | now apply (Hone (Raise e))].
  + now apply (Hone OutOfFuel).
Qed.

(** *** Commands issued *)

Lemma only_weaken {A} (Q Q' : stage -> op -> Prop) (L L' : entry -> Prop) (a : M A) :
  (forall sg o, Q sg o -> Q' sg o) -> (forall x, L x -> L' x) ->
  only Q L a -> only Q' L' a.
Proof.
intros Himp Hl H st r st' E.
destruct (H st r st' E) as (evs & l & Ht & Hlog & Hall & Hlall).
exists evs, l. repeat split; auto.
- eapply Forall_impl; [|exact Hall]. intros ev. apply Himp.
- eapply Forall_impl; [|exact Hlall]. exact Hl.
Qed.

Lemma only_ret {A} Q L (x : A) : only Q L (ret x).
Proof.
intros st r st' [= <- <-]. exists [], []. rewrite !app_nil_r. now repeat split.
Qed.

Lemma only_throw {A} Q L e : only Q L (@throw A e).
Proof.
intros st r st' [= <- <-]. exists [], []. rewrite !app_nil_r. now repeat split.
Qed.

Lemma only_logging Q (L : entry -> Prop) x : L x -> only Q L (logging x).
Proof.
intros HL st r st' [= <- <-]. exists [], [x]. rewrite app_nil_r.
repeat split; auto.
Qed.

Lemma only_command (Q : stage -> op -> Prop) L sg o : Q sg o -> only Q L (command w sg o).
Proof.
intros HQ st r st' E. unfold command in E.
exists [{| ev_stage := sg; ev_at := now st; ev_op := o;
           ev_raised := fault w (trace st) (now st) o |}], [].
rewrite app_nil_r.
destruct (fault w (trace st) (now st) o); injection E as <- <-;
  (refine (conj eq_refl (conj eq_refl (conj _ (Forall_nil _))));
   constructor; [exact HQ | constructor]).
Qed.

Lemma only_sleep (Q : stage -> op -> Prop) L sg ms :
  Q sg (OSleep ms) -> only Q L (sleep sg ms).
Proof.
intros HQ st r st' [= <- <-].
exists [{| ev_stage := sg; ev_at := now st; ev_op := OSleep ms; ev_raised := None |}], [].
rewrite app_nil_r.
refine (conj eq_refl (conj eq_refl (conj _ (Forall_nil _)))).
constructor; [exact HQ | constructor].
Qed.

Lemma only_find_element (Q : stage -> op -> Prop) L sg l :
  Q sg (OFind l) -> only Q L (find_element w sg l).
Proof.
intros HQ st r st' [= <- <-].
exists [{| ev_stage := sg; ev_at := now st; ev_op := OFind l;
           ev_raised := raised (lookup w l st) |}], [].
rewrite app_nil_r.
refine (conj eq_refl (conj eq_refl (conj _ (Forall_nil _)))).
constructor; [exact HQ | constructor].
Qed.

Lemma only_until (Q : stage -> op -> Prop) L sg l usable timeout :
  Q sg (OFind l) -> Q sg (OSleep poll) ->
  only Q L (until sg timeout (probe w sg l usable)).
Proof.
intros HQ1 HQ2 st r st' E. unfold until in E.
destruct (until_loop_shape _ _ _ _ _ _ _ _ E) as (evs & Ht & Hl & _ & Hall & _).
exists evs, []. rewrite app_nil_r.
refine (conj Ht (conj Hl (conj _ (Forall_nil _)))).
eapply Forall_impl; [|exact Hall].
intros ev (-> & [-> | ->]); assumption.
Qed.

Lemma only_bind {A B} Q L (a : M A) (f : A -> M B) :
  only Q L a -> (forall x, only Q L (f x)) -> only Q L (bind a f).
Proof.
intros Ha Hf st r st' E. unfold bind in E.
destruct (a st) as [ra st1] eqn:Ea.
destruct (Ha st ra st1 Ea) as (evs1 & l1 & Ht1 & Hl1 & H1 & HL1).
destruct ra as [x | e |].
- destruct (Hf x st1 r st' E) as (evs2 & l2 & Ht2 & Hl2 & H2 & HL2).
  exists (evs1 ++ evs2)%list, (l1 ++ l2)%list.
  rewrite Ht2, Ht1, Hl2, Hl1, !app_assoc.
  refine (conj eq_refl (conj eq_refl (conj _ _))); now apply Forall_app.
- injection E as <- <-. now exists evs1, l1.
- injection E as <- <-. now exists evs1, l1.
Qed.

Lemma only_for_each {A} Q L (xs : list A) (body : A -> M unit) :
  (forall x, only Q L (body x)) -> only Q L (for_each xs body).
Proof.
intros Hb. induction xs as [|x r IH]; simpl.
- apply only_ret.
- apply only_bind; [apply Hb | intros _; exact IH].
Qed.

Lemma only_try_except {A} Q L (body : M A) (handler : exn -> M A) :
  only Q L body -> (forall e, only Q L (handler e)) -> only Q L (try_except body handler).
Proof.
intros Hb Hh st r st' E. unfold try_except in E.
destruct (body st) as [rb st1] eqn:Eb.
destruct (Hb st rb st1 Eb) as (evs1 & l1 & Ht1 & Hl1 & H1 & HL1).
destruct rb as [x | e |].
- injection E as <- <-. now exists evs1, l1.
- destruct (Hh e st1 r st' E) as (evs2 & l2 & Ht2 & Hl2 & H2 & HL2).
  exists (evs1 ++ evs2)%list, (l1 ++ l2)%list.
  rewrite Ht2, Ht1, Hl2, Hl1, !app_assoc.
  refine (conj eq_refl (conj eq_refl (conj _ _))); now apply Forall_app.
- injection E as <- <-. now exists evs1, l1.
Qed.

Lemma only_compose_and_send (Q : stage -> op -> Prop) L box message :
  (forall k, Q SComposeAndSend (OSendKeys box k)) ->
  only Q L (compose_and_send w box message).
Proof.
intros HQ. unfold compose_and_send, type_line.
apply only_bind; [|intros _; now apply only_command].
apply only_for_each. intros line.
apply only_bind; [|intros _]; now apply only_command.
Qed.

Variable cfg : Config.

(** One step of the sequence under a command invariant: the primitive
    at the head, then the rest. *)
Ltac only_step tac :=
  first
    [ apply only_command; tac
    | apply only_sleep; tac
    | apply only_logging; tac
    | apply only_find_element; tac
    | rewrite presence_is_probe; apply only_until; tac
    | rewrite clickable_is_probe; apply only_until; tac
    | apply only_compose_and_send; intros; tac ].

Ltac only_chain tac :=
  repeat (apply only_bind; [only_step tac | intros ?]); only_step tac.

Ltac permit :=
  try exact I;
  try match goal with k : keys |- _ => destruct k end;
  simpl; intuition (auto; congruence).

(** Every command of a contact's sequence is one the configuration and
    the contact allow. *)
Lemma only_permitted_send_body contact_name message :
  only (permitted cfg contact_name) (fun _ => True)
       (send_body cfg w contact_name message).
Proof.
unfold send_body. only_chain permit.
Qed.

Lemma only_for_each_in {A} Q L (xs : list A) (body : A -> M unit) :
  (forall x, In x xs -> only Q L (body x)) -> only Q L (for_each xs body).
Proof.
induction xs as [|x r IH]; intros Hb; simpl.
- apply only_ret.
- apply only_bind; [apply Hb; now left | intros _; apply IH].
  intros y Hy. apply Hb. now right.
Qed.

Lemma only_send_whatsapp_message contact_name message :
  only (permitted cfg contact_name) (fun _ => True)
       (send_whatsapp_message cfg w contact_name message).
Proof.
unfold send_whatsapp_message.
apply only_bind; [now apply only_logging | intros _].
apply only_try_except; [apply only_permitted_send_body|].
intros e. now apply only_logging.
Qed.

Lemma only_dispatch contacts message :
  only (fun sg o => exists c, In c contacts /\ permitted cfg c sg o) (fun _ => True)
       (dispatch cfg w contacts message).
Proof.
unfold dispatch. apply only_for_each_in. intros c Hc.
eapply only_weaken; [| |apply only_send_whatsapp_message]; [|auto].
intros sg o H. now exists c.
Qed.

Variable net : Services.

Lemma only_fetch_news Q : only Q (fun _ => True) (fetch_news net).
Proof.
unfold fetch_news.
apply only_bind; [now apply only_logging | intros _].
destruct (news_reply net) as [e | status json].
- apply only_bind; [now apply only_logging | intros _; apply only_ret].
- destruct (status =? 200)%Z; [destruct json|];
    (apply only_bind; [now apply only_logging | intros _; apply only_ret]).
Qed.

Lemma only_fetch_quote Q : only Q (fun _ => True) (fetch_inspirational_quote net).
Proof.
unfold fetch_inspirational_quote.
destruct (quote_reply net) as [e | status json].
- apply only_bind; [now apply only_logging | intros _; apply only_ret].
- destruct (status =? 200)%Z; [destruct json as [[|d r]|]|];
    first [ apply only_ret
          | apply only_bind; [now apply only_logging | intros _; apply only_ret] ].
Qed.

Lemma only_group_fetched Q L articles max : only Q L (group_fetched articles max).
Proof.
unfold group_fetched. destruct (group_loop max articles []); [apply only_throw | apply only_ret].
Qed.

Lemma only_sentiment_of Q L text : only Q L (sentiment_of net text).
Proof.
unfold sentiment_of. destruct (analyzer_error net); [apply only_throw | apply only_ret].
Qed.

(** *** Sessions *)

Lemma attaches_app e1 e2 : attaches (e1 ++ e2) = attaches e1 + attaches e2.
Proof. unfold attaches. now rewrite filter_app, length_app. Qed.

Lemma quits_app e1 e2 : quits (e1 ++ e2) = quits e1 + quits e2.
Proof. unfold quits. now rewrite filter_app, length_app. Qed.

Lemma delivered_app l1 l2 : delivered (l1 ++ l2) = delivered l1 + delivered l2.
Proof. unfold delivered. now rewrite DispatcherFacts.outcomes_app, filter_app, length_app. Qed.

Lemma neutral_counts evs :
  Forall (fun ev => session_neutral (ev_stage ev) (ev_op ev)) evs ->
  attaches evs = 0 /\ quits evs = 0.
Proof.
unfold attaches, quits, is_op.
induction 1 as [|ev r (Ha & Hq) Hr (IHa & IHq)]; [now split|].
simpl. rewrite Ha, Hq. now split.
Qed.

Lemma loaded_counts l :
  Forall (fun x => x = LLoaded) l -> delivered l = 0 /\ attempted l = [].
Proof.
induction 1 as [|x r -> Hr (IHd & IHa)]; [now split|]. now split.
Qed.

Lemma closing_bind {A B} (a : M A) (f : A -> M B) :
  only session_neutral (fun x => x = LLoaded) a ->
  (forall x, closing (f x)) -> closing (bind a f).
Proof.
intros Ha Hf st r st' E. unfold bind in E.
destruct (a st) as [ra st1] eqn:Ea.
destruct (Ha st ra st1 Ea) as (evs1 & l1 & Ht1 & Hl1 & H1 & HL1).
destruct (neutral_counts evs1 H1) as (Ha1 & Hq1).
destruct (loaded_counts l1 HL1) as (Hd1 & Hat1).
assert (Hstop : st1 = st' ->
          exists evs l, trace st' = (trace st ++ evs)%list
                        /\ log st' = (log st ++ l)%list
                        /\ attaches evs = 0 /\ quits evs = delivered l
                        /\ delivered l <= 1 /\ attempted l = []).
{ intros <-. exists evs1, l1. rewrite Ha1, Hq1, Hd1, Hat1.
  repeat split; auto. }
destruct ra as [x | e |];
  [|injection E as <- <-; now apply Hstop | injection E as <- <-; now apply Hstop].
destruct (Hf x st1 r st' E) as (evs2 & l2 & Ht2 & Hl2 & Ha2 & Hq2 & Hd2 & Hat2).
exists (evs1 ++ evs2)%list, (l1 ++ l2)%list.
rewrite Ht2, Ht1, Hl2, Hl1, !app_assoc.
rewrite attaches_app, quits_app, delivered_app, attempted_app, Ha1, Hq1, Hd1, Hat1, Ha2, Hat2.
repeat split; auto.
Qed.

Lemma closing_tail contact_name :
  closing (logging (LSent contact_name) ;; sleep SRelease 5000%N ;; command w SRelease OQuit).
Proof.
intros st r st' E. unfold bind, logging, sleep in E.
set (st1 := record SRelease (OSleep 5000) None 5000 _) in E.
unfold command in E.
exists [{| ev_stage := SRelease; ev_at := now st; ev_op := OSleep 5000; ev_raised := None |};
        {| ev_stage := SRelease; ev_at := now st1; ev_op := OQuit;
           ev_raised := fault w (trace st1) (now st1) OQuit |}], [LSent contact_name].
destruct (fault w (trace st1) (now st1) OQuit); injection E as <- <-;
  unfold record; subst st1; cbn [now trace log record]; rewrite <- !app_assoc;
  (repeat split; auto).
Qed.

Ltac neutral := first [reflexivity | now split | intros; now split].

Lemma opened_app e1 e2 : opened (e1 ++ e2) = opened e1 + opened e2.
Proof. unfold opened. now rewrite filter_app, length_app. Qed.

Lemma released_app e1 e2 : released (e1 ++ e2) = released e1 + released e2.
Proof. unfold released. now rewrite filter_app, length_app. Qed.

Lemma filter_both_le {A} (p q : A -> bool) l :
  List.length (filter (fun x => p x && q x) l) <= List.length (filter p l).
Proof.
induction l as [|x r IH]; simpl; [lia|].
destruct (p x), (q x); simpl; lia.
Qed.

Lemma opened_le_attaches evs : opened evs <= attaches evs.
Proof. apply filter_both_le. Qed.

Lemma released_le_quits evs : released evs <= quits evs.
Proof. apply filter_both_le. Qed.

(** One sequence issues one attach, as its first command; it logs the
    delivery at most once, only when the attach returned, and issues
    the quit exactly then. *)
Lemma send_body_sessions contact_name message st r st' :
  send_body cfg w contact_name message st = (r, st') ->
  exists evs l, trace st' = (trace st ++ evs)%list
                /\ log st' = (log st ++ l)%list
                /\ attaches evs = 1 /\ quits evs = delivered l
                /\ delivered l <= opened evs /\ attempted l = [].
Proof.
assert (Hrest : forall (rest : M unit), closing rest ->
          forall st r st',
            (command w SAttach (attach_op cfg) ;; rest) st = (r, st') ->
            exists evs l, trace st' = (trace st ++ evs)%list
                          /\ log st' = (log st ++ l)%list
                          /\ attaches evs = 1 /\ quits evs = delivered l
                          /\ delivered l <= opened evs /\ attempted l = []).
{ clear. intros rest Hc st r st' E. unfold bind, command in E.
  destruct (fault w (trace st) (now st) (attach_op cfg)) as [e|] eqn:Hf.
  - injection E as <- <-.
    exists [{| ev_stage := SAttach; ev_at := now st; ev_op := attach_op cfg;
               ev_raised := Some e |}], [].
    rewrite app_nil_r. simpl. repeat split; auto.
  - destruct (Hc _ _ _ E) as (evs & l & Ht & Hl & Ha & Hq & Hd & Hat).
    exists ({| ev_stage := SAttach; ev_at := now st; ev_op := attach_op cfg;
               ev_raised := None |} :: evs), l.
    rewrite Ht, Hl. simpl trace. simpl log. rewrite <- app_assoc.
    change (attaches (_ :: evs)) with (S (attaches evs)).
    change (quits (_ :: evs)) with (quits evs).
    change (opened (_ :: evs)) with (S (opened evs)).
    rewrite Ha. refine (conj eq_refl (conj eq_refl (conj eq_refl (conj Hq (conj _ Hat))))).
    lia. }
apply Hrest.
repeat (apply closing_bind; [only_step neutral | intros ?]).
apply closing_tail.
Qed.

Lemma send_sessions contact_name message st r st' :
  send_whatsapp_message cfg w contact_name message st = (r, st') ->
  exists evs l, trace st' = (trace st ++ evs)%list
                /\ log st' = (log st ++ l)%list
                /\ attaches evs = 1 /\ quits evs = delivered l
                /\ delivered l <= opened evs /\ attempted l = [contact_name].
Proof.
unfold send_whatsapp_message, bind, try_except.
change (logging (LSending contact_name) st) with (Ok tt, started contact_name st).
cbv iota.
destruct (send_body cfg w contact_name message (started contact_name st)) as [rb st1] eqn:Eb.
destruct (send_body_sessions _ _ _ _ _ Eb) as (evs & l & Ht & Hl & Ha & Hq & Hd & Hat).
simpl in Ht, Hl. rewrite <- app_assoc in Hl.
assert (Hkeep : exists evs0 l0, trace st1 = (trace st ++ evs0)%list
                  /\ log st1 = (log st ++ l0)%list
                  /\ attaches evs0 = 1 /\ quits evs0 = delivered l0
                  /\ delivered l0 <= opened evs0 /\ attempted l0 = [contact_name]).
{ exists evs, (LSending contact_name :: l)%list. simpl attempted. rewrite Hat.
  change (delivered (LSending contact_name :: l)) with (delivered l).
  now repeat split. }
destruct rb as [[] | e |]; intros [= <- <-]; [exact Hkeep | | exact Hkeep].
exists evs, (LSending contact_name :: l ++ [LSendError contact_name e])%list.
unfold logging. cbn [now trace log]. rewrite Hl, <- app_assoc.
change (LSending contact_name :: l ++ [LSendError contact_name e])%list
  with ([LSending contact_name] ++ l ++ [LSendError contact_name e])%list.
rewrite !delivered_app, !attempted_app, Hat.
change (delivered [LSending contact_name]) with 0.
change (delivered [LSendError contact_name e]) with 0.
rewrite Nat.add_0_r. now repeat split.
Qed.

(** X12: whatever the browser does, a dispatch returns normally having
    issued exactly one attach command per contact, so it opens at most
    one driver session per contact, and none where the attach raises.
    It issues a quit command exactly once for every "Message sent" line
    it logs, and logs such a line only in a sequence whose attach
    returned.  So of the sessions opened, those of the sequences that
    stop before that line are never quit; and a quit that raises is not
    counted as a release. *)
Theorem sessions_opened_and_quit contacts message st :
  exists st' evs l,
    dispatch cfg w contacts message st = (Ok tt, st')
    /\ trace st' = (trace st ++ evs)%list
    /\ log st' = (log st ++ l)%list
    /\ attaches evs = List.length contacts
    /\ opened evs <= List.length contacts
    /\ quits evs = delivered l
    /\ delivered l <= opened evs
    /\ released evs <= quits evs
    /\ opened evs - released evs >= opened evs - delivered l.
Proof.
assert (Hcount : forall st, exists st' evs l,
          dispatch cfg w contacts message st = (Ok tt, st')
          /\ trace st' = (trace st ++ evs)%list
          /\ log st' = (log st ++ l)%list
          /\ attaches evs = List.length contacts
          /\ quits evs = delivered l
          /\ delivered l <= opened evs).
{ clear st. induction contacts as [|c rest IH]; intros st.
  - exists st, [], []. simpl. unfold ret. rewrite !app_nil_r. now repeat split.
  - destruct (send_run w cfg c message st) as (st1 & evs0 & lb & tail & Erun & _).
    destruct (send_sessions _ _ _ _ _ Erun)
      as (evs1 & l1 & Ht1 & Hl1 & Ha1 & Hq1 & Hd1 & _).
    destruct (IH st1) as (st2 & evs2 & l2 & Erun2 & Ht2 & Hl2 & Ha2 & Hq2 & Hd2).
    exists st2, (evs1 ++ evs2)%list, (l1 ++ l2)%list.
    unfold dispatch in *. simpl for_each. unfold bind at 1. rewrite Erun.
    rewrite Ht2, Ht1, Hl2, Hl1, !app_assoc, attaches_app, quits_app, delivered_app,
      opened_app.
    rewrite Ha1, Ha2, Hq1, Hq2. simpl List.length.
    refine (conj Erun2 (conj eq_refl (conj eq_refl (conj eq_refl (conj eq_refl _))))).
    lia. }
destruct (Hcount st) as (st' & evs & l & Erun & Ht & Hl & Ha & Hq & Hd).
exists st', evs, l.
pose proof (opened_le_attaches evs) as Ho.
pose proof (released_le_quits evs) as Hr.
refine (conj Erun (conj Ht (conj Hl (conj Ha (conj _ (conj Hq (conj Hd (conj Hr _)))))))); lia.
Qed.

(** X11: whatever the services answer and the browser does, the only
    commands a job issues are those of some configured contact's
    sequence: attaching with the configured driver path and debugger
    address, opening the configured URL, looking up the page body, the
    search box, that contact's entry or the message box in their own
    steps, clicking in the search and select steps, typing the contact
    name or the message, sleeping 0.5 s, 2 s or 5 s, and quitting in the
    release step. *)
Theorem job_issues_only_sequence_commands st :
  exists evs,
    trace (snd (job cfg w net st)) = (trace st ++ evs)%list
    /\ Forall (fun ev => exists c, In c (CONTACTS cfg)
                                   /\ permitted cfg c (ev_stage ev) (ev_op ev)) evs.
Proof.
assert (Hjob : only (fun sg o => exists c, In c (CONTACTS cfg) /\ permitted cfg c sg o)
                    (fun _ => True) (job cfg w net)).
{ unfold job.
  apply only_bind; [now apply only_logging | intros _].
  apply only_bind; [apply only_fetch_news | intros articles].
  destruct articles as [|a r]; [now apply only_logging|].
  apply only_bind; [apply only_group_fetched | intros grouped].
  apply only_bind; [apply only_sentiment_of | intros sentiment].
  apply only_bind; [apply only_fetch_quote | intros quote].
  apply only_bind; [now apply only_logging | intros _].
  apply only_bind; [apply only_dispatch | intros _].
  now apply only_logging. }
destruct (job cfg w net st) as [r st'] eqn:E.
destruct (Hjob st r st' E) as (evs & l & Ht & _ & Hq & _).
now exists evs.
Qed.

(** *** The entry that is clicked *)

Lemma only_bind_post {A B} Q L (P : A -> Prop) (a : M A) (f : A -> M B) :
  (forall st x st', a st = (Ok x, st') -> P x) ->
  only Q L a -> (forall x, P x -> only Q L (f x)) -> only Q L (bind a f).
Proof.
intros HP Ha Hf st r st' E. unfold bind in E.
destruct (a st) as [ra st1] eqn:Ea.
destruct (Ha st ra st1 Ea) as (evs1 & l1 & Ht1 & Hl1 & H1 & HL1).
destruct ra as [x | e |].
- destruct (Hf x (HP _ _ _ Ea) st1 r st' E) as (evs2 & l2 & Ht2 & Hl2 & H2 & HL2).
  exists (evs1 ++ evs2)%list, (l1 ++ l2)%list.
  rewrite Ht2, Ht1, Hl2, Hl1, !app_assoc.
  refine (conj eq_refl (conj eq_refl (conj _ _))); now apply Forall_app.
- injection E as <- <-. now exists evs1, l1.
- injection E as <- <-. now exists evs1, l1.
Qed.

Lemma found_contact_is_titled contact_name st x st' :
  count_char dq contact_name = 0 ->
  find_element w SSelectContact (ByXPath (contact_xpath contact_name)) st = (Ok x, st') ->
  titled contact_name x = true.
Proof.
intros Hq E. unfold find_element in E. injection E as E _.
pose proof (XPathFacts.resolve_inside w _ _ _
              (XPathFacts.contact_selector_exact contact_name
                 (page w (trace st) (now st)) Hq)) as Hsel.
unfold lookup in E.
destruct (fault w (trace st) (now st) _); [discriminate|].
rewrite Hsel in E.
destruct (filter (titled contact_name) (elements (page w (trace st) (now st))))
  as [|e r] eqn:Ef; [discriminate|].
injection E as <-.
assert (Hin : In e (filter (titled contact_name) (elements (page w (trace st) (now st)))))
  by (rewrite Ef; now left).
apply filter_In in Hin. tauto.
Qed.

Ltac harmless := first [exact I | intros; exact I | intros; discriminate].

(** X17: for a contact name without a double quote, whatever the page
    shows and however the sequence ends, every element clicked in the
    select-contact step is a [span] whose title is exactly the contact
    name. *)
Theorem quote_free_name_selects_its_own_entry contact_name message st :
  count_char dq contact_name = 0 ->
  exists evs,
    trace (snd (send_whatsapp_message cfg w contact_name message st)) = (trace st ++ evs)%list
    /\ Forall (fun e => titled contact_name e = true) (clicked_in SSelectContact evs).
Proof.
intros Hq.
set (Q := fun (sg : stage) (o : op) =>
            match o with
            | OClick e => sg = SSelectContact -> titled contact_name e = true
            | _ => True
            end).
assert (Hsend : only Q (fun _ => True) (send_whatsapp_message cfg w contact_name message)).
{ unfold send_whatsapp_message.
  apply only_bind; [now apply only_logging | intros _].
  apply only_try_except; [|intros e; now apply only_logging].
  unfold send_body.
  do 8 (apply only_bind; [only_step harmless | intros ?]).
  apply (only_bind_post Q _ (fun x => titled contact_name x = true)).
  - intros s0 e0 s1. now apply found_contact_is_titled.
  - only_step harmless.
  - intros contact Hc.
    apply only_bind; [apply only_command; intros _; exact Hc | intros _].
    only_chain harmless. }
destruct (send_whatsapp_message cfg w contact_name message st) as [r st'] eqn:E.
destruct (Hsend st r st' E) as (evs & l & Ht & _ & Hall & _).
exists evs. split; [exact Ht|]. clear - Hall.
induction Hall as [|ev r Hev Hr IH]; [constructor|].
unfold clicked_in. simpl. fold (clicked_in SSelectContact r).
destruct (ev_op ev) as [| | |target| | |] eqn:Eo; try exact IH.
destruct (stage_eqb (ev_stage ev) SSelectContact) eqn:Es; [|exact IH].
constructor; [|exact IH]. apply Hev.
destruct (ev_stage ev); try discriminate; reflexivity.
Qed.

(** *** The job with articles *)

Lemma bind_ok {A B} (a : M A) (f : A -> M B) st x st1 :
  a st = (Ok x, st1) -> bind a f st = f x st1.
Proof. intros E. unfold bind. now rewrite E. Qed.

Lemma only_lines_send contact_name message :
  only (fun sg o => match o with
                    | OSendKeys _ k => sg = SComposeAndSend -> line_of (split nl message) k
                    | _ => True
                    end)
       (fun _ => True) (send_whatsapp_message cfg w contact_name message).
Proof.
unfold send_whatsapp_message.
apply only_bind; [now apply only_logging | intros _].
apply only_try_except; [|intros e; now apply only_logging].
unfold send_body.
repeat (apply only_bind; [only_step harmless | intros ?]).
apply only_bind; [|intros _; only_chain harmless].
unfold compose_and_send.
apply only_bind; [|intros _; apply only_command; intros _; exact I].
apply only_for_each_in. intros line Hin. unfold type_line.
apply only_bind; [|intros _]; apply only_command; intros _; [exact Hin | exact I].
Qed.

Lemma lines_keystrokes lines evs :
  Forall (fun ev => match ev_op ev with
                    | OSendKeys _ k => ev_stage ev = SComposeAndSend -> line_of lines k
                    | _ => True
                    end) evs ->
  Forall (line_of lines) (keystrokes evs).
Proof.
induction 1 as [|ev r Hev Hr IH]; [constructor|]. simpl.
destruct (ev_stage ev) eqn:Es; try exact IH.
destruct (ev_op ev); try exact IH.
constructor; [now apply Hev | exact IH].
Qed.

Lemma fetch_quote_run :
  exists quote ql, forall st,
    fetch_inspirational_quote net st
    = (Ok quote, {| now := now st; trace := trace st; log := (log st ++ ql)%list |}).
Proof.
unfold fetch_inspirational_quote, bind, logging, ret. cbn [now trace log].
destruct (quote_reply net) as [e | status json].
- now eexists _, [_].
- destruct (status =? 200)%Z; [destruct json as [[|data rest]|]|];
    try (now eexists _, [_]).
  exists (quote_text data), []. intros st. rewrite app_nil_r. now destruct st.
Qed.

Lemma group_loop_reads max fetched : forall articles d,
  Forall2 reads fetched articles ->
  group_loop max fetched d = inr (fold_left (group_step max) articles d).
Proof.
induction fetched as [|f r IH]; intros articles d H; inversion H; subst; simpl.
- reflexivity.
- match goal with Hr : reads f _ |- _ => unfold reads in Hr; rewrite Hr end.
  now apply IH.
Qed.

Lemma group_loop_cases max fetched : forall d,
  (exists attr, group_loop max fetched d = inl (AttributeError attr)
                /\ Exists unreadable fetched)
  \/ (exists articles, Forall2 reads fetched articles
                       /\ group_loop max fetched d
                          = inr (fold_left (group_step max) articles d)).
Proof.
induction fetched as [|f r IH]; intros d; simpl.
- right. exists []. split; [constructor | reflexivity].
- destruct (read_article f) as [e | a] eqn:Er.
  + left. unfold read_article in Er.
    destruct (json_source f) eqn:Es; [|
      injection Er as <-; eexists; split; [reflexivity | left; now left] |];
      (destruct (json_title f) eqn:Et; [discriminate | | discriminate];
       injection Er as <-; eexists; split; [reflexivity | left; now right]).
  + destruct (IH (group_step max d a)) as [(attr & E & Hex) | (articles & Hall & E)].
    * left. exists attr. split; [exact E | now right].
    * right. exists (a :: articles). split; [now constructor | exact E].
Qed.

Lemma fetch_news_run fetched st :
  news_reply net = HttpReply 200 (Some (Some fetched)) ->
  fetch_news net st
  = (Ok fetched,
     {| now := now st; trace := trace st;
        log := ((log st ++ [LFetching]) ++ [LFetched (List.length fetched)])%list |}).
Proof. intros H. unfold fetch_news, bind, logging, ret. now rewrite H. Qed.

(** X18: when NewsAPI answers 200 with a non-empty article list none of
    whose sources and titles is [null], and the sentiment analyzer can
    be constructed, [job] returns normally, whatever the quote service
    answers and the browser does.  It logs the start, the fetch and the
    number of articles, then what the quote fetch logs, then the
    formatted message, which is the one built from the grouping of those
    articles under the configured limit, the sentiment of their
    headlines and the quote, without a soccer section; then one segment
    per configured contact, in order, and the completion line.  Every
    text typed into a message box is a line of that message. *)
Theorem job_sends_formatted_summary fetched articles st :
  news_reply net = HttpReply 200 (Some (Some fetched)) ->
  fetched <> [] ->
  Forall2 reads fetched articles ->
  analyzer_error net = None ->
  exists st' evs quote ql segs,
    job cfg w net st = (Ok tt, st')
    /\ (forall s, fst (fetch_inspirational_quote net s) = Ok quote)
    /\ trace st' = (trace st ++ evs)%list
    /\ log st' = (log st ++ [LJobStarted; LFetching; LFetched (List.length fetched)]
                         ++ ql ++ [LFormatted (summary cfg net articles quote)]
                         ++ List.concat segs ++ [LJobCompleted])%list
    /\ Forall2 segment (CONTACTS cfg) segs
    /\ Forall (line_of (split nl (summary cfg net articles quote))) (keystrokes evs).
Proof.
intros Hnews Hne Hread Hsia.
destruct fetch_quote_run as (quote & ql & Hquote).
set (msg := summary cfg net articles quote).
set (st3 := {| now := now st; trace := trace st;
               log := (((((log st ++ [LJobStarted]) ++ [LFetching])
                         ++ [LFetched (List.length fetched)]) ++ ql)
                       ++ [LFormatted msg])%list |}).
destruct (dispatch_run w cfg msg (CONTACTS cfg) st3) as (st4 & evs & segs & Erun & Ht & Hl & Hsegs).
assert (Hlines : only (fun sg o => match o with
                                   | OSendKeys _ k =>
                                       sg = SComposeAndSend -> line_of (split nl msg) k
                                   | _ => True
                                   end)
                      (fun _ => True) (dispatch cfg w (CONTACTS cfg) msg)).
{ unfold dispatch. apply only_for_each. intros c. apply only_lines_send. }
destruct (Hlines st3 _ _ Erun) as (evs' & l' & Ht' & _ & Hall & _).
assert (evs' = evs) by (rewrite Ht in Ht'; now apply app_inv_head in Ht').
subst evs'.
exists {| now := now st4; trace := trace st4; log := (log st4 ++ [LJobCompleted])%list |},
       evs, quote, ql, segs.
refine (conj _ (conj _ (conj Ht (conj _ (conj Hsegs (lines_keystrokes _ _ Hall)))))).
- unfold job.
  erewrite bind_ok by reflexivity.
  erewrite bind_ok by (apply fetch_news_run; exact Hnews).
  destruct fetched as [|f r]; [contradiction|].
  erewrite bind_ok
    by (unfold group_fetched; rewrite (group_loop_reads _ _ _ _ Hread); reflexivity).
  erewrite bind_ok by (unfold sentiment_of; rewrite Hsia; reflexivity).
  erewrite bind_ok by apply Hquote.
  erewrite bind_ok by reflexivity.
  erewrite bind_ok by exact Erun.
  reflexivity.
- intros s. now rewrite Hquote.
- cbn [log]. rewrite Hl. unfold st3. cbn [log]. rewrite <- !app_assoc. reflexivity.
Qed.

(** X20: [job] calls the grouping and the sentiment analysis outside
    every [try].  When NewsAPI answers 200 with a non-empty article list
    and an article has a [null] source or title, or all articles are
    readable but the sentiment analyzer cannot be constructed, [job]
    ends with that exception ([AttributeError], or the analyzer's),
    right after the fetch: the log holds the start, the fetch and the
    article count, the quote is not fetched, no message is formatted,
    no contact is attempted and no browser command is issued. *)
Theorem job_stops_before_dispatch fetched cause st :
  news_reply net = HttpReply 200 (Some (Some fetched)) ->
  fetched <> [] ->
  Exists unreadable fetched \/ analyzer_error net = Some cause ->
  exists e,
    job cfg w net st
    = (Raise e,
       {| now := now st; trace := trace st;
          log := (log st ++ [LJobStarted; LFetching; LFetched (List.length fetched)])%list |})
    /\ ((Exists unreadable fetched /\ exists attr, e = AttributeError attr)
        \/ (analyzer_error net = Some e
            /\ exists articles, Forall2 reads fetched articles)).
Proof.
intros Hnews Hne Hbad.
assert (Hstart : forall k : list fetched_article -> M unit,
          (logging LJobStarted ;; articles <- fetch_news net ;; k articles) st
          = k fetched {| now := now st; trace := trace st;
                         log := ((log st ++ [LJobStarted]) ++ [LFetching])
                                  ++ [LFetched (List.length fetched)] |}).
{ intros k. erewrite bind_ok by reflexivity.
  erewrite bind_ok by (apply fetch_news_run; exact Hnews). reflexivity. }
unfold job. rewrite Hstart. clear Hstart.
destruct fetched as [|f r] eqn:Ef; [contradiction|]. rewrite <- Ef in *.
destruct (group_loop_cases (MAX_HEADLINES_PER_SOURCE cfg) fetched [])
  as [(attr & Eg & Hex) | (articles & Hall & Eg)].
- exists (AttributeError attr). split; [|left; split; [exact Hex | now exists attr]].
  unfold bind at 1, group_fetched. rewrite Eg. unfold throw.
  rewrite <- !app_assoc. reflexivity.
- destruct Hbad as [Hex | Hsia].
  + exfalso. clear - Hex Hall. induction Hall as [|f0 a fs az Hr Hrest IH].
    * inversion Hex.
    * inversion Hex as [? ? Hu | ? ? Hu]; subst; [|now apply IH].
      unfold reads, read_article in Hr. destruct Hu as [Hu | Hu]; rewrite Hu in Hr;
        [discriminate | destruct (json_source f0); discriminate].
  + exists cause. split; [|right; split; [exact Hsia | now exists articles]].
    unfold bind at 1, group_fetched. rewrite Eg. unfold ret at 1.
    unfold bind at 1, sentiment_of. rewrite Hsia. unfold throw.
    rewrite <- !app_assoc. reflexivity.
Qed.

End Browser.

Lemma job_sends_formatted_summary_witness :
  news_reply news_up = HttpReply 200 (Some (Some (map as_fetched sample_articles)))
  /\ map as_fetched sample_articles <> []
  /\ Forall2 reads (map as_fetched sample_articles) sample_articles
  /\ analyzer_error news_up = None
  /\ exists st' evs quote ql segs,
       job cfg0 (calm (chat_page ["Alice"])) news_up initial = (Ok tt, st')
       /\ (forall s, fst (fetch_inspirational_quote news_up s) = Ok quote)
       /\ trace st' = (trace initial ++ evs)%list
       /\ log st' = (log initial
                     ++ [LJobStarted; LFetching;
                         LFetched (List.length (map as_fetched sample_articles))]
                     ++ ql ++ [LFormatted (summary cfg0 news_up sample_articles quote)]
                     ++ List.concat segs ++ [LJobCompleted])%list
       /\ Forall2 segment (CONTACTS cfg0) segs
       /\ Forall (line_of (split nl (summary cfg0 news_up sample_articles quote)))
                 (keystrokes evs).
Proof.
assert (H1 : news_reply news_up
             = HttpReply 200 (Some (Some (map as_fetched sample_articles))))
  by reflexivity.
assert (H2 : map as_fetched sample_articles <> []) by discriminate.
assert (H3 : Forall2 reads (map as_fetched sample_articles) sample_articles)
  by (repeat constructor).
assert (H4 : analyzer_error news_up = None) by reflexivity.
refine (conj H1 (conj H2 (conj H3 (conj H4 _)))).
exact (job_sends_formatted_summary (calm (chat_page ["Alice"])) cfg0 news_up
         (map as_fetched sample_articles) sample_articles initial H1 H2 H3 H4).
Defined.

Lemma job_stops_before_dispatch_witness :
  news_reply news_null
  = HttpReply 200 (Some (Some [ {| json_source := Absent; json_title := Null |} ]))
  /\ [ {| json_source := Absent; json_title := Null |} ] <> []
  /\ (Exists unreadable [ {| json_source := Absent; json_title := Null |} ]
      \/ analyzer_error news_null = Some (LookupError "vader_lexicon"))
  /\ exists e,
       job cfg0 (calm (chat_page ["Alice"])) news_null initial
       = (Raise e,
          {| now := now initial; trace := trace initial;
             log := (log initial
                     ++ [LJobStarted; LFetching;
                         LFetched (List.length
                                     [ {| json_source := Absent; json_title := Null |} ])])%list |})
       /\ ((Exists unreadable [ {| json_source := Absent; json_title := Null |} ]
            /\ exists attr, e = AttributeError attr)
           \/ (analyzer_error news_null = Some e
               /\ exists articles,
                    Forall2 reads [ {| json_source := Absent; json_title := Null |} ] articles)).
Proof.
assert (H1 : news_reply news_null
             = HttpReply 200 (Some (Some [ {| json_source := Absent; json_title := Null |} ])))
  by reflexivity.
assert (H2 : [ {| json_source := Absent; json_title := Null |} ] <> []) by discriminate.
assert (H3 : Exists unreadable [ {| json_source := Absent; json_title := Null |} ]
             \/ analyzer_error news_null = Some (LookupError "vader_lexicon"))
  by (left; left; now right).
refine (conj H1 (conj H2 (conj H3 _))).
exact (job_stops_before_dispatch (calm (chat_page ["Alice"])) cfg0 news_null
         _ (LookupError "vader_lexicon") initial H1 H2 H3).
Defined.

Lemma quote_free_name_selects_its_own_entry_witness :
  count_char dq "Alice" = 0
  /\ exists evs,
       trace (snd (send_whatsapp_message cfg0 (calm (chat_page ["Alice B"; "Alice"]))
                                         "Alice" hello_world initial))
       = (trace initial ++ evs)%list
       /\ Forall (fun e => titled "Alice" e = true) (clicked_in SSelectContact evs).
Proof.
split; [reflexivity|].
apply (quote_free_name_selects_its_own_entry (calm (chat_page ["Alice B"; "Alice"])) cfg0).
reflexivity.
Defined.

End CommandFacts.

(** ** The clock of a run *)

Module ClockFacts.
Import Py Dom Selenium News App Reading Measures Scenario RunFacts CommandFacts.
Local Open Scope prog_scope.
Local Open Scope N_scope.

Section Clock.
Variable w : World.

Lemma timed_weaken {A} lo hi lo' hi' (a : M A) :
  lo' <= lo -> hi <= hi' -> timed w lo hi a -> timed w lo' hi' a.
Proof.
intros Hlo Hhi Ha st r st' E. destruct (Ha st r st' E) as (Hm & Hl & Hh).
refine (conj Hm (conj _ _)).
- intros Hok. specialize (Hl Hok). lia.
- intros Hi. specialize (Hh Hi). lia.
Qed.

Lemma timed_ret {A} (x : A) : timed w 0 0 (ret x).
Proof. intros st r st' [= <- <-]. repeat split; intros; lia. Qed.

Lemma timed_logging e : timed w 0 0 (logging e).
Proof. intros st r st' [= <- <-]. simpl. repeat split; intros; lia. Qed.

Lemma timed_command sg o : timed w 0 0 (command w sg o).
Proof.
intros st r st' E. unfold command in E.
assert (Hn : now st' = now st + latency w (trace st) (now st) o).
{ destruct (fault w (trace st) (now st) o); now injection E as <- <-. }
rewrite Hn. refine (conj _ (conj _ _)); [lia | intros; lia |].
intros Hi. rewrite Hi. lia.
Qed.

Lemma timed_sleep sg ms : timed w ms ms (sleep sg ms).
Proof. intros st r st' [= <- <-]. simpl. repeat split; intros; lia. Qed.

Lemma timed_find_element sg l : timed w 0 0 (find_element w sg l).
Proof.
intros st r st' [= <- <-]. simpl.
refine (conj _ (conj _ _)); [lia | intros; lia |].
intros Hi. rewrite Hi. lia.
Qed.

Lemma timed_until sg l usable :
  timed w 0 20500 (until sg 20000 (probe w sg l usable)).
Proof.
intros st r st' E. unfold until in E.
destruct (until_loop_shape _ _ _ _ _ _ _ _ _ E) as (evs & _ & _ & Hn & _ & Hi).
refine (conj Hn (conj _ _)); [intros; lia|].
intros Hin. specialize (Hi Hin). unfold poll in Hi. lia.
Qed.

Lemma timed_bind {A B} lo1 hi1 lo2 hi2 (a : M A) (f : A -> M B) :
  timed w lo1 hi1 a -> (forall x, timed w lo2 hi2 (f x)) ->
  timed w (lo1 + lo2) (hi1 + hi2) (bind a f).
Proof.
intros Ha Hf st r st' E. unfold bind in E.
destruct (a st) as [ra st1] eqn:Ea.
destruct (Ha st ra st1 Ea) as (Hm1 & Hl1 & Hh1).
destruct ra as [x | e |].
- destruct (Hf x st1 r st' E) as (Hm2 & Hl2 & Hh2).
  refine (conj _ (conj _ _)); [lia | |].
  + intros Hok. specialize (Hl1 I). specialize (Hl2 Hok). lia.
  + intros Hi. specialize (Hh1 Hi). specialize (Hh2 Hi). lia.
- injection E as <- <-.
  refine (conj Hm1 (conj _ _)); [intros [] | intros Hi; specialize (Hh1 Hi); lia].
- injection E as <- <-.
  refine (conj Hm1 (conj _ _)); [intros [] | intros Hi; specialize (Hh1 Hi); lia].
Qed.

Lemma timed_for_each {A} (xs : list A) (body : A -> M unit) :
  (forall x, timed w 0 0 (body x)) -> timed w 0 0 (for_each xs body).
Proof.
intros Hb. induction xs as [|x r IH]; simpl.
- apply timed_ret.
- apply (timed_bind 0 0 0 0); [apply Hb | intros _; exact IH].
Qed.

Lemma timed_compose_and_send box message :
  timed w 0 0 (compose_and_send w box message).
Proof.
unfold compose_and_send, type_line.
apply (timed_bind 0 0 0 0); [|intros _; apply timed_command].
apply timed_for_each. intros line.
apply (timed_bind 0 0 0 0); [|intros _]; apply timed_command.
Qed.

Lemma timed_try_except {A} lo hi (body : M A) (handler : exn -> M A) :
  timed w lo hi body -> (forall e, timed w 0 0 (handler e)) ->
  timed w 0 hi (try_except body handler).
Proof.
intros Hb Hh st r st' E. unfold try_except in E.
destruct (body st) as [rb st1] eqn:Eb.
destruct (Hb st rb st1 Eb) as (Hm1 & _ & Hh1).
destruct rb as [x | e |].
- injection E as <- <-. refine (conj Hm1 (conj _ Hh1)). intros; lia.
- destruct (Hh e st1 r st' E) as (Hm2 & _ & Hh2).
  refine (conj _ (conj _ _)); [lia | intros; lia |].
  intros Hi. specialize (Hh1 Hi). specialize (Hh2 Hi). lia.
- injection E as <- <-. refine (conj Hm1 (conj _ Hh1)). intros; lia.
Qed.

Variable cfg : Config.

Ltac timed_step :=
  first
    [ apply timed_command | apply timed_sleep | apply timed_logging
    | apply timed_find_element
    | rewrite presence_is_probe; apply timed_until
    | rewrite clickable_is_probe; apply timed_until
    | apply timed_compose_and_send ].

(** The three polled waits give up after 20.5 s each at the latest; the
    three sleeps add 2 s, 2 s and 5 s. *)
Lemma timed_send_body contact_name message :
  timed w 9000 70500 (send_body cfg w contact_name message).
Proof.
eapply timed_weaken;
  [idtac | idtac
   | unfold send_body;
     repeat (eapply timed_bind; [timed_step | intros ?]); timed_step];
  now vm_compute.
Qed.

Lemma timed_send_whatsapp_message contact_name message :
  timed w 0 70500 (send_whatsapp_message cfg w contact_name message).
Proof.
unfold send_whatsapp_message.
apply (timed_bind 0 0 0 70500); [apply timed_logging | intros _].
eapply timed_try_except; [apply timed_send_body|].
intros e. apply timed_logging.
Qed.

Lemma timed_dispatch contacts message :
  timed w 0 (70500 * N.of_nat (List.length contacts)) (dispatch cfg w contacts message).
Proof.
unfold dispatch. induction contacts as [|c rest IH].
- apply timed_ret.
- simpl for_each.
  eapply timed_weaken; [| |apply (timed_bind 0 70500 0 _ _ _
                                   (timed_send_whatsapp_message c message)
                                   (fun _ => IH))].
  + lia.
  + simpl List.length. lia.
Qed.

(** X13: a contact's sequence that runs to its end has taken at least
    9 s: the two pauses of 2 s around the contact lookup and the 5 s
    before the driver is quit. *)
Theorem delivery_takes_nine_seconds contact_name message st st' :
  send_body cfg w contact_name message st = (Ok tt, st') ->
  now st + 9000 <= now st'.
Proof.
intros E. destruct (timed_send_body contact_name message st _ _ E) as (_ & Hl & _).
now apply Hl.
Qed.

(** X14: when the commands themselves take no time, a dispatch to n
    contacts ends within n * 70.5 s, whatever the page shows and whichever
    command fails: each of the three polled waits gives up 20.5 s after
    it started at the latest, and the pauses add 9 s. *)
Theorem dispatch_ends_in_bounded_time contacts message st :
  instant w ->
  now st <= now (snd (dispatch cfg w contacts message st))
  /\ now (snd (dispatch cfg w contacts message st))
     <= now st + 70500 * N.of_nat (List.length contacts).
Proof.
intros Hi. destruct (dispatch cfg w contacts message st) as [r st'] eqn:E.
destruct (timed_dispatch contacts message st r st' E) as (Hm & _ & Hh).
split; [exact Hm | now apply Hh].
Qed.

End Clock.

Lemma delivery_takes_nine_seconds_witness :
  exists st',
    send_body cfg0 (calm (chat_page ["Alice"])) "Alice" hello_world initial = (Ok tt, st')
    /\ now initial + 9000 <= now st'.
Proof.
eexists. split; [vm_compute; reflexivity|].
eapply (delivery_takes_nine_seconds (calm (chat_page ["Alice"])) cfg0 "Alice" hello_world).
vm_compute. reflexivity.
Defined.

Lemma dispatch_ends_in_bounded_time_witness :
  instant (calm (chat_page ["Alice"]))
  /\ now initial
     <= now (snd (dispatch cfg0 (calm (chat_page ["Alice"])) ["Alice"; "Bob"] hello_world initial))
  /\ now (snd (dispatch cfg0 (calm (chat_page ["Alice"])) ["Alice"; "Bob"] hello_world initial))
     <= now initial + 70500 * N.of_nat (List.length ["Alice"; "Bob"]).
Proof.
assert (Hi : instant (calm (chat_page ["Alice"]))) by (intros h t o; reflexivity).
split; [exact Hi|].
exact (dispatch_ends_in_bounded_time (calm (chat_page ["Alice"])) cfg0
         ["Alice"; "Bob"] hello_world initial Hi).
Defined.

End ClockFacts.

(** ** Deliveries: what is typed, who is selected, the run on a ready page *)

Module DeliveryFacts.
Import Py Dom Selenium News App Reading Measures Scenario RunFacts CommandFacts.
Local Open Scope prog_scope.

Lemma typed_text_app k1 k2 :
  typed_text (k1 ++ k2) = (typed_text k1 ++ typed_text k2)%string.
Proof.
induction k1 as [|k r IH]; simpl; [reflexivity|].
rewrite IH. clear. induction (key_text k) as [|c s IHs]; simpl; [reflexivity | now rewrite IHs].
Qed.

Lemma typed_text_lines s :
  typed_text (flat_map line_keys (split nl s))
  = (s ++ String nl EmptyString)%string.
Proof.
induction s as [|c r IH]; [reflexivity|].
simpl split. destruct (Ascii.eqb c nl) eqn:Ec.
- apply Ascii.eqb_eq in Ec. subst c. simpl. simpl in IH. now rewrite IH.
- destruct (split nl r) as [|h t] eqn:E.
  + simpl in IH. destruct r; discriminate.
  + simpl in IH |- *. now rewrite IH.
Qed.

Lemma typed_text_key_plan message :
  typed_text (key_plan message) = (message ++ String nl EmptyString)%string.
Proof.
unfold key_plan. fold line_keys. rewrite typed_text_app, typed_text_lines. simpl.
clear. induction message as [|c s IH]; simpl; [reflexivity | now rewrite IH].
Qed.

Lemma submit_is_last_key message n :
  In KEnter (firstn n (key_plan message)) -> firstn n (key_plan message) = key_plan message.
Proof.
unfold key_plan. fold line_keys.
set (body := flat_map line_keys (split nl message)).
assert (Hno : ~ In KEnter body).
{ unfold body. intros Hin. apply in_flat_map in Hin.
  destruct Hin as (line & _ & [H | [H | []]]); discriminate. }
intros Hin. destruct (Nat.le_gt_cases n (List.length body)) as [Hle | Hgt].
- exfalso. apply Hno. rewrite firstn_app in Hin.
  replace (n - List.length body) with 0 in Hin by lia.
  simpl in Hin. rewrite app_nil_r in Hin.
  rewrite <- (firstn_skipn n body). apply in_or_app. now left.
- apply firstn_all2. rewrite length_app. simpl. lia.
Qed.

(** X15: at every moment of a contact's sequence, however it ends, the
    keys sent to the message box are an initial part of the planned
    ones, so the text in the box is an initial part of the message
    followed by one line break; and once ENTER has been sent, all the
    planned keys have been: what is submitted is the whole message,
    with a line break after its last line. *)
Theorem submitted_text_is_whole_message cfg w contact_name message st :
  exists evs,
    trace (snd (send_body cfg w contact_name message st)) = (trace st ++ evs)%list
    /\ (exists rest,
          (typed_text (keystrokes evs) ++ rest)%string
          = (message ++ String nl EmptyString)%string)
    /\ (In KEnter (keystrokes evs) ->
        keystrokes evs = key_plan message
        /\ typed_text (keystrokes evs) = (message ++ String nl EmptyString)%string).
Proof.
destruct (send_body cfg w contact_name message st) as [r st'] eqn:E.
destruct (typed_send_body w cfg contact_name message st r st' E) as (evs & Ht & (n & Hn) & _).
exists evs. refine (conj Ht (conj _ _)).
- exists (typed_text (skipn n (key_plan message))).
  now rewrite Hn, <- typed_text_app, firstn_skipn, typed_text_key_plan.
- rewrite Hn. intros Hin. rewrite (submit_is_last_key message n Hin).
  split; [reflexivity | apply typed_text_key_plan].
Qed.

(** *** The run on a ready page *)

Section Ready.
Variable w : World.
Variable root : node.
Hypothesis no_fault : faultless w.
Hypothesis same_page : static w root.

Lemma yields_ret {A} (x : A) : yields (ret x) x [] [].
Proof. intros st. exists st, []. unfold ret. rewrite !app_nil_r. now repeat split. Qed.

Lemma yields_logging e : yields (logging e) tt [] [e].
Proof.
intros st. eexists _, []. unfold logging. cbn [trace log]. rewrite app_nil_r.
now repeat split.
Qed.

Lemma yields_command sg o : yields (command w sg o) tt [(sg, o)] [].
Proof.
intros st. unfold command. rewrite no_fault.
eexists _, [_]. split; [reflexivity|]. cbn [trace log record]. rewrite app_nil_r.
repeat split. now constructor.
Qed.

Lemma yields_sleep sg ms : yields (sleep sg ms) tt [(sg, OSleep ms)] [].
Proof.
intros st. unfold sleep.
eexists _, [_]. split; [reflexivity|]. cbn [trace log record]. rewrite app_nil_r.
repeat split. now constructor.
Qed.

Lemma lookup_first l e st : first_match l root = Some e -> lookup w l st = Ok e.
Proof.
unfold first_match, lookup, resolve. rewrite no_fault, same_page.
destruct (find_elements l root) as [[|x r]|]; try discriminate. now intros [= ->].
Qed.

Lemma yields_find_element sg l e :
  first_match l root = Some e -> yields (find_element w sg l) e [(sg, OFind l)] [].
Proof.
intros Hf st. unfold find_element. rewrite (lookup_first l e st Hf).
eexists _, [_]. split; [reflexivity|]. cbn [trace log record]. rewrite app_nil_r.
repeat split. now constructor.
Qed.

Lemma until_loop_hit f sg end_time l usable e st :
  lookup w l st = Ok e -> usable e = true ->
  until_loop (S f) sg end_time (probe w sg l usable) st = (Ok e, after_probe w sg l st).
Proof.
intros Hl Hu.
change (until_loop (S f) sg end_time (probe w sg l usable) st)
  with (match probe w sg l usable st with
        | (Ok (Some v), st1) => (Ok v, st1)
        | (Ok None, st1) =>
            if (end_time <? now st1)%N then (Raise TimeoutException, st1)
            else (sleep sg poll ;; until_loop f sg end_time (probe w sg l usable)) st1
        | (Raise e, st1) =>
            if is_no_such_element e
            then if (end_time <? now st1)%N then (Raise TimeoutException, st1)
                 else (sleep sg poll ;; until_loop f sg end_time (probe w sg l usable)) st1
            else (Raise e, st1)
        | (OutOfFuel, st1) => (OutOfFuel, st1)
        end).
now rewrite probe_run, Hl, Hu.
Qed.

Lemma yields_until sg l usable e :
  first_match l root = Some e -> usable e = true ->
  yields (until sg 20000%N (probe w sg l usable)) e [(sg, OFind l)] [].
Proof.
intros Hf Hu st. unfold until.
rewrite until_fuel, (until_loop_hit 41 _ _ _ _ e st (lookup_first l e st Hf) Hu).
unfold after_probe. rewrite (lookup_first l e st Hf).
eexists _, [_]. split; [reflexivity|]. cbn [trace log record]. rewrite app_nil_r.
repeat split. now constructor.
Qed.

Lemma yields_bind {A B} (a : M A) (f : A -> M B) x s1 l1 y s2 l2 :
  yields a x s1 l1 -> yields (f x) y s2 l2 ->
  yields (bind a f) y (s1 ++ s2) (l1 ++ l2).
Proof.
intros Ha Hf st.
destruct (Ha st) as (st1 & evs1 & Ea & Ht1 & Hs1 & Hr1 & Hl1).
destruct (Hf st1) as (st2 & evs2 & Ef & Ht2 & Hs2 & Hr2 & Hl2).
exists st2, (evs1 ++ evs2)%list. unfold bind. rewrite Ea.
refine (conj Ef (conj _ (conj _ (conj _ _)))).
- now rewrite Ht2, Ht1, app_assoc.
- unfold steps in *. now rewrite map_app, Hs1, Hs2.
- now apply Forall_app.
- now rewrite Hl2, Hl1, app_assoc.
Qed.

Lemma yields_for_each {A} (xs : list A) (body : A -> M unit) s :
  (forall x, yields (body x) tt (s x) []) ->
  yields (for_each xs body) tt (flat_map s xs) [].
Proof.
intros Hb. induction xs as [|x r IH]; simpl.
- apply yields_ret.
- apply (yields_bind _ _ tt (s x) [] tt (flat_map s r) []); [apply Hb | exact IH].
Qed.

Lemma yields_as {A} (a : M A) x s l s' l' :
  s = s' -> l = l' -> yields a x s l -> yields a x s' l'.
Proof. now intros -> ->. Qed.

Lemma yields_compose_and_send box message :
  yields (compose_and_send w box message) tt
         (map (fun k => (SComposeAndSend, OSendKeys box k)) (key_plan message)) [].
Proof.
unfold compose_and_send.
eapply yields_as;
  [ | | eapply yields_bind;
        [apply (yields_for_each _ _
                  (fun line => [(SComposeAndSend, OSendKeys box (KText line));
                                (SComposeAndSend, OSendKeys box KShiftEnter)]))
        | apply yields_command ] ].
- unfold key_plan. rewrite map_app. f_equal.
  induction (split nl message) as [|x r IH]; simpl; [reflexivity | now rewrite IH].
- reflexivity.
- intros line. unfold type_line.
  apply (yields_bind _ _ tt [_] [] tt [_] []); apply yields_command.
Qed.

Variable cfg : Config.
Variables contact_name message : string.
Variables sb ce mb : element.
Hypothesis body_shown : first_match (ByTagName "body") root <> None.
Hypothesis search_shown : first_match (ByXPath search_xpath) root = Some sb.
Hypothesis contact_shown : first_match (ByXPath (contact_xpath contact_name)) root = Some ce.
Hypothesis box_shown : first_match (ByXPath message_xpath) root = Some mb.
Hypothesis box_usable : el_displayed mb && el_enabled mb = true.

Lemma yields_send_body :
  yields (send_body cfg w contact_name message) tt
         (happy_path cfg contact_name message sb ce mb) [LLoaded; LSent contact_name].
Proof.
destruct (first_match (ByTagName "body") root) as [b|] eqn:Hb; [|contradiction].
unfold send_body.
eapply yields_as; [ | | 
  eapply yields_bind; [apply yields_command|];
  eapply yields_bind; [apply yields_command|];
  eapply yields_bind; [rewrite presence_is_probe; now apply (yields_until _ _ _ b)|];
  eapply yields_bind; [apply yields_logging|];
  eapply yields_bind; [rewrite presence_is_probe; now apply (yields_until _ _ _ sb)|];
  eapply yields_bind; [apply yields_command|];
  eapply yields_bind; [apply yields_command|];
  eapply yields_bind; [apply yields_sleep|];
  eapply yields_bind; [now apply (yields_find_element _ _ ce)|];
  eapply yields_bind; [apply yields_command|];
  eapply yields_bind; [apply yields_sleep|];
  eapply yields_bind; [rewrite clickable_is_probe; now apply (yields_until _ _ _ mb)|];
  eapply yields_bind; [apply yields_compose_and_send|];
  eapply yields_bind; [apply yields_logging|];
  eapply yields_bind; [apply yields_sleep|];
  apply yields_command ].
- reflexivity.
- reflexivity.
Qed.

(** X16: when no command fails and the page, unchanged during the run,
    shows a body, a search box, an entry the contact selector matches
    and a displayed, enabled message box, the sequence of a contact is
    delivered: it issues exactly the commands of the script, once each
    and in order, with every lookup made once, the first match of the
    search box, of the entry and of the message box as the targets of
    the clicks and keys, and the planned keys of the message; no command
    raises, and the log gains the "Sending", "loaded" and "Message sent"
    lines and nothing else. *)
Theorem ready_page_delivers st :
  exists st' evs,
    send_whatsapp_message cfg w contact_name message st = (Ok tt, st')
    /\ trace st' = (trace st ++ evs)%list
    /\ steps evs = happy_path cfg contact_name message sb ce mb
    /\ Forall (fun ev => ev_raised ev = None) evs
    /\ log st' = (log st ++ [LSending contact_name; LLoaded; LSent contact_name])%list.
Proof.
destruct (yields_send_body (started contact_name st)) as (st' & evs & E & Ht & Hs & Hr & Hl).
exists st', evs. unfold send_whatsapp_message, bind, try_except.
change (logging (LSending contact_name) st) with (Ok tt, started contact_name st).
cbv iota. rewrite E.
refine (conj eq_refl (conj Ht (conj Hs (conj Hr _)))).
rewrite Hl. simpl. now rewrite <- app_assoc.
Qed.

End Ready.

Lemma ready_page_delivers_witness :
  faultless (calm (chat_page ["Alice B"; "Alice"]))
  /\ static (calm (chat_page ["Alice B"; "Alice"])) (chat_page ["Alice B"; "Alice"])
  /\ first_match (ByTagName "body") (chat_page ["Alice B"; "Alice"]) <> None
  /\ first_match (ByXPath search_xpath) (chat_page ["Alice B"; "Alice"]) = Some search_box
  /\ first_match (ByXPath (contact_xpath "Alice")) (chat_page ["Alice B"; "Alice"])
     = Some (chat_entry "Alice")
  /\ first_match (ByXPath message_xpath) (chat_page ["Alice B"; "Alice"]) = Some message_box
  /\ el_displayed message_box && el_enabled message_box = true
  /\ exists st' evs,
       send_whatsapp_message cfg0 (calm (chat_page ["Alice B"; "Alice"])) "Alice"
                             hello_world initial = (Ok tt, st')
       /\ trace st' = (trace initial ++ evs)%list
       /\ steps evs = happy_path cfg0 "Alice" hello_world search_box
                                 (chat_entry "Alice") message_box
       /\ Forall (fun ev => ev_raised ev = None) evs
       /\ log st' = (log initial ++ [LSending "Alice"; LLoaded; LSent "Alice"])%list.
Proof.
assert (H1 : faultless (calm (chat_page ["Alice B"; "Alice"])))
  by (intros h t o; reflexivity).
assert (H2 : static (calm (chat_page ["Alice B"; "Alice"])) (chat_page ["Alice B"; "Alice"]))
  by (intros h t; reflexivity).
assert (H3 : first_match (ByTagName "body") (chat_page ["Alice B"; "Alice"]) <> None)
  by (vm_compute; discriminate).
assert (H4 : first_match (ByXPath search_xpath) (chat_page ["Alice B"; "Alice"])
             = Some search_box) by (vm_compute; reflexivity).
assert (H5 : first_match (ByXPath (contact_xpath "Alice")) (chat_page ["Alice B"; "Alice"])
             = Some (chat_entry "Alice")) by (vm_compute; reflexivity).
assert (H6 : first_match (ByXPath message_xpath) (chat_page ["Alice B"; "Alice"])
             = Some message_box) by (vm_compute; reflexivity).
assert (H7 : el_displayed message_box && el_enabled message_box = true) by reflexivity.
refine (conj H1 (conj H2 (conj H3 (conj H4 (conj H5 (conj H6 (conj H7 _))))))).
exact (ready_page_delivers (calm (chat_page ["Alice B"; "Alice"]))
         (chat_page ["Alice B"; "Alice"]) H1 H2 cfg0 "Alice" hello_world
         search_box (chat_entry "Alice") message_box H3 H4 H5 H6 H7 initial).
Defined.

End DeliveryFacts.
